(** * runecho: deterministic source-tree fingerprinting

    A shallow embedding of the Go packages [internal/parser] and
    [internal/ir] (js.go, hasher.go, storage.go, generator.go).

    Go strings and byte slices are byte sequences: both are modelled by
    [string] (a list of 8-bit [ascii]).  Go maps are [gmap]s; the
    unspecified iteration order of [range] over a map is an explicit
    oracle ([MapOrder]).  A [[]string] is a [slice], which keeps Go's
    distinction between the nil slice and an empty one. *)

From Stdlib Require Import NArith Ascii.
From stdpp Require Import gmap strings list fin_maps sorting.

Local Open Scope string_scope.
Local Open Scope list_scope.
#[local] Set Warnings "-register-all,-clear-no-such-hyp".

(** ** Go values *)

(** [[]T]: the nil slice, or a backing array with elements. *)
Inductive slice (A : Type) : Type :=
| NilSlice
| Slice (elems : list A).
Arguments NilSlice {A}.
Arguments Slice {A} elems.

Definition elems {A} (s : slice A) : list A :=
  match s with NilSlice => [] | Slice l => l end.

Definition is_nil {A} (s : slice A) : bool :=
  match s with NilSlice => true | Slice _ => false end.

(** [len(s)] *)
Definition len {A} (s : slice A) : nat := length (elems s).

(** [append(s, x)]: the result is never nil. *)
Definition append {A} (s : slice A) (x : A) : slice A := Slice (elems s ++ [x]).

(** Go's [error]: nil or a message. *)
Inductive result (A : Type) : Type :=
| Ok (a : A)
| Err (msg : string).
Arguments Ok {A} a.
Arguments Err {A} msg.

Definition is_ok {A} (r : result A) : bool :=
  match r with Ok _ => true | Err _ => false end.

(** [range] over a map visits the keys in an order the language leaves
    open; [range_keys] is the order of one such loop. *)
Record MapOrder : Type := {
  range_keys : ∀ V : Type, gmap string V → list string;
  range_keys_perm : ∀ V (m : gmap string V), range_keys V m ≡ₚ (map_to_list m).*1
}.
Arguments range_keys _ {V} _.

(** [sort.Strings]: ascending byte-wise order.  The order is total and
    antisymmetric, so every correct sort returns the same list. *)
Definition sort_Strings (l : list string) : list string := merge_sort String.le l.

Definition sort_slice (s : slice string) : slice string :=
  match s with NilSlice => NilSlice | Slice l => Slice (sort_Strings l) end.

(** Strictly ascending byte-wise order on strings. *)
Definition str_lt : relation string := strict String.le.

(** ** crypto/sha256 *)

Module sha256.
Local Open Scope N_scope.

Definition w32 (x : N) : N := N.land x 0xFFFFFFFF.
Definition add32 (x y : N) : N := w32 (x + y).
Definition not32 (x : N) : N := N.lxor x 0xFFFFFFFF.
Definition rotr (n x : N) : N := N.lor (N.shiftr x n) (w32 (N.shiftl x (32 - n))).

Definition Ch (x y z : N) : N := N.lxor (N.land x y) (N.land (not32 x) z).
Definition Maj (x y z : N) : N :=
  N.lxor (N.lxor (N.land x y) (N.land x z)) (N.land y z).
Definition bsig0 (x : N) : N := N.lxor (N.lxor (rotr 2 x) (rotr 13 x)) (rotr 22 x).
Definition bsig1 (x : N) : N := N.lxor (N.lxor (rotr 6 x) (rotr 11 x)) (rotr 25 x).
Definition ssig0 (x : N) : N := N.lxor (N.lxor (rotr 7 x) (rotr 18 x)) (N.shiftr x 3).
Definition ssig1 (x : N) : N := N.lxor (N.lxor (rotr 17 x) (rotr 19 x)) (N.shiftr x 10).

(** The constants of FIPS 180-4, as it defines them: the first 32 bits
    of the fractional parts of the cube roots of the first 64 primes,
    and of the square roots of the first 8. *)
Definition is_prime (n : N) : bool :=
forallb (λ d, negb (n mod d =? 0)) (N.of_nat <$> seq 2 (N.to_nat n - 2)).

Definition primes : list N := filter (λ n, is_prime n = true) (N.of_nat <$> seq 2 310).

(** The integer cube root of [n], bit by bit from bit [bits] down. *)
Fixpoint icbrt (bits : nat) (n r : N) : N :=
match bits with
| O => r
| S b =>
    let r' := r + N.shiftl 1 (N.of_nat b) in
    icbrt b n (if r' * r' * r' <=? n then r' else r)
end.

Definition K : list N :=
Eval vm_compute in (λ p, w32 (icbrt 40 (N.shiftl p 96) 0)) <$> primes.

Definition H0 : list N :=
Eval vm_compute in (λ p, w32 (N.sqrt (N.shiftl p 64))) <$> take 8 primes.

(** Big-endian bytes of [x], [n] of them. *)
Fixpoint be_bytes (n : nat) (x : N) : list N :=
  match n with
  | O => []
  | S k => be_bytes k (N.shiftr x 8) ++ [N.land x 0xFF]
  end.

(** The message followed by 0x80, zeros up to 56 mod 64, and the bit
    length as a 64-bit big-endian number. *)
Definition pad (msg : list N) : list N :=
  let l := N.of_nat (length msg) in
  let z := (64 - ((l + 9) mod 64)) mod 64 in
  msg ++ [0x80] ++ repeat 0 (N.to_nat z) ++ be_bytes 8 (8 * l).

Fixpoint words (bs : list N) : list N :=
  match bs with
  | a :: b :: c :: d :: rest =>
      (N.shiftl a 24 + N.shiftl b 16 + N.shiftl c 8 + d) :: words rest
  | _ => []
  end.

Fixpoint blocks (fuel : nat) (ws : list N) : list (list N) :=
  match fuel, ws with
  | S k, _ :: _ => take 16 ws :: blocks k (drop 16 ws)
  | _, _ => []
  end.

(** Message schedule, most recent word first. *)
Fixpoint schedule (n : nat) (rw : list N) : list N :=
  match n with
  | O => rw
  | S k =>
      let w := add32 (add32 (ssig1 (nth 1 rw 0)) (nth 6 rw 0))
                     (add32 (ssig0 (nth 14 rw 0)) (nth 15 rw 0)) in
      schedule k (w :: rw)
  end.

Definition round (st : list N) (kw : N * N) : list N :=
  match st with
  | [a; b; c; d; e; f; g; h] =>
      let t1 := add32 (add32 (add32 h (bsig1 e)) (add32 (Ch e f g) kw.1)) kw.2 in
      let t2 := add32 (bsig0 a) (Maj a b c) in
      [add32 t1 t2; a; b; c; add32 d t1; e; f; g]
  | _ => st
  end.

Definition compress (h : list N) (block : list N) : list N :=
  let w := rev (schedule 48 (rev block)) in
  zip_with add32 h (foldl round h (zip K w)).

Definition Sum256 (data : string) : list N :=
  let ws := words (pad (Ascii.N_of_ascii <$> String.list_ascii_of_string data)) in
  foldl compress H0 (blocks (length ws) ws) ≫= be_bytes 4.
End sha256.

Definition hex_digit (n : N) : ascii :=
  if (n <? 10)%N then Ascii.ascii_of_N (48 + n) else Ascii.ascii_of_N (87 + n).

(** [fmt.Sprintf("%x", bytes)]: two lowercase hexadecimal digits a byte. *)
Fixpoint sprintf_x (bs : list N) : string :=
  match bs with
  | [] => ""
  | b :: rest => String (hex_digit (b / 16)) (String (hex_digit (b mod 16)%N) (sprintf_x rest))
  end.

(** hasher.go: [HashBytes] *)
Definition HashBytes (data : string) : string := sprintf_x (sha256.Sum256 data).

(** ** strings *)

Definition byte_of (c : ascii) : N := N_of_ascii c.

Fixpoint str_take (n : nat) (s : string) : string :=
  match n, s with
  | S k, String c s' => String c (str_take k s')
  | _, _ => ""
  end.

Fixpoint str_drop (n : nat) (s : string) : string :=
  match n, s with
  | S k, String _ s' => str_drop k s'
  | _, _ => s
  end.

(** [strings.Index(s, substr)]: [None] stands for -1. *)
Fixpoint strings_Index (s substr : string) : option nat :=
  if String.prefix substr s then Some 0
  else match s with
       | "" => None
       | String _ s' => S <$> strings_Index s' substr
       end.

(** [strings.Split(s, sep)] for a one-byte separator, which is what
    both call sites pass. *)
Fixpoint strings_Split (s : string) (sep : ascii) : list string :=
  match s with
  | "" => [""]
  | String c s' =>
      if decide (c = sep) then "" :: strings_Split s' sep
      else match strings_Split s' sep with
           | piece :: rest => String c piece :: rest
           | [] => [String c ""]
           end
  end.

(** [strings.Join(elems, sep)] *)
Definition strings_Join (l : list string) (sep : string) : string := String.concat sep l.

(** [strings.TrimPrefix(s, prefix)] *)
Definition strings_TrimPrefix (s pre : string) : string :=
  if String.prefix pre s then str_drop (String.length pre) s else s.

(** White space as [unicode.IsSpace] has it, on the UTF-8 bytes: the
    length of the white-space rune [s] starts with, 0 when there is
    none.  U+0009..U+000D, U+0020, U+0085, U+00A0, U+1680,
    U+2000..U+200A, U+2028, U+2029, U+202F, U+205F, U+3000. *)
Definition ascii_space (c : ascii) : bool :=
  let n := byte_of c in ((9 <=? n) && (n <=? 13) || (n =? 32))%N.

Definition space3 (a b c : N) : bool :=
  ((a =? 0xE1) && (b =? 0x9A) && (c =? 0x80)
   || (a =? 0xE2) && (b =? 0x80) && (((0x80 <=? c) && (c <=? 0x8A)) || (c =? 0xA8) || (c =? 0xA9) || (c =? 0xAF))
   || (a =? 0xE2) && (b =? 0x81) && (c =? 0x9F)
   || (a =? 0xE3) && (b =? 0x80) && (c =? 0x80))%N.

Definition space2 (a b : N) : bool :=
  ((a =? 0xC2) && ((b =? 0x85) || (b =? 0xA0)))%N.

Definition space_rune (s : string) : nat :=
  match s with
  | String a t =>
      if ascii_space a then 1
      else match t with
           | String b u =>
               if space2 (byte_of a) (byte_of b) then 2
               else match u with
                    | String c _ => if space3 (byte_of a) (byte_of b) (byte_of c) then 3 else 0
                    | "" => 0
                    end
           | "" => 0
           end
  | "" => 0
  end.

(** The same for the last rune of a string, read off its reversal. *)
Definition space_rune_rev (s : string) : nat :=
  match s with
  | String a t =>
      if ascii_space a then 1
      else match t with
           | String b u =>
               if space2 (byte_of b) (byte_of a) then 2
               else match u with
                    | String c _ => if space3 (byte_of c) (byte_of b) (byte_of a) then 3 else 0
                    | "" => 0
                    end
           | "" => 0
           end
  | "" => 0
  end.

(** Drop runes from the front while [rune_len] finds one; [skip] counts
    the bytes of the rune being dropped. *)
Fixpoint trim_while (rune_len : string → nat) (skip : nat) (s : string) : string :=
  match skip with
  | S k => match s with String _ s' => trim_while rune_len k s' | "" => "" end
  | O =>
      match rune_len s with
      | O => s
      | S k => match s with String _ s' => trim_while rune_len k s' | "" => "" end
      end
  end.

(** [strings.TrimSpace] *)
Definition strings_TrimSpace (s : string) : string :=
  String.rev (trim_while space_rune_rev 0 (String.rev (trim_while space_rune 0 s))).

(** ** regexp

    The patterns of js.go repeat single-character classes only, so the
    syntax below has [x*], [x+] and [x*?] for a class [x].  Matching is
    on bytes: every literal of the patterns is ASCII and the classes are
    ASCII sets or complements of ASCII sets, so a match never starts or
    ends inside a UTF-8 sequence and the byte-wise result is the
    rune-wise one. *)
Inductive regex : Type :=
| Lit (s : string)                 (* literal text *)
| Bot                              (* ^ without the m flag: beginning of text *)
| Class (p : ascii → bool)         (* one character of a class *)
| Star (p : ascii → bool)          (* x*, greedy *)
| Plus (p : ascii → bool)          (* x+, greedy *)
| StarLazy (p : ascii → bool)      (* x*?, prefers fewer *)
| Cat (r1 r2 : regex)              (* r1 r2 *)
| Alt (r1 r2 : regex)              (* r1|r2, prefers r1 *)
| Opt (r : regex)                  (* r?, prefers one *)
| Cap (r : regex).                 (* capturing group *)

(** Length of the longest prefix of [s] inside the class. *)
Fixpoint span (p : ascii → bool) (s : string) : nat :=
  match s with
  | String c s' => if p c then S (span p s') else 0
  | "" => 0
  end.

(** All the ways [r] matches a prefix of [s], as (rest of the input,
    captured text), in the order a backtracking matcher tries them:
    this is the leftmost-first preference of Go's regexp.  [bot]
    tells whether [s] starts at the beginning of the text. *)
Fixpoint run (r : regex) (bot : bool) (s : string) : list (string * option string) :=
  match r with
  | Lit l => if String.prefix l s then [(str_drop (String.length l) s, None)] else []
  | Bot => if bot then [(s, None)] else []
  | Class p =>
      match s with
      | String c s' => if p c then [(s', None)] else []
      | "" => []
      end
  | Star p => (λ k, (str_drop k s, None)) <$> reverse (seq 0 (S (span p s)))
  | Plus p => (λ k, (str_drop k s, None)) <$> reverse (seq 1 (span p s))
  | StarLazy p => (λ k, (str_drop k s, None)) <$> seq 0 (S (span p s))
  | Cat r1 r2 =>
      m1 ← run r1 bot s;
      m2 ← run r2 (bot && Nat.eqb (String.length m1.1) (String.length s)) m1.1;
      [(m2.1, from_option Some m1.2 m2.2)]
  | Alt r1 r2 => run r1 bot s ++ run r2 bot s
  | Opt r1 => run r1 bot s ++ [(s, None)]
  | Cap r1 =>
      m ← run r1 bot s;
      [(m.1, Some (str_take (String.length s - String.length m.1) s))]
  end.

(** The preferred match of [r] at the front of [s]: its length and the
    submatch slice [whole; group 1]. *)
Definition exec (r : regex) (bot : bool) (s : string) : option (nat * list string) :=
  match run r bot s with
  | [] => None
  | (rest, cap) :: _ =>
      let n := String.length s - String.length rest in
      Some (n, [str_take n s; default "" cap])
  end.

(** The scan shared by [FindAll...] and [ReplaceAll...]: successive
    non-overlapping matches, leftmost first.  [skip] counts the bytes
    left of the match being passed over; [adj] tells that the previous
    match ended here, where an empty match is not accepted.  Each step
    yields either a match or a byte outside every match. *)
Fixpoint scan (r : regex) (bot : bool) (skip : nat) (adj : bool) (s : string)
  : list (list string + ascii) :=
  match skip with
  | S k =>
      match s with
      | String _ s' => scan r false k (Nat.eqb k 0) s'
      | "" => []
      end
  | O =>
      match exec r bot s with
      | Some (S k, m) =>
          inl m :: match s with
                   | String _ s' => scan r false k (Nat.eqb k 0) s'
                   | "" => []
                   end
      | Some (O, m) =>
          (if adj then [] else [inl m])
          ++ match s with
             | String c s' => inr c :: scan r false 0 false s'
             | "" => []
             end
      | None =>
          match s with
          | String c s' => inr c :: scan r false 0 false s'
          | "" => []
          end
      end
  end.

(** [re.FindAllStringSubmatch(s, -1)] *)
Definition FindAllStringSubmatch (r : regex) (s : string) : list (list string) :=
  omap (λ x, match x with inl m => Some m | inr _ => None end) (scan r true 0 false s).

(** [re.ReplaceAllString(s, "")] *)
Definition ReplaceAllString_empty (r : regex) (s : string) : string :=
  String.string_of_list_ascii
    (omap (λ x, match x with inl _ => None | inr c => Some c end) (scan r true 0 false s)).

(** ** internal/parser: parser.go, js.go *)

(** [\s] is [\t\n\f\r ], [\w] is [0-9A-Za-z_]. *)
Definition cls_s (c : ascii) : bool :=
  let n := byte_of c in ((n =? 9) || (n =? 10) || (n =? 12) || (n =? 13) || (n =? 32))%N.

Definition cls_w (c : ascii) : bool :=
  let n := byte_of c in
  ((48 <=? n) && (n <=? 57) || (65 <=? n) && (n <=? 90) || (97 <=? n) && (n <=? 122) || (n =? 95))%N.

Definition cls_any (c : ascii) : bool := true.
Definition cls_in (l : string) (c : ascii) : bool := bool_decide (c ∈ String.list_ascii_of_string l).
Definition cls_not (p : ascii → bool) (c : ascii) : bool := negb (p c).
Definition cls_or (p q : ascii → bool) (c : ascii) : bool := p c || q c.

(** The single and the double quote. *)
Definition cls_quote (c : ascii) : bool := ((byte_of c =? 39) || (byte_of c =? 34))%N.

(** Concatenation and alternation of several expressions. *)
Fixpoint cat (rs : list regex) : regex :=
  match rs with
  | [] => Lit ""
  | [r] => r
  | r :: rs' => Cat r (cat rs')
  end.

Fixpoint alt (r : regex) (rs : list regex) : regex :=
  match rs with
  | [] => r
  | r' :: rs' => Alt r (alt r' rs')
  end.

(** The patterns of js.go.  In the comments \x22 stands for the double
    quote character. *)

Definition kw_decl : regex := alt (Lit "const") [Lit "let"; Lit "var"].
Definition opt_async : regex := Opt (cat [Lit "async"; Plus cls_s]).

(** [import\s+(?:[\w\s{},*]*\s+from\s+)?['\x22]([^'\x22]+)['\x22]] *)
Definition importESMRegex : regex :=
  cat [Lit "import"; Plus cls_s;
       Opt (cat [Star (cls_or cls_w (cls_or cls_s (cls_in "{},*"))); Plus cls_s; Lit "from"; Plus cls_s]);
       Class cls_quote; Cap (Plus (cls_not cls_quote)); Class cls_quote].

(** [require\s*\(\s*['\x22]([^'\x22]+)['\x22]\s*\)] *)
Definition importCJSRegex : regex :=
  cat [Lit "require"; Star cls_s; Lit "("; Star cls_s;
       Class cls_quote; Cap (Plus (cls_not cls_quote)); Class cls_quote;
       Star cls_s; Lit ")"].

(** [(?:^|\s)(?:async\s+)?function\s+(\w+)\s*\(] *)
Definition funcDeclRegex : regex :=
  cat [Alt Bot (Class cls_s); opt_async; Lit "function"; Plus cls_s; Cap (Plus cls_w);
       Star cls_s; Lit "("].

(** [(?:const|let|var)\s+(\w+)\s*=\s*(?:async\s+)?function\s*\(] *)
Definition funcExprRegex : regex :=
  cat [kw_decl; Plus cls_s; Cap (Plus cls_w); Star cls_s; Lit "="; Star cls_s;
       opt_async; Lit "function"; Star cls_s; Lit "("].

(** [(?:const|let|var)\s+(\w+)\s*=\s*(?:async\s+)?(?:\([^)]*\)|[\w]+)\s*=>] *)
Definition arrowFuncRegex : regex :=
  cat [kw_decl; Plus cls_s; Cap (Plus cls_w); Star cls_s; Lit "="; Star cls_s;
       opt_async;
       Alt (cat [Lit "("; Star (cls_not (cls_in ")")); Lit ")"]) (Plus cls_w);
       Star cls_s; Lit "=>"].

(** [(?:^|\s)(?:export\s+(?:default\s+)?)?class\s+(\w+)] *)
Definition classDeclRegex : regex :=
  cat [Alt Bot (Class cls_s);
       Opt (cat [Lit "export"; Plus cls_s; Opt (cat [Lit "default"; Plus cls_s])]);
       Lit "class"; Plus cls_s; Cap (Plus cls_w)].

(** [export\s+\{([^}]+)\}] *)
Definition exportNamedRegex : regex :=
  cat [Lit "export"; Plus cls_s; Lit "{"; Cap (Plus (cls_not (cls_in "}"))); Lit "}"].

(** [export\s+(?:const|let|var|function|class|async\s+function)\s+(\w+)] *)
Definition exportDeclRegex : regex :=
  cat [Lit "export"; Plus cls_s;
       alt (Lit "const") [Lit "let"; Lit "var"; Lit "function"; Lit "class";
                          cat [Lit "async"; Plus cls_s; Lit "function"]];
       Plus cls_s; Cap (Plus cls_w)].

(** [export\s+default\s+(\w+)] *)
Definition exportDefaultRegex : regex :=
  cat [Lit "export"; Plus cls_s; Lit "default"; Plus cls_s; Cap (Plus cls_w)].

(** [/\*[\s\S]*?\*/] *)
Definition multiLineRegex : regex := cat [Lit "/*"; StarLazy cls_any; Lit "*/"].

(** parser.go: [FileStructure] *)
Record FileStructure : Type := {
  fs_Imports : slice string;
  fs_Functions : slice string;
  fs_Classes : slice string;
  fs_Exports : slice string
}.

(** [SupportsExtension] *)
Definition SupportsExtension (ext : string) : bool :=
  bool_decide (ext = ".js") || bool_decide (ext = ".ts") || bool_decide (ext = ".gs").

(** The loop body of [removeComments]: cut a line at its first [//]. *)
Definition cut_line_comment (line : string) : string :=
  match strings_Index line "//" with
  | Some idx => str_take idx line
  | None => line
  end.

(** [removeComments] *)
Definition removeComments (source : string) : string :=
  let source := ReplaceAllString_empty multiLineRegex source in
  let lines := strings_Split source "010" in
  let cleaned := foldl (λ cleaned line, append cleaned (cut_line_comment line)) NilSlice lines in
  strings_Join (elems cleaned) (String "010" "").

(** [for _, match := range matches { if len(match) > 1 { acc = append(acc, match[1]) } }] *)
Definition append_submatches (acc : slice string) (matches : list (list string)) : slice string :=
  foldl (λ acc m, if Nat.ltb 1 (length m) then append acc (nth 1 m "") else acc) acc matches.

(** [extractImports] *)
Definition extractImports (source : string) : slice string :=
  let imports := Slice [] in
  let imports := append_submatches imports (FindAllStringSubmatch importESMRegex source) in
  let imports := append_submatches imports (FindAllStringSubmatch importCJSRegex source) in
  imports.

(** [extractFunctions] *)
Definition extractFunctions (source : string) : slice string :=
  let functions := Slice [] in
  let functions := append_submatches functions (FindAllStringSubmatch funcDeclRegex source) in
  let functions := append_submatches functions (FindAllStringSubmatch funcExprRegex source) in
  let functions := append_submatches functions (FindAllStringSubmatch arrowFuncRegex source) in
  functions.

(** [extractClasses] *)
Definition extractClasses (source : string) : slice string :=
  append_submatches (Slice []) (FindAllStringSubmatch classDeclRegex source).

(** One entry of a named-export list: the name it contributes, if any. *)
Definition export_entry (name : string) : option string :=
  let name := strings_TrimSpace name in
  let name := match strings_Index name " as " with
              | Some idx => strings_TrimSpace (str_take idx name)
              | None => name
              end in
  if decide (name = "") then None else Some name.

(** The names of one [export { ... }] match. *)
Definition append_export_list (exports : slice string) (m : list string) : slice string :=
  if Nat.ltb 1 (length m)
  then foldl (λ exports name,
                match export_entry name with
                | Some n => append exports n
                | None => exports
                end)
             exports (strings_Split (nth 1 m "") ",")
  else exports.

(** [extractExports] *)
Definition extractExports (source : string) : slice string :=
  let exports := Slice [] in
  let exports := foldl append_export_list exports (FindAllStringSubmatch exportNamedRegex source) in
  let exports := append_submatches exports (FindAllStringSubmatch exportDeclRegex source) in
  let exports := append_submatches exports (FindAllStringSubmatch exportDefaultRegex source) in
  exports.

(** The loop of [deduplicate], [prev] being [sorted[i-1]]. *)
Fixpoint dedup_from (prev : string) (rest : list string) : list string :=
  match rest with
  | [] => []
  | x :: rest' => if decide (x = prev) then dedup_from x rest' else x :: dedup_from x rest'
  end.

(** [deduplicate] *)
Definition deduplicate (sorted : slice string) : slice string :=
  match elems sorted with
  | [] => sorted
  | x :: rest => Slice (x :: dedup_from x rest)
  end.

(** [JSParser.Parse]; the error it returns is always nil. *)
Definition Parse (source : string) : result FileStructure :=
  let source := removeComments source in
  let imports := extractImports source in
  let functions := extractFunctions source in
  let classes := extractClasses source in
  let exports := extractExports source in
  Ok {| fs_Imports := deduplicate (sort_slice imports);
        fs_Functions := deduplicate (sort_slice functions);
        fs_Classes := deduplicate (sort_slice classes);
        fs_Exports := deduplicate (sort_slice exports) |}.

(** ** internal/ir: storage.go, hasher.go *)

(** [FileIR] *)
Record FileIR : Type := {
  Hash : string;
  Imports : slice string;
  Functions : slice string;
  Classes : slice string;
  Exports : slice string
}.

(** [IR].  A nil [Files] map reads like an empty one and is not told
    apart from it. *)
Record IR : Type := {
  Version : Z;
  RootHash : string;
  Files : gmap string FileIR
}.

(** The zero value [FileIR{}], which a map read yields at an absent key. *)
Definition zeroFileIR : FileIR :=
  {| Hash := ""; Imports := NilSlice; Functions := NilSlice; Classes := NilSlice; Exports := NilSlice |}.

Definition zeroIR : IR := {| Version := 0; RootHash := ""; Files := ∅ |}.

(** [files[path]] *)
Definition map_index (files : gmap string FileIR) (path : string) : FileIR :=
  default zeroFileIR (files !! path).

(** The loop of [ComputeRootHash] over the sorted paths, [i] being the
    loop index and [builder] the text written so far. *)
Fixpoint root_builder (files : gmap string FileIR) (i : nat) (paths : list string)
    (builder : string) : string :=
  match paths with
  | [] => builder
  | path :: rest =>
      let builder := if Nat.ltb 0 i then builder +:+ String "010" "" else builder in
      let builder := builder +:+ path in
      let builder := builder +:+ ":" in
      let builder := builder +:+ Hash (map_index files path) in
      root_builder files (S i) rest builder
  end.

(** [ComputeRootHash] *)
Definition ComputeRootHash (O : MapOrder) (files : gmap string FileIR) : string :=
  if Nat.eqb (size files) 0 then HashBytes ""
  else
    let paths := sort_Strings (range_keys O files) in
    HashBytes (root_builder files 0 paths "").

(** What the specification says of the root fingerprint: the lines
    [path:hash] of the entries in ascending order of the paths, joined
    by newlines, hashed. *)
Definition fingerprint_text (pairs : list (string * string)) : string :=
  String.concat (String "010" "") ((λ ph, ph.1 +:+ ":" +:+ ph.2) <$> pairs).

(** What the specification says of [computeRootFingerprint]: sort the
    paths ascending, build the lines [path:hash] in that order joined by
    newlines, hash the bytes.  [hashes] maps each canonical path to the
    content hash of its entry. *)
Definition computeRootFingerprint (hashes : gmap string string) : string :=
  let paths := sort_Strings (map_to_list hashes).*1 in
  HashBytes (fingerprint_text ((λ p, (p, default "" (hashes !! p))) <$> paths)).

(** A line of the fingerprint text. *)
Definition root_line (files : gmap string FileIR) (p : string) : string :=
  p +:+ ":" +:+ Hash (map_index files p).

(** ** encoding/json

    A JSON text is represented by its syntax tree, the members of an
    object in the order of the text.  A number written as an integer is
    [JInt]; any other number keeps its literal. *)
Inductive json : Type :=
| JNull
| JBool (b : bool)
| JInt (z : Z)
| JReal (lit : string)
| JString (s : string)
| JArray (items : list json)
| JObject (members : list (string * json)).

(** *** Encoding *)

Definition slice_json (s : slice string) : json :=
  match s with
  | NilSlice => JNull
  | Slice l => JArray (JString <$> l)
  end.

(** A [FileIR] in the order of its fields. *)
Definition FileIR_json (f : FileIR) : json :=
  JObject [("hash", JString (Hash f));
           ("imports", slice_json (Imports f));
           ("functions", slice_json (Functions f));
           ("classes", slice_json (Classes f));
           ("exports", slice_json (Exports f))].

(** A [map[string]FileIR]: encoding/json collects the entries and sorts
    them by key. *)
Definition map_json (O : MapOrder) (m : gmap string FileIR) : json :=
  JObject ((λ k, (k, FileIR_json (map_index m k))) <$> sort_Strings (range_keys O m)).

Section Indent.
(** The string literal encoding/json writes for a Go string. *)
Variable quote : string → string.

Definition LF : string := String "010" "".

Fixpoint indent (depth : nat) : string :=
  match depth with O => "" | S d => "  " +:+ indent d end.

(** Decimal digits of a number in front of [acc]. *)
Fixpoint digits (fuel : nat) (n : N) (acc : string) : string :=
  match fuel with
  | O => acc
  | S k =>
      let acc := String (ascii_of_N (48 + n mod 10)) acc in
      if (n <? 10)%N then acc else digits k (n / 10)%N acc
  end.

Definition itoa (z : Z) : string :=
  let n := Z.to_N (Z.abs z) in
  let d := digits (S (N.to_nat (N.log2 n))) n "" in
  if (z <? 0)%Z then "-" +:+ d else d.

(** [json.MarshalIndent(v, "", "  ")] on a syntax tree. *)
Fixpoint render (depth : nat) (v : json) : string :=
  match v with
  | JNull => "null"
  | JBool b => if b then "true" else "false"
  | JInt z => itoa z
  | JReal lit => lit
  | JString s => quote s
  | JArray [] => "[]"
  | JArray (x :: xs) =>
      "[" +:+ LF +:+ indent (S depth) +:+ render (S depth) x
      +:+ (fix items (l : list json) : string :=
             match l with
             | [] => ""
             | y :: l' => "," +:+ LF +:+ indent (S depth) +:+ render (S depth) y +:+ items l'
             end) xs
      +:+ LF +:+ indent depth +:+ "]"
  | JObject [] => "{}"
  | JObject (kv :: kvs) =>
      "{" +:+ LF +:+ indent (S depth) +:+ quote kv.1 +:+ ": " +:+ render (S depth) kv.2
      +:+ (fix members (l : list (string * json)) : string :=
             match l with
             | [] => ""
             | m :: l' =>
                 "," +:+ LF +:+ indent (S depth) +:+ quote m.1 +:+ ": " +:+ render (S depth) m.2
                 +:+ members l'
             end) kvs
      +:+ LF +:+ indent depth +:+ "}"
  end.

Definition MarshalIndent (v : json) : string := render 0 v.

(** The tree [IR.MarshalJSON] hands to the encoder: [paths] is sorted
    and [orderedFiles] rebuilt from it, then the anonymous struct is
    encoded field by field. *)
Definition MarshalJSON_tree (O1 O2 : MapOrder) (ir : IR) : json :=
  let paths := sort_Strings (range_keys O1 (Files ir)) in
  let orderedFiles :=
    foldl (λ (m : gmap string FileIR) path, <[path := map_index (Files ir) path]> m) ∅ paths in
  JObject [("version", JInt (Version ir));
           ("root_hash", JString (RootHash ir));
           ("files", map_json O2 orderedFiles)].

(** [IR.MarshalJSON]; [O1] is the order of its own loop over
    [ir.Files], [O2] the order in which the encoder meets the entries
    of [orderedFiles]. *)
Definition MarshalJSON (O1 O2 : MapOrder) (ir : IR) : result string :=
  Ok (MarshalIndent (MarshalJSON_tree O1 O2 ir)).
End Indent.

(** *** Decoding *)

(** Field names match exactly or, failing that, under simple case
    folding: ASCII letters, and the two runes that fold to ASCII
    letters, U+017F (to S) and U+212A (to K). *)
Fixpoint foldName (s : string) : string :=
  match s with
  | "" => ""
  | String c s' =>
      let n := byte_of c in
      if ((97 <=? n) && (n <=? 122))%N then String (ascii_of_N (n - 32)) (foldName s')
      else
        match s' with
        | String d s'' =>
            if ((n =? 0xC5) && (byte_of d =? 0xBF))%N then String "S" (foldName s'')
            else
              match s'' with
              | String e s''' =>
                  if ((n =? 0xE2) && (byte_of d =? 0x84) && (byte_of e =? 0xAA))%N
                  then String "K" (foldName s''')
                  else String c (foldName s')
              | "" => String c (foldName s')
              end
        | "" => String c ""
        end
  end.

(** The struct field a member name selects. *)
Definition find_field (fields : list string) (key : string) : option string :=
  match list_find (λ f, f = key) fields with
  | Some (_, f) => Some f
  | None => snd <$> list_find (λ f, foldName f = foldName key) fields
  end.

Definition int_min : Z := -9223372036854775808.
Definition int_max : Z := 9223372036854775807.

(** A value into an [int]: null leaves it as it is. *)
Definition decode_int (cur : Z) (v : json) : result Z :=
  match v with
  | JNull => Ok cur
  | JInt z => if ((int_min <=? z) && (z <=? int_max))%Z then Ok z
              else Err "json: cannot unmarshal number into Go value of type int"
  | _ => Err "json: cannot unmarshal into Go value of type int"
  end.

(** A value into a [string]. *)
Definition decode_string (cur : string) (v : json) : result string :=
  match v with
  | JNull => Ok cur
  | JString s => Ok s
  | _ => Err "json: cannot unmarshal into Go value of type string"
  end.

Fixpoint decode_elements (items : list json) : result (list string) :=
  match items with
  | [] => Ok []
  | x :: rest =>
      match decode_string "" x, decode_elements rest with
      | Ok s, Ok l => Ok (s :: l)
      | Err e, _ => Err e
      | _, Err e => Err e
      end
  end.

(** A value into a [[]string]: null makes it nil, an array a fresh
    slice, empty but not nil when the array is empty.  (When a text
    repeats a member, Go decodes the elements of the later array over
    what the earlier one left in memory; the two agree unless the later
    array holds a null.) *)
Definition decode_strings (v : json) : result (slice string) :=
  match v with
  | JNull => Ok NilSlice
  | JArray items =>
      match decode_elements items with
      | Ok l => Ok (Slice l)
      | Err e => Err e
      end
  | _ => Err "json: cannot unmarshal into Go value of type []string"
  end.

Definition FileIR_fields : list string := ["hash"; "imports"; "functions"; "classes"; "exports"].

(** One member of an object into a [FileIR]; unknown names are skipped. *)
Definition decode_FileIR_member (f : FileIR) (kv : string * json) : result FileIR :=
  match find_field FileIR_fields kv.1 with
  | None => Ok f
  | Some name =>
      if decide (name = "hash") then
        match decode_string (Hash f) kv.2 with
        | Ok h => Ok {| Hash := h; Imports := Imports f; Functions := Functions f;
                        Classes := Classes f; Exports := Exports f |}
        | Err e => Err e
        end
      else if decide (name = "imports") then
        match decode_strings kv.2 with
        | Ok l => Ok {| Hash := Hash f; Imports := l; Functions := Functions f;
                        Classes := Classes f; Exports := Exports f |}
        | Err e => Err e
        end
      else if decide (name = "functions") then
        match decode_strings kv.2 with
        | Ok l => Ok {| Hash := Hash f; Imports := Imports f; Functions := l;
                        Classes := Classes f; Exports := Exports f |}
        | Err e => Err e
        end
      else if decide (name = "classes") then
        match decode_strings kv.2 with
        | Ok l => Ok {| Hash := Hash f; Imports := Imports f; Functions := Functions f;
                        Classes := l; Exports := Exports f |}
        | Err e => Err e
        end
      else
        match decode_strings kv.2 with
        | Ok l => Ok {| Hash := Hash f; Imports := Imports f; Functions := Functions f;
                        Classes := Classes f; Exports := l |}
        | Err e => Err e
        end
  end.

(** Members are decoded in the order of the text, each on top of what
    the earlier ones left. *)
Fixpoint decode_members {A} (step : A → string * json → result A) (a : A)
    (members : list (string * json)) : result A :=
  match members with
  | [] => Ok a
  | kv :: rest =>
      match step a kv with
      | Ok a' => decode_members step a' rest
      | Err e => Err e
      end
  end.

(** A value into a [FileIR] that starts as [cur]. *)
Definition decode_FileIR (cur : FileIR) (v : json) : result FileIR :=
  match v with
  | JNull => Ok cur
  | JObject members => decode_members decode_FileIR_member cur members
  | _ => Err "json: cannot unmarshal into Go value of type ir.FileIR"
  end.

(** A value into a [map[string]FileIR]: null makes the map nil; an
    object adds its members to the map, each decoded into a fresh
    [FileIR]. *)
Definition decode_Files (cur : gmap string FileIR) (v : json) : result (gmap string FileIR) :=
  match v with
  | JNull => Ok ∅
  | JObject members =>
      decode_members
        (λ (m : gmap string FileIR) kv,
           match decode_FileIR zeroFileIR kv.2 with
           | Ok f => Ok (<[kv.1 := f]> m)
           | Err e => Err e
           end)
        cur members
  | _ => Err "json: cannot unmarshal into Go value of type map[string]ir.FileIR"
  end.

Definition IR_fields : list string := ["version"; "root_hash"; "files"].

Definition decode_IR_member (ir : IR) (kv : string * json) : result IR :=
  match find_field IR_fields kv.1 with
  | None => Ok ir
  | Some name =>
      if decide (name = "version") then
        match decode_int (Version ir) kv.2 with
        | Ok z => Ok {| Version := z; RootHash := RootHash ir; Files := Files ir |}
        | Err e => Err e
        end
      else if decide (name = "root_hash") then
        match decode_string (RootHash ir) kv.2 with
        | Ok h => Ok {| Version := Version ir; RootHash := h; Files := Files ir |}
        | Err e => Err e
        end
      else
        match decode_Files (Files ir) kv.2 with
        | Ok m => Ok {| Version := Version ir; RootHash := RootHash ir; Files := m |}
        | Err e => Err e
        end
  end.

(** [json.Unmarshal(data, aux)] for the anonymous struct of
    [UnmarshalJSON]; [data] is [None] when the bytes are not a JSON
    text. *)
Definition Unmarshal_aux (data : option json) : result IR :=
  match data with
  | None => Err "invalid character"
  | Some JNull => Ok zeroIR
  | Some (JObject members) => decode_members decode_IR_member zeroIR members
  | Some _ => Err "json: cannot unmarshal into Go value of type struct"
  end.

(** [IR.UnmarshalJSON] *)
Definition UnmarshalJSON (data : option json) : result IR :=
  match Unmarshal_aux data with
  | Err err => Err err
  | Ok aux => Ok {| Version := Version aux; RootHash := RootHash aux; Files := Files aux |}
  end.

(** [Load]: [file] is what [os.ReadFile(path)] returns. *)
Definition Load (file : result (option json)) : result IR :=
  match file with
  | Err err => Err ("failed to read IR file: " +:+ err)
  | Ok data =>
      match UnmarshalJSON data with
      | Err err => Err ("failed to unmarshal IR: " +:+ err)
      | Ok ir => Ok ir
      end
  end.

(** ** The file system

    What [os.Lstat], [readDirNames] and [os.ReadFile] report.  A path is
    the list of the components of a cleaned absolute path. *)
Inductive node : Type :=
| File (content : option string)            (* a file; [None] when it cannot be opened or read *)
| Symlink                                   (* a symbolic link, which Lstat does not follow *)
| Dir (listing : option (list (string * node)))
                                            (* a directory with its entries in the order of
                                               readDirNames, sorted by name; [None] when it
                                               cannot be listed *)
| Gone.                                     (* a name whose Lstat fails *)

Definition path : Type := list string.

(** [os.FileInfo], as far as the walk looks at it. *)
Record FileInfo : Type := {
  IsDir : bool;
  IsSymlink : bool        (* info.Mode()&os.ModeSymlink != 0 *)
}.

Definition info_of (n : node) : FileInfo :=
  match n with
  | Dir _ => {| IsDir := true; IsSymlink := false |}
  | Symlink => {| IsDir := false; IsSymlink := true |}
  | _ => {| IsDir := false; IsSymlink := false |}
  end.

Fixpoint assoc (name : string) (es : list (string * node)) : option node :=
  match es with
  | [] => None
  | (n, x) :: rest => if decide (n = name) then Some x else assoc name rest
  end.

Fixpoint lookup_path (n : node) (p : path) : option node :=
  match p with
  | [] => Some n
  | name :: rest =>
      match n with
      | Dir (Some es) =>
          match assoc name es with
          | Some child => lookup_path child rest
          | None => None
          end
      | _ => None
      end
  end.

(** The machine a call runs on: the file system from its root
    directory, and the working directory when it can be determined. *)
Record world : Type := {
  fs : node;
  cwd : option path
}.

(** [os.Lstat] *)
Definition os_Lstat (w : world) (p : path) : result node :=
  match lookup_path (fs w) p with
  | Some Gone | None => Err "no such file or directory"
  | Some n => Ok n
  end.

(** [os.ReadFile] *)
Definition os_ReadFile (w : world) (p : path) : result string :=
  match lookup_path (fs w) p with
  | Some (File (Some content)) => Ok content
  | _ => Err "read failed"
  end.

(** hasher.go: [HashFile] *)
Definition HashFile (w : world) (p : path) : result string :=
  match os_ReadFile w p with
  | Ok content => Ok (HashBytes content)
  | Err e => Err ("failed to open file: " +:+ e)
  end.

(** *** path/filepath *)

(** What a [WalkFunc] returns: nil, [filepath.SkipDir] or another error. *)
Inductive walk_ret : Type :=
| RetNil
| SkipDir
| RetErr (msg : string).

(** What a [WalkFunc] is called with: the [FileInfo] of an entry, or an
    error, with the [FileInfo] when it is the listing of a directory
    that failed. *)
Inductive visit : Type :=
| Visit (info : FileInfo)
| Failed (info : option FileInfo) (err : string).

Section Walk.
Context {S : Type}.
Variable walkFn : path → visit → S → S * walk_ret.

(** [filepath.walk] *)
Fixpoint walk (p : path) (n : node) (st : S) {struct n} : S * walk_ret :=
  match n with
  | Dir listing =>
      let r := walkFn p (match listing with
                         | Some _ => Visit (info_of n)
                         | None => Failed (Some (info_of n)) "readdirnames"
                         end) st in
      match listing, r.2 with
      | Some es, RetNil =>
          (fix names (es : list (string * node)) (st : S) : S * walk_ret :=
             match es with
             | [] => (st, RetNil)
             | (name, child) :: rest =>
                 let filename := (p ++ [name])%list in
                 match child with
                 | Gone =>
                     let r := walkFn filename (Failed None "lstat") st in
                     match r.2 with
                     | RetErr e => r
                     | _ => names rest r.1
                     end
                 | _ =>
                     let r := walk filename child st in
                     match r.2 with
                     | RetNil => names rest r.1
                     | SkipDir => if IsDir (info_of child) then names rest r.1 else r
                     | RetErr e => r
                     end
                 end
             end) es r.1
      | _, _ => r
      end
  | _ => walkFn p (Visit (info_of n)) st
  end.

(** [filepath.Walk] *)
Definition Walk (w : world) (root : path) (st : S) : S * option string :=
  let r := match os_Lstat w root with
           | Err e => walkFn root (Failed None e) st
           | Ok n => walk root n st
           end in
  match r.2 with
  | RetErr e => (r.1, Some e)
  | _ => (r.1, None)
  end.
End Walk.

(** The loop of [filepath.walk] over the names of a directory. *)
Definition walk_names {S : Type} (walkFn : path → visit → S → S * walk_ret) (p : path)
  : list (string * node) → S → S * walk_ret :=
  fix names (es : list (string * node)) (st : S) : S * walk_ret :=
    match es with
    | [] => (st, RetNil)
    | (name, child) :: rest =>
        let filename := p ++ [name] in
        match child with
        | Gone =>
            let r := walkFn filename (Failed None "lstat") st in
            match r.2 with
            | RetErr e => r
            | _ => names rest r.1
            end
        | _ =>
            let r := walk walkFn filename child st in
            match r.2 with
            | RetNil => names rest r.1
            | SkipDir => if IsDir (info_of child) then names rest r.1 else r
            | RetErr e => r
            end
        end
    end.

(** The extension of a file name: from its last dot on, empty without one. *)
Fixpoint name_ext (name : string) : string :=
  match name with
  | "" => ""
  | String c rest =>
      match name_ext rest with
      | "" => if decide (c = "."%char) then name else ""
      | e => e
      end
  end.

(** Lexical cleaning of the components of a rooted path: empty and [.]
    components vanish, [..] removes the component before it, and
    nothing at the root.  [stack] holds the components so far, last
    first. *)
Fixpoint clean_components (stack : list string) (comps : list string) : path :=
  match comps with
  | [] => reverse stack
  | c :: rest =>
      if decide (c = "") then clean_components stack rest
      else if decide (c = ".") then clean_components stack rest
      else if decide (c = "..") then clean_components (tail stack) rest
      else clean_components (c :: stack) rest
  end.

(** The components the two paths do not share: what is left of the
    base, and what is left of the target. *)
Fixpoint rel_components (base targ : path) : path * path :=
  match base, targ with
  | b :: bs, t :: ts => if decide (b = t) then rel_components bs ts else (base, targ)
  | _, _ => (base, targ)
  end.

(** ** internal/ir: generator.go *)

(** [Generator]; its parser is the [JSParser]. *)
Record Generator : Type := {
  ignoredPaths : gmap string bool
}.

(** [GeneratorConfig] *)
Record GeneratorConfig : Type := {
  IgnoredPaths : list string
}.

(** [NewGenerator] *)
Definition NewGenerator (config : GeneratorConfig) : Generator :=
  let ignored := foldl (λ (m : gmap string bool) path, <[path := true]> m) ∅ (IgnoredPaths config) in
  let ignored :=
    if Nat.eqb (size ignored) 0
    then <[".vscode" := true]> (<[".cursor" := true]> (<[".git" := true]>
           (<["dist" := true]> (<["node_modules" := true]> ignored))))
    else ignored in
  {| ignoredPaths := ignored |}.

(** [g.ignoredPaths[dirName]] *)
Definition is_ignored (g : Generator) (dirName : string) : bool :=
  default false (ignoredPaths g !! dirName).

(** A line on standard error. *)
Inductive warning : Type :=
| WarnAccess (p : path)       (* failed to access *)
| WarnParse (p : path)        (* failed to parse *)
| WarnRel (p : path)          (* failed to compute relative path *)
| WarnHash (p : path).        (* failed to hash *)

Section Platform.
(** [os.PathSeparator], and [norm.NFC.String] of golang.org/x/text. *)
Variable Separator : ascii.
Variable NFC : string → string.

(** [filepath.Base] of a cleaned absolute path. *)
Definition filepath_Base (p : path) : string :=
  match reverse p with
  | [] => String Separator ""
  | name :: _ => name
  end.

(** [filepath.Ext] *)
Definition filepath_Ext (p : path) : string :=
  match reverse p with
  | [] => ""
  | name :: _ => name_ext name
  end.

(** [filepath.Abs] followed by [filepath.Clean], for rooted paths
    without volume names: a path that starts with the separator is
    absolute, any other is joined to the working directory. *)
Definition filepath_Abs (w : world) (rootPath : string) : result path :=
  match rootPath with
  | String c _ =>
      if decide (c = Separator) then Ok (clean_components [] (strings_Split rootPath Separator))
      else match cwd w with
           | Some wd => Ok (clean_components (reverse wd) (strings_Split rootPath Separator))
           | None => Err "getwd"
           end
  | "" =>
      match cwd w with
      | Some wd => Ok wd
      | None => Err "getwd"
      end
  end.

(** [filepath.Rel] of two cleaned absolute paths; it does not fail on
    them. *)
Definition filepath_Rel (base targ : path) : result string :=
  let '(b, t) := rel_components base targ in
  match ((λ _, "..") <$> b) ++ t with
  | [] => Ok "."
  | comps => Ok (strings_Join comps (String Separator ""))
  end.

(** [strings.ReplaceAll(s, string(Separator), "/")] *)
Fixpoint replace_separator (s : string) : string :=
  match s with
  | "" => ""
  | String c s' =>
      String (if decide (c = Separator) then "/"%char else c) (replace_separator s')
  end.

(** [filepath.ToSlash] *)
Definition filepath_ToSlash (p : string) : string :=
  if decide (Separator = "/"%char) then p else replace_separator p.

(** [normalizePath] *)
Definition normalizePath (relPath : string) : string :=
  let normalized := filepath_ToSlash relPath in
  let normalized := strings_TrimPrefix normalized "./" in
  let normalized := NFC normalized in
  normalized.

(** [parseFile] *)
Definition parseFile (w : world) (p : path) : result FileIR :=
  match os_ReadFile w p with
  | Err e => Err ("failed to read file: " +:+ e)
  | Ok content =>
      match HashFile w p with
      | Err e => Err ("failed to hash file: " +:+ e)
      | Ok hash =>
          match Parse content with
          | Err e => Err ("failed to parse file: " +:+ e)
          | Ok structure =>
              Ok {| Hash := hash;
                    Imports := sort_slice (fs_Imports structure);
                    Functions := sort_slice (fs_Functions structure);
                    Classes := sort_slice (fs_Classes structure);
                    Exports := sort_slice (fs_Exports structure) |}
          end
      end
  end.

(** What the closure of [Generate] updates: [ir.Files], and standard
    error. *)
Record gen_state : Type := {
  g_files : gmap string FileIR;
  g_log : list warning
}.

Definition g_warn (st : gen_state) (x : warning) : gen_state :=
  {| g_files := g_files st; g_log := g_log st ++ [x] |}.

(** The function [Generate] passes to [filepath.Walk]. *)
Definition generate_visit (g : Generator) (w : world) (absRoot : path)
    (p : path) (v : visit) (st : gen_state) : gen_state * walk_ret :=
  match v with
  | Failed _ _ => (g_warn st (WarnAccess p), RetNil)
  | Visit info =>
      if IsSymlink info then
        if IsDir info then (st, SkipDir) else (st, RetNil)
      else if IsDir info then
        let dirName := filepath_Base p in
        if is_ignored g dirName then (st, SkipDir) else (st, RetNil)
      else
        let ext := filepath_Ext p in
        if negb (SupportsExtension ext) then (st, RetNil)
        else
          match parseFile w p with
          | Err _ => (g_warn st (WarnParse p), RetNil)
          | Ok fileIR =>
              match filepath_Rel absRoot p with
              | Err _ => (g_warn st (WarnRel p), RetNil)
              | Ok relPath =>
                  let normalizedPath := normalizePath relPath in
                  ({| g_files := <[normalizedPath := fileIR]> (g_files st);
                      g_log := g_log st |}, RetNil)
              end
          end
  end.

(** [Generator.Generate]: the result and what went to standard error. *)
Definition Generate (O : MapOrder) (g : Generator) (w : world) (rootPath : string)
  : result IR * list warning :=
  match filepath_Abs w rootPath with
  | Err err => (Err ("failed to resolve absolute path: " +:+ err), [])
  | Ok absRoot =>
      let st := {| g_files := ∅; g_log := [] |} in
      let '(st, err) := Walk (generate_visit g w absRoot) w absRoot st in
      match err with
      | Some err => (Err ("failed to walk directory: " +:+ err), g_log st)
      | None =>
          (Ok {| Version := 1;
                 RootHash := ComputeRootHash O (g_files st);
                 Files := g_files st |}, g_log st)
      end
  end.

(** What the closure of [Update] updates: [updatedIR.Files],
    [seenFiles], and standard error. *)
Record upd_state : Type := {
  u_files : gmap string FileIR;
  u_seen : gmap string bool;
  u_log : list warning
}.

Definition u_warn (st : upd_state) (x : warning) : upd_state :=
  {| u_files := u_files st; u_seen := u_seen st; u_log := u_log st ++ [x] |}.

(** The function [Update] passes to [filepath.Walk]. *)
Definition update_visit (g : Generator) (existingIR : IR) (w : world) (absRoot : path)
    (p : path) (v : visit) (st : upd_state) : upd_state * walk_ret :=
  match v with
  | Failed _ _ => (u_warn st (WarnAccess p), RetNil)
  | Visit info =>
      if IsSymlink info then
        if IsDir info then (st, SkipDir) else (st, RetNil)
      else if IsDir info then
        let dirName := filepath_Base p in
        if is_ignored g dirName then (st, SkipDir) else (st, RetNil)
      else
        let ext := filepath_Ext p in
        if negb (SupportsExtension ext) then (st, RetNil)
        else
          match filepath_Rel absRoot p with
          | Err _ => (u_warn st (WarnRel p), RetNil)
          | Ok relPath =>
              let normalizedPath := normalizePath relPath in
              let st := {| u_files := u_files st;
                           u_seen := <[normalizedPath := true]> (u_seen st);
                           u_log := u_log st |} in
              match HashFile w p with
              | Err _ => (u_warn st (WarnHash p), RetNil)
              | Ok currentHash =>
                  let reuse :=
                    match Files existingIR !! normalizedPath with
                    | Some existingFile =>
                        if decide (Hash existingFile = currentHash) then Some existingFile else None
                    | None => None
                    end in
                  match reuse with
                  | Some existingFile =>
                      ({| u_files := <[normalizedPath := existingFile]> (u_files st);
                          u_seen := u_seen st; u_log := u_log st |}, RetNil)
                  | None =>
                      match parseFile w p with
                      | Err _ => (u_warn st (WarnParse p), RetNil)
                      | Ok fileIR =>
                          ({| u_files := <[normalizedPath := fileIR]> (u_files st);
                              u_seen := u_seen st; u_log := u_log st |}, RetNil)
                      end
                  end
              end
          end
  end.

(** [Generator.Update] *)
Definition Update (O : MapOrder) (g : Generator) (existingIR : IR) (w : world)
    (rootPath : string) : result IR * list warning :=
  match filepath_Abs w rootPath with
  | Err err => (Err ("failed to resolve absolute path: " +:+ err), [])
  | Ok absRoot =>
      let st := {| u_files := ∅; u_seen := ∅; u_log := [] |} in
      let '(st, err) := Walk (update_visit g existingIR w absRoot) w absRoot st in
      match err with
      | Some err => (Err ("failed to walk directory: " +:+ err), u_log st)
      | None =>
          (Ok {| Version := 1;
                 RootHash := ComputeRootHash O (u_files st);
                 Files := u_files st |}, u_log st)
      end
  end.

(** *** What the walk reaches

    The files a walk from [n] at path [p] hands to the parser, with
    their contents, in the order of the walk: the regular files with
    a supported extension that can be read, outside ignored and
    unreadable directories. *)
Fixpoint eligible (g : Generator) (p : path) (n : node) {struct n} : list (path * string) :=
  match n with
  | File (Some content) => if SupportsExtension (filepath_Ext p) then [(p, content)] else []
  | Dir (Some es) =>
      if is_ignored g (filepath_Base p) then []
      else (fix entries (es : list (string * node)) : list (path * string) :=
              match es with
              | [] => []
              | (name, child) :: rest => eligible g (p ++ [name]) child ++ entries rest
              end) es
  | _ => []
  end.

(** The key a file at path [p] gets in a walk from [absRoot]. *)
Definition key_of (absRoot p : path) : string :=
  match filepath_Rel absRoot p with
  | Ok relPath => normalizePath relPath
  | Err _ => ""
  end.

(** The entry [parseFile] builds from the content of a file. *)
Definition entry_of (content : string) : FileIR :=
  match Parse content with
  | Ok structure =>
      {| Hash := HashBytes content;
         Imports := sort_slice (fs_Imports structure);
         Functions := sort_slice (fs_Functions structure);
         Classes := sort_slice (fs_Classes structure);
         Exports := sort_slice (fs_Exports structure) |}
  | Err _ => zeroFileIR
  end.
End Platform.

(** ** Iteration orders

    Two of the orders a [range] loop may take: the order of
    [map_to_list], and its reverse. *)
Definition order_fwd : MapOrder :=
  {| range_keys := λ V m, (map_to_list m).*1;
     range_keys_perm := λ V m, reflexivity _ |}.

Definition order_rev : MapOrder :=
  {| range_keys := λ V m, reverse (map_to_list m).*1;
     range_keys_perm := λ V m, reverse_Permutation _ |}.

(** ** Properties of symbol lists *)

(** A symbol list as the data model wants it: not nil, ascending,
    without duplicates. *)
Definition sorted_set (s : slice string) : Prop :=
  is_nil s = false ∧ Sorted String.le (elems s) ∧ NoDup (elems s).

(** ** Named exports *)

(** A name the pattern [\w+] accepts: letters, digits and underscores,
    at least one. *)
Definition is_identifier (s : string) : bool :=
  negb (bool_decide (s = "")) && forallb cls_w (String.list_ascii_of_string s).

(** The first group of every match. *)
Definition group1 (ms : list (list string)) : list string := (λ m, nth 1 m "") <$> ms.

(** The entries of the named-export lists of a (comment-free) text, in
    the order of the text. *)
Definition export_entries (source : string) : list string :=
  m ← FindAllStringSubmatch exportNamedRegex source; strings_Split (nth 1 m "") ",".

(** The documented example of a nested declaration, and a class
    declared in a function body. *)
Definition nested_function_src : string :=
"function outer() {
    function inner() {}  // Not extracted (shallow parsing only)
}".

Definition nested_class_src : string := "function make() { class Inner {} }".

(** A named-export list in which the rename target of one entry is the
    original name of the next. *)
Definition rename_chain_src : string := "export { b as c, c as d };".

Definition rename_src : string := "export { a, b as c };".

(** ** Well-typed persisted entries *)

(** Values a [string] accepts, and values a [[]string] accepts. *)
Definition string_value (v : json) : bool :=
  match v with JNull | JString _ => true | _ => false end.

Definition strings_value (v : json) : bool :=
  match v with
  | JNull => true
  | JArray items => forallb string_value items
  | _ => false
  end.

(** A member of a File Entry whose value fits the field it selects. *)
Definition member_ok (kv : string * json) : bool :=
  match find_field FileIR_fields kv.1 with
  | None => true
  | Some name => if decide (name = "hash") then string_value kv.2 else strings_value kv.2
  end.

(** A member that selects the field [name]. *)
Definition selects (name : string) (kv : string * json) : Prop :=
  find_field FileIR_fields kv.1 = Some name.

(** A persisted representation with the members the serializer writes. *)
Definition persisted (version : Z) (root_hash : string) (entries : list (string * json)) : json :=
  JObject [("version", JInt version); ("root_hash", JString root_hash); ("files", JObject entries)].

(** A File Entry that has its hash only. *)
Definition hash_only_doc : json := persisted 1 "" [("a.ts", JObject [("hash", JString "h")])].

(** The optional list fields of a File Entry, by name. *)
Definition list_fields : list string := ["imports"; "functions"; "classes"; "exports"].

Definition list_field (name : string) (f : FileIR) : slice string :=
  if decide (name = "imports") then Imports f
  else if decide (name = "functions") then Functions f
  else if decide (name = "classes") then Classes f
  else Exports f.

(** No member of the object selects the field [name]. *)
Definition omits (name : string) (members : list (string * json)) : Prop :=
  Forall (λ kv, find_field FileIR_fields kv.1 ≠ Some name) members.

(** An entry of the [files] object whose value fits a [FileIR]. *)
Definition entry_ok (kv : string * json) : bool :=
  match kv.2 with
  | JNull => true
  | JObject members => forallb member_ok members
  | _ => false
  end.

(** ** The walk as a list of visits *)

(** What [walkFn] is called with at an entry that is not a listed
    directory. *)
Definition visit_of (n : node) : visit :=
  match n with
  | Dir None => Failed (Some (info_of n)) "readdirnames"
  | Gone => Failed None "lstat"
  | _ => Visit (info_of n)
  end.

(** The state after [walkFn] is called at a leaf. *)
Definition visit_leaf {S : Type} (walkFn : path → visit → S → S * walk_ret) (st : S)
    (l : path * node) : S :=
  (walkFn l.1 (visit_of l.2) st).1.

(** The entries a walk from [n] at [p] calls [walkFn] with, after the
    directories it lists, in the order of the calls, when [walkFn]
    answers [SkipDir] at the directories [skip] selects. *)
Fixpoint leaves (skip : path → bool) (p : path) (n : node) {struct n} : list (path * node) :=
  match n with
  | Dir (Some es) =>
      if skip p then []
      else (fix entries (es : list (string * node)) : list (path * node) :=
              match es with
              | [] => []
              | (name, child) :: rest => leaves skip (p ++ [name]) child ++ entries rest
              end) es
  | _ => [(p, n)]
  end.

Definition leaves_entries (skip : path → bool) (p : path)
  : list (string * node) → list (path * node) :=
  fix entries (es : list (string * node)) : list (path * node) :=
    match es with
    | [] => []
    | (name, child) :: rest => leaves skip (p ++ [name]) child ++ entries rest
    end.

(** The names of every listed directory are strictly ascending, as
    [readDirNames] returns them. *)
Fixpoint well_formed (n : node) : bool :=
  match n with
  | Dir (Some es) =>
      bool_decide (StronglySorted str_lt es.*1)
      && (fix all (es : list (string * node)) : bool :=
            match es with
            | [] => true
            | (_, child) :: rest => well_formed child && all rest
            end) es
  | _ => true
  end.

(** The last element of a list that satisfies [P]. *)
Fixpoint last_with {A} (P : A → bool) (l : list A) : option A :=
  match l with
  | [] => None
  | x :: rest =>
      match last_with P rest with
      | Some y => Some y
      | None => if P x then Some x else None
      end
  end.

(** ** What a generation does, read off the walk *)

Section WalkSpec.
Variable Separator : ascii.
Variable NFC : string → string.
Variable g : Generator.
Variable w : world.
Variable absRoot : path.

(** The directories the walk does not enter. *)
Definition skip_dir (p : path) : bool := is_ignored g (filepath_Base Separator p).

(** A leaf that is handed to the parser. *)
Definition eligible_leaf (l : path * node) : option (path * string) :=
  match l.2 with
  | File (Some content) => if SupportsExtension (filepath_Ext l.1) then Some (l.1, content) else None
  | _ => None
  end.

(** The line a leaf sends to standard error; [unreadable] is the line
    for a supported file that cannot be read. *)
Definition leaf_warning (unreadable : path → warning) (l : path * node) : option warning :=
  match l.2 with
  | File None => if SupportsExtension (filepath_Ext l.1) then Some (unreadable l.1) else None
  | Dir _ | Gone => Some (WarnAccess l.1)
  | _ => None
  end.

(** What [Generate] does with the file at [pc.1] whose content is [pc.2]. *)
Definition gen_insert (files : gmap string FileIR) (pc : path * string) : gmap string FileIR :=
  <[key_of Separator NFC absRoot pc.1 := entry_of pc.2]> files.

(** What the function of [Generate] does at a leaf. *)
Definition gen_leaf (st : gen_state) (l : path * node) : gen_state :=
  {| g_files := match eligible_leaf l with
                | Some pc => gen_insert (g_files st) pc
                | None => g_files st
                end;
     g_log := g_log st ++ option_list (leaf_warning WarnParse l) |}.

(** The entry [Update] records for a file with this key and content. *)
Definition updated_entry (existingIR : IR) (k : string) (content : string) : FileIR :=
  match Files existingIR !! k with
  | Some existingFile =>
      if decide (Hash existingFile = HashBytes content) then existingFile else entry_of content
  | None => entry_of content
  end.

Definition upd_insert (existingIR : IR) (files : gmap string FileIR) (pc : path * string)
  : gmap string FileIR :=
  let k := key_of Separator NFC absRoot pc.1 in
  <[k := updated_entry existingIR k pc.2]> files.

(** What the function of [Update] does at a leaf. *)
Definition upd_leaf (existingIR : IR) (st : upd_state) (l : path * node) : upd_state :=
  {| u_files := match eligible_leaf l with
                | Some pc => upd_insert existingIR (u_files st) pc
                | None => u_files st
                end;
     u_seen := match l.2 with
               | File _ =>
                   if SupportsExtension (filepath_Ext l.1)
                   then <[key_of Separator NFC absRoot l.1 := true]> (u_seen st)
                   else u_seen st
               | _ => u_seen st
               end;
     u_log := u_log st ++ option_list (leaf_warning WarnHash l) |}.

(** The content of the last file of the list that gets the key [k]. *)
Definition last_file (k : string) (l : list (path * string)) : option string :=
  snd <$> last_with (λ pc, bool_decide (key_of Separator NFC absRoot pc.1 = k)) l.
End WalkSpec.

(** ** Sample worlds *)

(** An empty root directory; the working directory is the root. *)
Definition empty_world : world := {| fs := Dir (Some []); cwd := Some [] |}.

(** The name [café.ts] with a decomposed and with a composed [é]. *)
Definition cafe_nfd : string := "cafe" +:+ String "204" (String "129" ".ts").
Definition cafe_nfc : string := "caf" +:+ String "195" (String "169" ".ts").

(** A normalizer that composes this one name, for the examples. *)
Definition nfc_cafe (s : string) : string := if decide (s = cafe_nfd) then cafe_nfc else s.

(** A directory [/proj] that holds the two spellings of [café.ts]. *)
Definition cafe_world : world :=
  {| fs := Dir (Some [("proj", Dir (Some [(cafe_nfd, File (Some "function one() {}"));
                                          (cafe_nfc, File (Some "function two() {}"))]))]);
     cwd := Some [] |}.

Definition default_generator : Generator := NewGenerator {| IgnoredPaths := [] |}.

(** A directory [/proj] with two files, and an earlier representation of
    it in which [changed.js] had another content and [gone.js] still
    existed.  The entry of [unchanged.js] carries a marker in its
    exports that no parse would produce. *)
Definition update_world : world :=
  {| fs := Dir (Some [("proj", Dir (Some [("changed.js", File (Some "function new() {}"));
                                          ("unchanged.js", File (Some "function unchanged() {}"))]))]);
     cwd := Some ["proj"] |}.

Definition prior_unchanged : FileIR :=
  {| Hash := HashBytes "function unchanged() {}"; Imports := Slice [];
     Functions := Slice ["unchanged"]; Classes := Slice []; Exports := Slice ["kept verbatim"] |}.

Definition prior_IR : IR :=
  {| Version := 1; RootHash := "";
     Files := <["unchanged.js" := prior_unchanged]>
                (<["changed.js" := entry_of "function old() {}"]>
                   (<["gone.js" := entry_of "function gone() {}"]> ∅)) |}.

(** ** What the specification says of path normalization *)

(** Step 2: a single leading [./] is dropped. *)
Definition strip_dot_slash (s : string) : string :=
  match s with
  | String "."%char (String "/"%char rest) => rest
  | _ => s
  end.

(** [normalize]: separators to forward slashes, one leading [./]
    stripped, then NFC over the whole string. *)
Definition normalize_spec (Separator : ascii) (NFC : string → string) (relPath : string) : string :=
  NFC (strip_dot_slash (replace_separator Separator relPath)).

(** ** More of generator.go, read off the source *)

(** The names [NewGenerator] ignores when the configuration names none. *)
Definition default_ignored : list string :=
  ["node_modules"; "dist"; ".git"; ".cursor"; ".vscode"].

(** A root path that [filepath.Abs] has to join to the working
    directory: the empty path, or one that does not start with the
    separator. *)
Definition is_relative (Separator : ascii) (rootPath : string) : bool :=
  match rootPath with
  | "" => true
  | String c _ => negb (bool_decide (c = Separator))
  end.

(** A directory named [node_modules] that is itself the root of a walk. *)
Definition ignored_root_world : world :=
  {| fs := Dir (Some [("node_modules", Dir (Some [("x.js", File (Some "function x() {}"))]))]);
     cwd := Some [] |}.

(** A world with one source file, [/proj/a.js]. *)
Definition one_file_world : world :=
  {| fs := Dir (Some [("proj", Dir (Some [("a.js", File (Some "class A {}"))]))]);
     cwd := Some [] |}.

(** ** Well-typed persisted documents *)

(** Values an [int] accepts. *)
Definition int_value (v : json) : bool :=
  match v with
  | JNull => true
  | JInt z => ((int_min <=? z) && (z <=? int_max))%Z
  | _ => false
  end.

(** Values a [map[string]FileIR] accepts. *)
Definition files_value (v : json) : bool :=
  match v with
  | JNull => true
  | JObject entries => forallb entry_ok entries
  | _ => false
  end.

(** A top-level member whose value fits the field it selects. *)
Definition ir_member_ok (kv : string * json) : bool :=
  match find_field IR_fields kv.1 with
  | None => true
  | Some name =>
      if decide (name = "version") then int_value kv.2
      else if decide (name = "root_hash") then string_value kv.2
      else files_value kv.2
  end.

(** A file content that [Load] accepts: JSON text that is [null], or an
    object whose members fit the fields they select. *)
Definition document_ok (data : option json) : bool :=
  match data with
  | Some JNull => true
  | Some (JObject members) => forallb ir_member_ok members
  | _ => false
  end.

(** ** Formats *)

(** A lowercase hexadecimal digit. *)
Definition is_lower_hex (c : ascii) : bool :=
  let n := byte_of c in ((48 <=? n) && (n <=? 57) || (97 <=? n) && (n <=? 102))%N.

(** ** Capture groups *)

(** Every group of [r] is [(x+)] for the class [p]. *)
Fixpoint captures (p : ascii → bool) (r : regex) : Prop :=
  match r with
  | Cap r1 => r1 = Plus p
  | Cat r1 r2 | Alt r1 r2 => captures p r1 ∧ captures p r2
  | Opt r1 => captures p r1
  | _ => True
  end.

(** Every match of [r] passes through a group. *)
Fixpoint must_capture (r : regex) : bool :=
  match r with
  | Cap _ => true
  | Cat r1 r2 => must_capture r1 || must_capture r2
  | Alt r1 r2 => must_capture r1 && must_capture r2
  | _ => false
  end.

(** One character of the class [p] or more. *)
Definition in_class (p : ascii → bool) (s : string) : bool :=
  negb (bool_decide (s = "")) && forallb p (String.list_ascii_of_string s).

(** ** Warnings of the two walks *)

(** The line [Update] writes where [Generate] writes the line [wn]. *)
Definition as_update_warning (wn : warning) : warning :=
  match wn with
  | WarnParse p => WarnHash p
  | _ => wn
  end.

(** A world in which [/proj] holds a source file, a file that cannot be
    read, a directory that cannot be listed and an ignored directory. *)
Definition mixed_world : world :=
  {| fs := Dir (Some [("proj", Dir (Some [("a.js", File (Some "class A {}"));
                                          ("b.ts", File None);
                                          ("dist", Dir (Some [("c.js", File (Some "class C {}"))]));
                                          ("locked", Dir None)]))]);
     cwd := Some [] |}.

(** An earlier representation whose only entry is out of date. *)
Definition stale_IR : IR :=
  {| Version := 1; RootHash := "";
     Files := {[ "a.js" := entry_of "class Old {}" ]} |}.

(** ** Helpers of the tests: storage_test.go, generator_test.go *)

(** [equalStringSlices] *)
Definition equalStringSlices (a b : slice string) : bool :=
  if negb (Nat.eqb (length (elems a)) (length (elems b))) then false
  else forallb (λ i, bool_decide (nth i (elems a) "" = nth i (elems b) ""))
               (seq 0 (length (elems a))).

(** [equalFileIR] *)
Definition equalFileIR (a b : FileIR) : bool :=
  bool_decide (Hash a = Hash b)
  && equalStringSlices (Imports a) (Imports b)
  && equalStringSlices (Functions a) (Functions b)
  && equalStringSlices (Classes a) (Classes b)
  && equalStringSlices (Exports a) (Exports b).

(** [equalIR] *)
Definition equalIR (O : MapOrder) (a b : IR) : bool :=
  if negb (Version a =? Version b)%Z then false
  else if negb (bool_decide (RootHash a = RootHash b)) then false
  else if negb (Nat.eqb (size (Files a)) (size (Files b))) then false
  else forallb (λ path,
                  match Files b !! path with
                  | None => false
                  | Some fileB => equalFileIR (map_index (Files a) path) fileB
                  end)
               (range_keys O (Files a)).

(** The loop of [indexOf] from [i] on; [fuel] bounds the iterations. *)
Fixpoint indexOf_loop (fuel i : nat) (s substr : string) : Z :=
  match fuel with
  | O => -1
  | S k =>
      if (Z.of_nat i <=? Z.of_nat (String.length s) - Z.of_nat (String.length substr))%Z
      then if decide (String.substring i (String.length substr) s = substr) then Z.of_nat i
           else indexOf_loop k (S i) s substr
      else -1
  end.

(** [indexOf]: the loop runs [len(s) + 1] times at most. *)
Definition indexOf (s substr : string) : Z := indexOf_loop (S (String.length s)) 0 s substr.

(** Two entries with the same hash and the same strings in each list;
    a nil list and an empty one are not told apart. *)
Definition same_entry (a b : FileIR) : Prop :=
  Hash a = Hash b
  ∧ elems (Imports a) = elems (Imports b)
  ∧ elems (Functions a) = elems (Functions b)
  ∧ elems (Classes a) = elems (Classes b)
  ∧ elems (Exports a) = elems (Exports b).

(** * Theorems *)

(** ** crypto/sha256: test vectors *)

Example HashBytes_empty :
  HashBytes "" = "e3b0c44298fc1c149afbf4c8996fb92427ae41e4649b934ca495991b7852b855".
Proof. vm_compute. reflexivity. Qed.

Example HashBytes_abc :
  HashBytes "abc" = "ba7816bf8f01cfea414140de5dae2223b00361a396177a9cb410ff61f20015ad".
Proof. vm_compute. reflexivity. Qed.

Example HashBytes_two_blocks :
  HashBytes "abcdbcdecdefdefgefghfghighijhijkijkljklmklmnlmnomnopnopq"
  = "248d6a61d20638b8e5c026930c3e6039a33ce45964ff2167f6ecedd419db06c1".
Proof. vm_compute. reflexivity. Qed.

(** ** HashBytes: the format of a digest *)

Lemma round_length (st : list N) (kw : N * N) : length st = 8 → length (sha256.round st kw) = 8.
Proof.
  intros H. destruct st as [|a [|b [|c [|d [|e [|f [|g [|h [|]]]]]]]]]; by simplify_eq/=.
Qed.

Lemma compress_length (h block : list N) : length h = 8 → length (sha256.compress h block) = 8.
Proof.
  intros H. unfold sha256.compress. rewrite length_zip_with.
  assert (length (foldl sha256.round h
                    (zip sha256.K (rev (sha256.schedule 48 (rev block))))) = 8) as ->; [|lia].
  generalize (zip sha256.K (rev (sha256.schedule 48 (rev block)))). intros l.
  revert h H. induction l as [|kw l IH]; intros h H; cbn [foldl]; [done|].
  by apply IH, round_length.
Qed.

Lemma be_bytes_length (n : nat) (x : N) : length (sha256.be_bytes n x) = n.
Proof.
  revert x. induction n as [|n IH]; intros x; cbn [sha256.be_bytes]; [done|].
  rewrite length_app, IH. cbn. lia.
Qed.

Lemma be_bytes_bound (n : nat) (x : N) : Forall (λ b, (b < 256)%N) (sha256.be_bytes n x).
Proof.
  revert x. induction n as [|n IH]; intros x; cbn [sha256.be_bytes]; [constructor|].
  apply Forall_app. split; [apply IH|]. constructor; [|constructor].
  change 0xFF%N with (N.ones 8). rewrite N.land_ones. by apply N.mod_lt.
Qed.

Lemma bind_be_bytes (l : list N) :
  length (l ≫= sha256.be_bytes 4) = 4 * length l
  ∧ Forall (λ b, (b < 256)%N) (l ≫= sha256.be_bytes 4).
Proof.
  induction l as [|x l [IH1 IH2]]; [by split; [|constructor]|].
  rewrite bind_cons, length_app, be_bytes_length, IH1, Forall_app.
  split; [cbn [length]; lia|]. split; [apply be_bytes_bound|done].
Qed.

Lemma Sum256_bytes (data : string) :
  length (sha256.Sum256 data) = 32 ∧ Forall (λ b, (b < 256)%N) (sha256.Sum256 data).
Proof.
  unfold sha256.Sum256. cbv zeta.
  generalize (sha256.blocks
                (length (sha256.words (sha256.pad (N_of_ascii <$> String.list_ascii_of_string data))))
                (sha256.words (sha256.pad (N_of_ascii <$> String.list_ascii_of_string data)))).
  intros bs.
  assert (H : length (foldl sha256.compress sha256.H0 bs) = 8).
  { assert (H0 : length sha256.H0 = 8) by reflexivity. revert H0.
    generalize sha256.H0. induction bs as [|b bs IH]; intros h Hh; cbn [foldl]; [done|].
    by apply IH, compress_length. }
  destruct (bind_be_bytes (foldl sha256.compress sha256.H0 bs)) as [H1 H2].
  rewrite H1, H. by split.
Qed.

Lemma hex_digit_lower (n : N) : (n < 16)%N → is_lower_hex (hex_digit n) = true.
Proof.
  intros H.
  assert (Hn : n ∈ N.of_nat <$> seq 0 16).
  { apply list_elem_of_fmap. exists (N.to_nat n). split; [lia|]. apply elem_of_seq. lia. }
  cbn in Hn. rewrite !elem_of_cons in Hn.
  repeat (destruct Hn as [->|Hn]; [reflexivity|]). by apply elem_of_nil in Hn.
Qed.

Lemma sprintf_x_format (bs : list N) :
  Forall (λ b, (b < 256)%N) bs →
  String.length (sprintf_x bs) = 2 * length bs
  ∧ forallb is_lower_hex (String.list_ascii_of_string (sprintf_x bs)) = true.
Proof.
  induction 1 as [|b bs Hb _ [IH1 IH2]]; [done|].
  cbn [sprintf_x String.length length String.list_ascii_of_string forallb].
  rewrite IH1, IH2, !hex_digit_lower; [split; [lia|done]| |].
  - by apply N.mod_lt.
  - apply N.Div0.div_lt_upper_bound. lia.
Qed.

(** X13.  For every input, [HashBytes] returns 64 characters, each a
    lowercase hexadecimal digit. *)
Theorem HashBytes_format (data : string) :
  String.length (HashBytes data) = 64
  ∧ forallb is_lower_hex (String.list_ascii_of_string (HashBytes data)) = true.
Proof.
  unfold HashBytes. destruct (Sum256_bytes data) as [Hlen Hb].
  destruct (sprintf_x_format _ Hb) as [H1 H2]. rewrite H1, Hlen. by split.
Qed.

#[local] Opaque HashBytes.

(** ** Strings *)

Lemma str_app_cons (x : ascii) (a b : string) : String x a +:+ b = String x (a +:+ b).
Proof. reflexivity. Qed.

Lemma str_app_nil_l (s : string) : "" +:+ s = s.
Proof. reflexivity. Qed.

Lemma str_app_nil_r (s : string) : s +:+ "" = s.
Proof. induction s as [|c s IH]; [done|]. by rewrite str_app_cons, IH. Qed.

Lemma str_app_assoc (a b c : string) : (a +:+ b) +:+ c = a +:+ (b +:+ c).
Proof. induction a as [|x a IH]; [done|]. by rewrite !str_app_cons, IH. Qed.

Lemma str_app_length (a b : string) :
  String.length (a +:+ b) = String.length a + String.length b.
Proof. induction a as [|x a IH]; [done|]. rewrite str_app_cons. cbn. by rewrite IH. Qed.

(** ** sort.Strings *)

Lemma sort_Strings_Sorted (l : list string) : Sorted String.le (sort_Strings l).
Proof. apply (Sorted_merge_sort String.le). Qed.

Lemma sort_Strings_perm (l : list string) : sort_Strings l ≡ₚ l.
Proof. apply (merge_sort_Permutation String.le). Qed.

(** The order of the input does not matter. *)
Lemma sort_Strings_unique (l1 l2 : list string) :
  l1 ≡ₚ l2 → sort_Strings l1 = sort_Strings l2.
Proof.
  intros Hp. apply (Sorted_unique String.le); try apply sort_Strings_Sorted.
  by rewrite !sort_Strings_perm.
Qed.

Lemma sort_Strings_elem_of (l : list string) (x : string) : x ∈ sort_Strings l ↔ x ∈ l.
Proof. by rewrite sort_Strings_perm. Qed.

Lemma StronglySorted_strict (l : list string) :
  StronglySorted String.le l → NoDup l → StronglySorted str_lt l.
Proof.
  induction 1 as [|x l Hl IH Hx]; intros Hnd; [constructor|].
  apply NoDup_cons in Hnd as [Hnotin Hnd].
  constructor; [by apply IH|].
  rewrite Forall_forall in Hx |- *. intros y Hy. split; [by apply Hx|].
  intros Hyx. assert (x = y) as -> by (apply (anti_symm String.le); auto).
  done.
Qed.

(** Sorting a duplicate-free list gives a strictly ascending one. *)
Lemma sort_Strings_strict (l : list string) : NoDup l → StronglySorted str_lt (sort_Strings l).
Proof.
  intros Hnd. apply StronglySorted_strict.
  - apply Sorted_StronglySorted; [apply _|apply sort_Strings_Sorted].
  - by rewrite sort_Strings_perm.
Qed.

Lemma keys_NoDup {V} (m : gmap string V) : NoDup (map_to_list m).*1.
Proof. apply NoDup_fst_map_to_list. Qed.

Lemma keys_elem_of {V} (m : gmap string V) (k : string) :
  k ∈ (map_to_list m).*1 ↔ is_Some (m !! k).
Proof.
  rewrite list_elem_of_fmap. split.
  - intros [[k' v] [-> Hin]]. apply elem_of_map_to_list in Hin. eauto.
  - intros [v Hv]. exists (k, v). split; [done|]. by apply elem_of_map_to_list.
Qed.

(** The sorted keys of a map, whatever order the loop met them in. *)
Lemma sorted_range_keys (O : MapOrder) {V} (m : gmap string V) :
  sort_Strings (range_keys O m) = sort_Strings (map_to_list m).*1.
Proof. apply sort_Strings_unique, range_keys_perm. Qed.

Lemma keys_fmap {V W} (f : V → W) (m : gmap string V) :
  (map_to_list (f <$> m)).*1 ≡ₚ (map_to_list m).*1.
Proof.
  apply NoDup_Permutation; try apply keys_NoDup.
  intros k. rewrite !keys_elem_of, lookup_fmap. by rewrite fmap_is_Some.
Qed.

(** ** ComputeRootHash *)

Lemma root_builder_more (files : gmap string FileIR) (paths : list string) (i : nat) (b : string) :
  root_builder files (S i) paths b
  = match paths with
    | [] => b
    | _ => b +:+ LF +:+ String.concat LF (root_line files <$> paths)
    end.
Proof.
  revert i b. induction paths as [|p paths IH]; intros i b; [done|].
  cbn [root_builder Nat.ltb Nat.leb]. rewrite IH.
  destruct paths as [|q paths]; cbn [fmap list_fmap String.concat]; unfold root_line, LF;
    by rewrite !str_app_assoc.
Qed.

Lemma root_builder_text (files : gmap string FileIR) (paths : list string) :
  root_builder files 0 paths ""
  = fingerprint_text ((λ p, (p, Hash (map_index files p))) <$> paths).
Proof.
  unfold fingerprint_text. rewrite <- list_fmap_compose.
  change (_ ∘ _) with (root_line files).
  destruct paths as [|p paths]; [done|].
  cbn [root_builder Nat.ltb Nat.leb]. rewrite root_builder_more.
  destruct paths as [|q paths]; cbn [fmap list_fmap String.concat]; unfold root_line, LF;
    by rewrite ?str_app_assoc.
Qed.

Lemma map_index_fmap_Hash (files : gmap string FileIR) (p : string) :
  default "" ((Hash <$> files) !! p) = Hash (map_index files p).
Proof. unfold map_index. rewrite lookup_fmap. by destruct (files !! p). Qed.

(** C2.  [ComputeRootHash] is the fingerprint of the specification: it
    hashes the lines [path:hash] of the entries taken in strictly
    ascending order of the paths (each path of the map exactly once),
    joined by newlines with none at the end.  The value is that of
    [computeRootFingerprint] on the map from paths to content hashes, so
    it depends on nothing else: neither on the symbol lists nor on the
    order in which the map is iterated.  For the empty map it is the
    hash of no bytes. *)
Theorem ComputeRootHash_spec (O : MapOrder) (files : gmap string FileIR) :
  let paths := sort_Strings (map_to_list files).*1 in
  ComputeRootHash O files = computeRootFingerprint (Hash <$> files)
  ∧ ComputeRootHash O files
    = HashBytes (strings_Join ((λ p, p +:+ ":" +:+ Hash (map_index files p)) <$> paths)
                              (String "010" ""))
  ∧ StronglySorted str_lt paths
  ∧ (∀ p, p ∈ paths ↔ is_Some (files !! p))
  ∧ ComputeRootHash O ∅ = HashBytes ""
  ∧ computeRootFingerprint ∅ = HashBytes "".
Proof.
  intros paths.
  assert (Htext : ComputeRootHash O files
            = HashBytes (fingerprint_text ((λ p, (p, Hash (map_index files p))) <$> paths))).
  { unfold ComputeRootHash. destruct (Nat.eqb_spec (size files) 0) as [Hz|Hnz].
    - apply map_size_empty_iff in Hz. subst files paths.
      by rewrite map_to_list_empty.
    - cbv zeta. by rewrite sorted_range_keys, root_builder_text. }
  split_and!.
  - rewrite Htext. unfold computeRootFingerprint. cbv zeta.
    rewrite (sort_Strings_unique _ _ (keys_fmap Hash files)). fold paths.
    do 2 f_equal. apply list_fmap_ext. intros _ p _. by rewrite map_index_fmap_Hash.
  - rewrite Htext. unfold fingerprint_text, strings_Join. by rewrite <- list_fmap_compose.
  - apply sort_Strings_strict, keys_NoDup.
  - intros p. unfold paths. by rewrite sort_Strings_elem_of, keys_elem_of.
  - unfold ComputeRootHash. rewrite map_size_empty. reflexivity.
  - unfold computeRootFingerprint. rewrite map_to_list_empty. reflexivity.
Qed.

(** ** Slices, sort and deduplicate *)

Lemma str_lt_trans (x y z : string) : str_lt x y → str_lt y z → str_lt x z.
Proof.
  intros [Hxy Hnyx] [Hyz Hnzy]. split; [by etrans|].
  intros Hzx. apply Hnyx. by etrans.
Qed.

Lemma StronglySorted_lt_le (l : list string) :
  StronglySorted str_lt l → Sorted String.le l ∧ NoDup l.
Proof.
  induction 1 as [|x l Hl [IH1 IH2] Hx]; [split; constructor|].
  split.
  - constructor; [done|]. destruct l as [|y l]; constructor.
    by apply Forall_cons in Hx as [[? _] _].
  - constructor; [|done]. intros Hin. rewrite Forall_forall in Hx.
    destruct (Hx x Hin) as [Hle Hn]. by apply Hn.
Qed.

Lemma dedup_from_elem_of (prev : string) (rest : list string) (x : string) :
  x ∈ dedup_from prev rest → x ∈ rest.
Proof.
  revert prev. induction rest as [|y rest IH]; intros prev; cbn [dedup_from]; [done|].
  destruct (decide (y = prev)); rewrite ?elem_of_cons;
    [intros ?; right; eauto|intros [->|?]; [by left|right; eauto]].
Qed.

Lemma dedup_from_elem_of_2 (prev : string) (rest : list string) (x : string) :
  x ∈ rest → x = prev ∨ x ∈ dedup_from prev rest.
Proof.
  revert prev. induction rest as [|y rest IH]; intros prev; cbn [dedup_from]; [by intros ?%elem_of_nil|].
  intros [->|Hin]%elem_of_cons.
  - case_decide; [by left|right; apply elem_of_cons; by left].
  - destruct (IH y Hin) as [->|Hd]; case_decide; subst; rewrite ?elem_of_cons; auto.
Qed.

Lemma dedup_from_sorted (x : string) (rest : list string) :
  StronglySorted String.le (x :: rest) → StronglySorted str_lt (x :: dedup_from x rest).
Proof.
  revert x. induction rest as [|y rest IH]; intros x Hs; cbn [dedup_from].
  - repeat constructor.
  - apply StronglySorted_inv in Hs as [Hs Hx].
    case_decide as Hyx.
    + subst y. by apply IH.
    + specialize (IH y Hs). apply Forall_cons in Hx as [Hxy Hx].
      assert (Hlt : str_lt x y).
      { split; [done|]. intros Hyx'. apply Hyx. by apply (anti_symm String.le). }
      constructor; [done|]. constructor; [done|].
      apply StronglySorted_inv in IH as [_ IH].
      eapply Forall_impl; [exact IH|]. intros z Hz. by eapply str_lt_trans.
Qed.

Lemma deduplicate_is_nil (s : slice string) : is_nil (deduplicate s) = is_nil s.
Proof. unfold deduplicate. destruct s as [|[|x l]]; done. Qed.

Lemma sort_slice_is_nil (s : slice string) : is_nil (sort_slice s) = is_nil s.
Proof. by destruct s. Qed.

Lemma elems_sort_slice (s : slice string) : elems (sort_slice s) = sort_Strings (elems s).
Proof. by destruct s. Qed.

Lemma deduplicate_elem_of (s : slice string) (x : string) :
  x ∈ elems (deduplicate s) ↔ x ∈ elems s.
Proof.
  unfold deduplicate. destruct (elems s) as [|y l] eqn:E; [by rewrite E|].
  cbn [elems]. rewrite !elem_of_cons. split.
  - intros [->|Hin]; [by left|right; by eapply dedup_from_elem_of].
  - intros [->|Hin]; [by left|]. destruct (dedup_from_elem_of_2 y l x Hin); auto.
Qed.

(** Sorting and deduplicating makes any slice ascending and
    duplicate-free, and leaves a non-nil slice non-nil. *)
Lemma dedup_sort_sorted_set (s : slice string) :
  is_nil s = false → sorted_set (deduplicate (sort_slice s)).
Proof.
  intros Hnil. unfold sorted_set.
  rewrite deduplicate_is_nil, sort_slice_is_nil. split; [done|].
  unfold deduplicate. rewrite elems_sort_slice.
  pose proof (Sorted_StronglySorted _ _ (sort_Strings_Sorted (elems s))) as Hs.
  destruct (sort_Strings (elems s)) as [|x l] eqn:E.
  - rewrite elems_sort_slice, E. split; constructor.
  - cbn [elems]. by apply StronglySorted_lt_le, dedup_from_sorted.
Qed.

Lemma dedup_sort_elem_of (s : slice string) (x : string) :
  x ∈ elems (deduplicate (sort_slice s)) ↔ x ∈ elems s.
Proof. by rewrite deduplicate_elem_of, elems_sort_slice, sort_Strings_elem_of. Qed.

Lemma append_submatches_not_nil (acc : slice string) (ms : list (list string)) :
  is_nil acc = false → is_nil (append_submatches acc ms) = false.
Proof.
  unfold append_submatches. revert acc.
  induction ms as [|m ms IH]; intros acc Hacc; cbn [foldl]; [done|].
  apply IH. by destruct (Nat.ltb 1 (length m)).
Qed.

Lemma append_export_list_not_nil (acc : slice string) (m : list string) :
  is_nil acc = false → is_nil (append_export_list acc m) = false.
Proof.
  unfold append_export_list. destruct (Nat.ltb 1 (length m)); [|done].
  generalize (strings_Split (nth 1 m "") ","). intros l. revert acc.
  induction l as [|n l IH]; intros acc Hacc; cbn [foldl]; [done|].
  apply IH. by destruct (export_entry n).
Qed.

Lemma extractImports_not_nil (src : string) : is_nil (extractImports src) = false.
Proof. unfold extractImports. by do 2 apply append_submatches_not_nil. Qed.

Lemma extractFunctions_not_nil (src : string) : is_nil (extractFunctions src) = false.
Proof. unfold extractFunctions. by do 3 apply append_submatches_not_nil. Qed.

Lemma extractClasses_not_nil (src : string) : is_nil (extractClasses src) = false.
Proof. unfold extractClasses. by apply append_submatches_not_nil. Qed.

Lemma extractExports_not_nil (src : string) : is_nil (extractExports src) = false.
Proof.
  unfold extractExports. do 2 apply append_submatches_not_nil.
  generalize (FindAllStringSubmatch exportNamedRegex src). intros ms.
  assert (H : is_nil (Slice (A:=string) []) = false) by done. revert H.
  generalize (Slice (A:=string) []). induction ms as [|m ms IH]; intros acc Hacc; cbn [foldl]; [done|].
  by apply IH, append_export_list_not_nil.
Qed.

(** C6.  [Parse] returns a structure, with a nil error, for every
    source text; each of its four lists is a slice that is not nil
    (an empty one when nothing is found), ascending in byte order and
    free of duplicates. *)
Theorem Parse_total_sorted (source : string) :
  ∃ fs, Parse source = Ok fs
        ∧ sorted_set (fs_Imports fs) ∧ sorted_set (fs_Functions fs)
        ∧ sorted_set (fs_Classes fs) ∧ sorted_set (fs_Exports fs)
        ∧ StronglySorted str_lt (elems (fs_Imports fs))
        ∧ StronglySorted str_lt (elems (fs_Functions fs))
        ∧ StronglySorted str_lt (elems (fs_Classes fs))
        ∧ StronglySorted str_lt (elems (fs_Exports fs)).
Proof.
  eexists. split; [reflexivity|]. cbn [fs_Imports fs_Functions fs_Classes fs_Exports].
  pose proof (dedup_sort_sorted_set _ (extractImports_not_nil (removeComments source))) as Hi.
  pose proof (dedup_sort_sorted_set _ (extractFunctions_not_nil (removeComments source))) as Hf.
  pose proof (dedup_sort_sorted_set _ (extractClasses_not_nil (removeComments source))) as Hc.
  pose proof (dedup_sort_sorted_set _ (extractExports_not_nil (removeComments source))) as He.
  split_and!; try done.
  all: apply StronglySorted_strict;
    [apply Sorted_StronglySorted; [apply _|]|]; by (apply Hi || apply Hf || apply Hc || apply He).
Qed.

(** ** The parser *)

(** C3 (the code does not do what the claim says).  On the example the
    repository documents as "not extracted", [Parse] returns the nested
    function [inner] next to [outer]; a class declared inside a function
    body is returned as well.  The patterns accept a declaration after
    any white space, whatever the nesting. *)
Theorem Parse_nested_declarations_extracted :
  Parse nested_function_src
  = Ok {| fs_Imports := Slice []; fs_Functions := Slice ["inner"; "outer"];
          fs_Classes := Slice []; fs_Exports := Slice [] |}
  ∧ Parse nested_class_src
    = Ok {| fs_Imports := Slice []; fs_Functions := Slice ["make"];
            fs_Classes := Slice ["Inner"]; fs_Exports := Slice [] |}.
Proof. split; vm_compute; reflexivity. Qed.

Lemma exec_length (r : regex) (bot : bool) (s : string) (n : nat) (m : list string) :
  exec r bot s = Some (n, m) → length m = 2.
Proof.
  unfold exec. destruct (run r bot s) as [|[rest cap] ?]; [done|].
  intros [= _ <-]. done.
Qed.

Lemma scan_match_length (r : regex) (s : string) (bot : bool) (skip : nat) (adj : bool)
    (m : list string) :
  inl m ∈ scan r bot skip adj s → length m = 2.
Proof.
  revert bot skip adj. induction s as [|c s IH]; intros bot skip adj; cbn [scan].
  - destruct skip; [|by intros ?%elem_of_nil].
    destruct (exec r bot "") as [[[|k] m']|] eqn:E.
    + destruct adj; rewrite app_nil_r; [by intros ?%elem_of_nil|].
      intros [= ->]%list_elem_of_singleton. by eapply exec_length.
    + intros [= ->]%list_elem_of_singleton. by eapply exec_length.
    + by intros ?%elem_of_nil.
  - destruct skip; [|by apply IH].
    destruct (exec r bot (String c s)) as [[[|k] m']|] eqn:E.
    + rewrite elem_of_app, elem_of_cons. intros [Hm|[?|Hm]]; [|done|by eapply IH].
      destruct adj; [by apply elem_of_nil in Hm|].
      apply list_elem_of_singleton in Hm as [= ->]. by eapply exec_length.
    + rewrite elem_of_cons. intros [[= ->]|Hm]; [by eapply exec_length|by eapply IH].
    + rewrite elem_of_cons. intros [?|Hm]; [done|by eapply IH].
Qed.

(** Every match of [FindAllStringSubmatch] has the whole match and the
    group. *)
Lemma FindAll_length (r : regex) (s : string) (m : list string) :
  m ∈ FindAllStringSubmatch r s → length m = 2.
Proof.
  unfold FindAllStringSubmatch. rewrite list_elem_of_omap.
  intros [[m'|c] [Hin [= ->]]]. by eapply scan_match_length.
Qed.

Lemma elems_append_submatches (acc : slice string) (ms : list (list string)) :
  Forall (λ m, length m = 2) ms →
  elems (append_submatches acc ms) = elems acc ++ group1 ms.
Proof.
  unfold append_submatches, group1. intros Hms. revert acc.
  induction Hms as [|m ms Hm Hms IH]; intros acc; cbn [foldl fmap list_fmap].
  - by rewrite app_nil_r.
  - rewrite IH, Hm. cbn [Nat.ltb Nat.leb append elems]. by rewrite <- app_assoc.
Qed.

Lemma FindAll_Forall_length (r : regex) (s : string) :
  Forall (λ m, length m = 2) (FindAllStringSubmatch r s).
Proof. apply Forall_forall. intros m. apply FindAll_length. Qed.

Lemma elems_export_entries (acc : slice string) (l : list string) :
  elems (foldl (λ exports name,
                  match export_entry name with
                  | Some n => append exports n
                  | None => exports
                  end) acc l)
  = elems acc ++ omap export_entry l.
Proof.
  revert acc. induction l as [|n l IH]; intros acc; cbn [foldl omap list_omap].
  - by rewrite app_nil_r.
  - rewrite IH. destruct (export_entry n); [|done].
    cbn [append elems]. by rewrite <- app_assoc.
Qed.

Lemma elems_append_export_lists (acc : slice string) (ms : list (list string)) :
  Forall (λ m, length m = 2) ms →
  elems (foldl append_export_list acc ms)
  = elems acc ++ omap export_entry (m ← ms; strings_Split (nth 1 m "") ",").
Proof.
  intros Hms. revert acc.
  induction Hms as [|m ms Hm Hms IH]; intros acc; cbn [foldl mbind list_bind].
  - by rewrite app_nil_r.
  - rewrite IH. unfold append_export_list. rewrite Hm. cbn [Nat.ltb Nat.leb].
    rewrite elems_export_entries, omap_app. by rewrite <- app_assoc.
Qed.

(** The names [extractExports] collects: those of the entries of the
    named-export lists, then the declaration exports, then the default
    exports. *)
Lemma elems_extractExports (source : string) :
  elems (extractExports source)
  = omap export_entry (export_entries source)
    ++ group1 (FindAllStringSubmatch exportDeclRegex source)
    ++ group1 (FindAllStringSubmatch exportDefaultRegex source).
Proof.
  unfold extractExports.
  rewrite !elems_append_submatches by apply FindAll_Forall_length.
  rewrite elems_append_export_lists by apply FindAll_Forall_length.
  cbn [elems app]. by rewrite <- app_assoc.
Qed.

(** *** One entry of a named-export list *)

Lemma eqb_false_lt (a b : N) : (a < b)%N → (a =? b)%N = false.
Proof. intros. apply N.eqb_neq. lia. Qed.

Lemma eqb_false_gt (a b : N) : (b < a)%N → (a =? b)%N = false.
Proof. intros. apply N.eqb_neq. lia. Qed.

Lemma leb_false_lt (a b : N) : (b < a)%N → (a <=? b)%N = false.
Proof. intros. apply N.leb_gt. lia. Qed.

(** A word character is an ASCII byte. *)
Lemma cls_w_byte (x : ascii) : cls_w x = true → (48 ≤ byte_of x ≤ 122)%N.
Proof.
  unfold cls_w. cbv zeta. generalize (byte_of x) as n. intros n.
  rewrite !orb_true_iff, !andb_true_iff, !N.leb_le, N.eqb_eq. lia.
Qed.

Lemma cls_w_not_space (x : ascii) : cls_w x = true → x ≠ " "%char.
Proof. intros Hx%cls_w_byte ->. vm_compute in Hx. destruct Hx as [Hx _]. by apply Hx. Qed.

Lemma ascii_space_word (x : ascii) : cls_w x = true → ascii_space x = false.
Proof.
  intros Hx%cls_w_byte. unfold ascii_space. cbv zeta. revert Hx.
  generalize (byte_of x) as n. intros n Hn.
  rewrite (leb_false_lt n 13), (eqb_false_gt n 32) by lia. by rewrite andb_false_r.
Qed.

Lemma space2_low (a b : N) : (a ≤ 122)%N → space2 a b = false.
Proof. intros. unfold space2. by rewrite eqb_false_lt by lia. Qed.

Lemma space3_low (a b c : N) : (a ≤ 122)%N → space3 a b c = false.
Proof. intros. unfold space3. by rewrite !(eqb_false_lt a) by lia. Qed.

Lemma space2_low_r (a b : N) : (b ≤ 122)%N → space2 a b = false.
Proof.
  intros. unfold space2. rewrite !(eqb_false_lt b) by lia. by rewrite andb_false_r.
Qed.

Lemma space3_low_r (a b c : N) : (c ≤ 122)%N → space3 a b c = false.
Proof.
  intros. unfold space3.
  rewrite !(eqb_false_lt c), (leb_false_lt 0x80 c) by lia.
  by rewrite ?andb_false_l, ?andb_false_r, ?orb_false_r.
Qed.

Lemma space_rune_word (x : ascii) (s : string) : cls_w x = true → space_rune (String x s) = 0.
Proof.
  intros Hx. pose proof (cls_w_byte x Hx) as [_ Hb]. unfold space_rune.
  rewrite (ascii_space_word x Hx).
  destruct s as [|b [|c u]]; by rewrite ?space2_low, ?space3_low.
Qed.

Lemma space_rune_rev_word (x : ascii) (s : string) :
  cls_w x = true → space_rune_rev (String x s) = 0.
Proof.
  intros Hx. pose proof (cls_w_byte x Hx) as [_ Hb]. unfold space_rune_rev.
  rewrite (ascii_space_word x Hx).
  destruct s as [|b [|c u]]; by rewrite ?space2_low_r, ?space3_low_r.
Qed.

Lemma rev_app_list (s acc : string) :
  String.list_ascii_of_string (String.rev_app s acc)
  = reverse (String.list_ascii_of_string s) ++ String.list_ascii_of_string acc.
Proof.
  revert acc. induction s as [|c s IH]; intros acc;
    cbn [String.rev_app String.list_ascii_of_string]; [done|].
  rewrite IH, reverse_cons. cbn [String.list_ascii_of_string]. by rewrite <- app_assoc.
Qed.

Lemma rev_list (s : string) :
  String.list_ascii_of_string (String.rev s) = reverse (String.list_ascii_of_string s).
Proof.
  unfold String.rev. rewrite rev_app_list. cbn [String.list_ascii_of_string].
  by rewrite app_nil_r.
Qed.

Lemma list_ascii_inj (s t : string) :
  String.list_ascii_of_string s = String.list_ascii_of_string t → s = t.
Proof.
  intros H. rewrite <- (String.string_of_list_ascii_of_string s),
    <- (String.string_of_list_ascii_of_string t). by rewrite H.
Qed.

Lemma rev_involutive (s : string) : String.rev (String.rev s) = s.
Proof. apply list_ascii_inj. by rewrite !rev_list, reverse_involutive. Qed.

(** [TrimSpace] leaves an identifier as it is. *)
Lemma TrimSpace_identifier (b : string) : is_identifier b = true → strings_TrimSpace b = b.
Proof.
  unfold is_identifier. intros [Hne Hall]%andb_true_iff.
  apply negb_true_iff, bool_decide_eq_false in Hne.
  rewrite forallb_forall in Hall.
  unfold strings_TrimSpace.
  assert (H1 : trim_while space_rune 0 b = b).
  { destruct b as [|x b']; [done|]. cbn [trim_while].
    rewrite space_rune_word; [done|]. apply Hall. cbn. by left. }
  rewrite H1.
  assert (H2 : trim_while space_rune_rev 0 (String.rev b) = String.rev b).
  { destruct (String.rev b) as [|y r] eqn:E; [done|]. cbn [trim_while].
    rewrite space_rune_rev_word; [done|]. apply Hall.
    apply (f_equal String.list_ascii_of_string) in E. rewrite rev_list in E. cbn in E.
    apply list_elem_of_In, elem_of_reverse. rewrite E. by left. }
  by rewrite H2, rev_involutive.
Qed.

Lemma prefix_app (p s : string) : String.prefix p (p +:+ s) = true.
Proof.
  induction p as [|c p IH]; [by destruct s|].
  rewrite str_app_cons. cbn. destruct (ascii_dec c c); [done|congruence].
Qed.

Lemma str_take_app (b r : string) : str_take (String.length b) (b +:+ r) = b.
Proof.
  induction b as [|c b IH]; [by destruct r|].
  rewrite str_app_cons. cbn. by rewrite IH.
Qed.

(** The first [" as "] after an identifier is right behind it. *)
Lemma Index_as (b r : string) :
  forallb cls_w (String.list_ascii_of_string b) = true →
  strings_Index (b +:+ " as " +:+ r) " as " = Some (String.length b).
Proof.
  induction b as [|x b IH]; intros Hall.
  - rewrite str_app_nil_l. destruct r; done.
  - cbn in Hall. apply andb_true_iff in Hall as [Hx Hall].
    rewrite str_app_cons. cbn [strings_Index String.prefix].
    destruct (ascii_dec " " x) as [<-|_]; [by apply cls_w_not_space in Hx|].
    rewrite (IH Hall). done.
Qed.

(** An entry that reads [b as c] once trimmed contributes [b]. *)
Lemma export_entry_rename (entry b c : string) :
  strings_TrimSpace entry = b +:+ " as " +:+ c →
  is_identifier b = true →
  export_entry entry = Some b.
Proof.
  intros Htrim Hb. unfold export_entry. rewrite Htrim.
  pose proof Hb as [Hne Hall]%andb_true_iff.
  rewrite (Index_as b c Hall), str_take_app, (TrimSpace_identifier b Hb).
  apply negb_true_iff, bool_decide_eq_false in Hne. by rewrite decide_False.
Qed.

(** The names [Parse] exports: what the entries of the named-export
    lists contribute, what follows [export const] and the like, and
    what follows [export default]. *)
Lemma Parse_exports (source : string) (x : string) :
  ∃ fs, Parse source = Ok fs ∧
    (x ∈ elems (fs_Exports fs) ↔
       (∃ entry, entry ∈ export_entries (removeComments source) ∧ export_entry entry = Some x)
       ∨ x ∈ group1 (FindAllStringSubmatch exportDeclRegex (removeComments source))
       ∨ x ∈ group1 (FindAllStringSubmatch exportDefaultRegex (removeComments source))).
Proof.
  eexists. split; [reflexivity|]. cbn [fs_Exports].
  rewrite dedup_sort_elem_of, elems_extractExports, !elem_of_app, list_elem_of_omap.
  reflexivity.
Qed.

(** C8, as the code has it.  An entry of a named-export list that,
    once trimmed, reads [b as c] for an identifier [b] puts the
    original name [b] among the exports of [Parse] and contributes
    nothing else.  The rename target [c] is among the exports only if
    it is captured on its own account: as the name of an entry of a
    named-export list, or behind [export const], [export default] and
    the like. *)
Theorem export_rename_keeps_original (source entry b c : string) :
  entry ∈ export_entries (removeComments source) →
  strings_TrimSpace entry = b +:+ " as " +:+ c →
  is_identifier b = true →
  ∃ fs, Parse source = Ok fs
        ∧ b ∈ elems (fs_Exports fs)
        ∧ export_entry entry = Some b
        ∧ (c ∈ elems (fs_Exports fs) →
             (∃ entry', entry' ∈ export_entries (removeComments source)
                        ∧ export_entry entry' = Some c)
             ∨ c ∈ group1 (FindAllStringSubmatch exportDeclRegex (removeComments source))
             ∨ c ∈ group1 (FindAllStringSubmatch exportDefaultRegex (removeComments source))).
Proof.
  intros Hentry Htrim Hb.
  pose proof (export_entry_rename entry b c Htrim Hb) as He.
  destruct (Parse_exports source b) as (fs & Hfs & Hb_in).
  destruct (Parse_exports source c) as (fs' & Hfs' & Hc_in).
  assert (fs' = fs) as -> by congruence.
  exists fs. split_and!; [done| |done|by apply Hc_in].
  apply Hb_in. left. eauto.
Qed.

(** C8, counterexample.  [rename_chain_src] has the entry [b as c], and
    [Parse] exports both [b] and the rename target [c], which is the
    original name of the second entry. *)
Lemma export_rename_target_exported :
  " b as c" ∈ export_entries (removeComments rename_chain_src)
  ∧ ∃ fs, Parse rename_chain_src = Ok fs
          ∧ fs_Exports fs = Slice ["b"; "c"]
          ∧ ¬ ("b" ∈ elems (fs_Exports fs) ∧ "c" ∉ elems (fs_Exports fs)).
Proof.
  split; [refine (bool_decide_unpack _ _); vm_compute; exact I|].
  eexists. split; [vm_compute; reflexivity|]. split; [reflexivity|].
  intros [_ Hc]. apply Hc. refine (bool_decide_unpack _ _). vm_compute. exact I.
Qed.

Lemma export_rename_keeps_original_witness :
  ∃ fs, Parse rename_src = Ok fs
        ∧ "b" ∈ elems (fs_Exports fs)
        ∧ export_entry " b as c " = Some "b"
        ∧ ("c" ∈ elems (fs_Exports fs) →
             (∃ entry', entry' ∈ export_entries (removeComments rename_src)
                        ∧ export_entry entry' = Some "c")
             ∨ "c" ∈ group1 (FindAllStringSubmatch exportDeclRegex (removeComments rename_src))
             ∨ "c" ∈ group1 (FindAllStringSubmatch exportDefaultRegex (removeComments rename_src))).
Proof.
  apply (export_rename_keeps_original rename_src " b as c " "b" "c").
  - refine (bool_decide_unpack _ _). vm_compute. exact I.
  - vm_compute. reflexivity.
  - vm_compute. reflexivity.
Defined.

(** ** Serialization *)

Lemma foldl_insert_lookup {V} (f : string → V) (l : list string) (m0 : gmap string V) (k : string) :
  foldl (λ (m : gmap string V) p, <[p := f p]> m) m0 l !! k
  = if decide (k ∈ l) then Some (f k) else m0 !! k.
Proof.
  revert m0. induction l as [|p l IH]; intros m0; cbn [foldl].
  - rewrite decide_False; [done|]. apply not_elem_of_nil.
  - rewrite IH. destruct (decide (k ∈ l)) as [Hin|Hnin].
    + rewrite decide_True; [done|]. rewrite elem_of_cons; by right.
    + destruct (decide (k = p)) as [->|Hne].
      * rewrite decide_True by (rewrite elem_of_cons; by left). by rewrite lookup_insert_eq.
      * rewrite decide_False by (rewrite elem_of_cons; tauto). by rewrite lookup_insert_ne.
Qed.

(** [orderedFiles], rebuilt from the sorted paths, is the map itself. *)
Lemma orderedFiles_eq (O : MapOrder) (files : gmap string FileIR) :
  foldl (λ (m : gmap string FileIR) path, <[path := map_index files path]> m) ∅
        (sort_Strings (range_keys O files))
  = files.
Proof.
  apply map_eq. intros k. rewrite foldl_insert_lookup.
  destruct (decide (k ∈ sort_Strings (range_keys O files))) as [Hin|Hnin].
  - rewrite sort_Strings_elem_of, range_keys_perm, keys_elem_of in Hin.
    destruct Hin as [v Hv]. unfold map_index. by rewrite Hv.
  - rewrite sort_Strings_elem_of, range_keys_perm, keys_elem_of in Hnin.
    rewrite lookup_empty. symmetry. by apply eq_None_not_Some.
Qed.

Lemma MarshalJSON_tree_eq (O1 O2 : MapOrder) (ir : IR) :
  MarshalJSON_tree O1 O2 ir
  = JObject [("version", JInt (Version ir));
             ("root_hash", JString (RootHash ir));
             ("files", JObject ((λ k, (k, FileIR_json (map_index (Files ir) k)))
                                <$> sort_Strings (map_to_list (Files ir)).*1))].
Proof.
  unfold MarshalJSON_tree. cbv zeta. rewrite orderedFiles_eq.
  unfold map_json. by rewrite sorted_range_keys.
Qed.

(** C5.  [MarshalJSON] always returns a text.  Its members are
    [version], [root_hash] and [files], in this order; the members of
    [files] are the paths of the map, each once, in strictly ascending
    byte order, whatever the order in which the map is iterated, by
    [MarshalJSON] or by the encoder.  So two serializations of a
    representation are the same bytes. *)
Theorem MarshalJSON_canonical (quote : string → string) (O1 O2 O1' O2' : MapOrder) (ir : IR) :
  let paths := sort_Strings (map_to_list (Files ir)).*1 in
  let files := JObject ((λ k, (k, FileIR_json (map_index (Files ir) k))) <$> paths) in
  MarshalJSON quote O1 O2 ir
  = Ok (MarshalIndent quote
          (JObject [("version", JInt (Version ir));
                    ("root_hash", JString (RootHash ir));
                    ("files", files)]))
  ∧ MarshalJSON quote O1 O2 ir
    = Ok ("{" +:+ LF
          +:+ "  " +:+ quote "version" +:+ ": " +:+ itoa (Version ir) +:+ "," +:+ LF
          +:+ "  " +:+ quote "root_hash" +:+ ": " +:+ quote (RootHash ir) +:+ "," +:+ LF
          +:+ "  " +:+ quote "files" +:+ ": " +:+ render quote 1 files +:+ LF
          +:+ "}")
  ∧ StronglySorted str_lt paths
  ∧ (∀ k, k ∈ paths ↔ is_Some (Files ir !! k))
  ∧ MarshalJSON quote O1 O2 ir = MarshalJSON quote O1' O2' ir.
Proof.
  intros paths files. unfold MarshalJSON. rewrite !MarshalJSON_tree_eq. fold paths files.
  split_and!; try reflexivity.
  - unfold MarshalIndent. cbn [render fst snd indent]. rewrite !str_app_nil_r, !str_app_nil_l.
    by rewrite !str_app_assoc.
  - apply sort_Strings_strict, keys_NoDup.
  - intros k. unfold paths. by rewrite sort_Strings_elem_of, keys_elem_of.
Qed.

(** ** Deserialization *)

Lemma decode_members_ok {A} (step : A → string * json → result A) (ok : string * json → bool)
    (members : list (string * json)) (a : A) :
  (∀ a kv, ok kv = true → ∃ a', step a kv = Ok a') →
  forallb ok members = true →
  ∃ a', decode_members step a members = Ok a'.
Proof.
  intros Hstep. revert a. induction members as [|kv members IH]; intros a Hall; cbn.
  - eauto.
  - cbn in Hall. apply andb_true_iff in Hall as [Hkv Hall].
    destruct (Hstep a kv Hkv) as [a' ->]. by apply IH.
Qed.

Lemma decode_members_inv {A} (step : A → string * json → result A) (P : A → Prop)
    (members : list (string * json)) (a a' : A) :
  (∀ a kv a', kv ∈ members → step a kv = Ok a' → P a → P a') →
  P a → decode_members step a members = Ok a' → P a'.
Proof.
  revert a. induction members as [|kv members IH]; intros a Hstep Ha; cbn.
  - by intros [= <-].
  - destruct (step a kv) as [a1|e] eqn:E; [|done].
    apply IH.
    + intros ? ? ? Hin. apply Hstep. rewrite elem_of_cons. by right.
    + eapply Hstep; [|exact E|exact Ha]. rewrite elem_of_cons. by left.
Qed.

Lemma decode_members_app {A} (step : A → string * json → result A)
    (m1 m2 : list (string * json)) (a : A) :
  decode_members step a (m1 ++ m2)
  = match decode_members step a m1 with
    | Ok a1 => decode_members step a1 m2
    | Err e => Err e
    end.
Proof.
  revert a. induction m1 as [|kv m1 IH]; intros a; cbn; [done|].
  destruct (step a kv); [apply IH|done].
Qed.

Lemma decode_elements_ok (items : list json) :
  forallb string_value items = true → ∃ l, decode_elements items = Ok l.
Proof.
  induction items as [|x items IH]; cbn; [eauto|].
  intros [Hx Hall]%andb_true_iff. destruct (IH Hall) as [l ->].
  destruct x; try done; cbn; eauto.
Qed.

Lemma decode_strings_ok (v : json) : strings_value v = true → ∃ l, decode_strings v = Ok l.
Proof.
  destruct v; try done; cbn; [eauto|].
  intros H. destruct (decode_elements_ok _ H) as [l ->]. eauto.
Qed.

Lemma decode_string_ok (cur : string) (v : json) :
  string_value v = true → ∃ s, decode_string cur v = Ok s.
Proof. destruct v; try done; cbn; eauto. Qed.

Lemma decode_FileIR_member_ok (f : FileIR) (kv : string * json) :
  member_ok kv = true → ∃ f', decode_FileIR_member f kv = Ok f'.
Proof.
  unfold member_ok, decode_FileIR_member.
  destruct (find_field FileIR_fields kv.1) as [name|]; [|eauto].
  repeat case_decide; intros Hv;
    try (destruct (decode_string_ok (Hash f) _ Hv) as [? ->]; eauto);
    destruct (decode_strings_ok _ Hv) as [? ->]; eauto.
Qed.

Lemma find_field_elem_of (fields : list string) (key name : string) :
  find_field fields key = Some name → name ∈ fields.
Proof.
  unfold find_field.
  destruct (list_find (λ f, f = key) fields) as [[i x]|] eqn:E1.
  - intros [= <-]. apply list_find_Some in E1 as (Hx & _). by eapply list_elem_of_lookup_2.
  - destruct (list_find (λ f, foldName f = foldName key) fields) as [[i x]|] eqn:E2;
      cbn [fmap option_fmap option_map]; [|done].
    intros [= <-]. apply list_find_Some in E2 as (Hx & _). by eapply list_elem_of_lookup_2.
Qed.

(** A member that does not select a list field leaves the field as it
    was. *)
Lemma decode_FileIR_member_keeps (f f' : FileIR) (kv : string * json) :
  decode_FileIR_member f kv = Ok f' →
  (¬ selects "imports" kv → Imports f' = Imports f)
  ∧ (¬ selects "functions" kv → Functions f' = Functions f)
  ∧ (¬ selects "classes" kv → Classes f' = Classes f)
  ∧ (¬ selects "exports" kv → Exports f' = Exports f).
Proof.
  unfold decode_FileIR_member, selects.
  destruct (find_field FileIR_fields kv.1) as [name|] eqn:Hname; [|by intros [= <-]].
  pose proof (find_field_elem_of _ _ _ Hname) as Hin.
  repeat case_decide; subst;
    (destruct (decode_string _ _) || destruct (decode_strings _)); intros [= <-];
    cbn; split_and!; intros Hsel; try done; try (exfalso; by apply Hsel).
  exfalso. unfold FileIR_fields in Hin. rewrite !elem_of_cons in Hin.
  destruct Hin as [->|[->|[->|[->|[->|Hnil%elem_of_nil]]]]]; try done; by apply Hsel.
Qed.

(** The list fields no member selects are what they were before. *)
Lemma decode_FileIR_omitted (cur f : FileIR) (members : list (string * json)) :
  decode_members decode_FileIR_member cur members = Ok f →
  ((∀ kv, kv ∈ members → ¬ selects "imports" kv) → Imports f = Imports cur)
  ∧ ((∀ kv, kv ∈ members → ¬ selects "functions" kv) → Functions f = Functions cur)
  ∧ ((∀ kv, kv ∈ members → ¬ selects "classes" kv) → Classes f = Classes cur)
  ∧ ((∀ kv, kv ∈ members → ¬ selects "exports" kv) → Exports f = Exports cur).
Proof.
  intros Hdec. split_and!; intros Hno.
  - apply (decode_members_inv decode_FileIR_member (λ x, Imports x = Imports cur) members cur f); [|done|done].
    intros a kv a' Hin Hstep <-. by apply (decode_FileIR_member_keeps a a' kv Hstep), Hno.
  - apply (decode_members_inv decode_FileIR_member (λ x, Functions x = Functions cur) members cur f); [|done|done].
    intros a kv a' Hin Hstep <-. by apply (decode_FileIR_member_keeps a a' kv Hstep), Hno.
  - apply (decode_members_inv decode_FileIR_member (λ x, Classes x = Classes cur) members cur f); [|done|done].
    intros a kv a' Hin Hstep <-. by apply (decode_FileIR_member_keeps a a' kv Hstep), Hno.
  - apply (decode_members_inv decode_FileIR_member (λ x, Exports x = Exports cur) members cur f); [|done|done].
    intros a kv a' Hin Hstep <-. by apply (decode_FileIR_member_keeps a a' kv Hstep), Hno.
Qed.

Lemma decode_FileIR_ok (cur : FileIR) (kv : string * json) :
  entry_ok kv = true → ∃ f, decode_FileIR cur kv.2 = Ok f.
Proof.
  unfold entry_ok, decode_FileIR. destruct kv.2; try done; [eauto|].
  apply decode_members_ok. intros. by apply decode_FileIR_member_ok.
Qed.

Lemma decode_Files_entries_ok (entries : list (string * json)) (m : gmap string FileIR) :
  forallb entry_ok entries = true →
  ∃ m', decode_Files m (JObject entries) = Ok m'.
Proof.
  cbn [decode_Files]. apply decode_members_ok.
  intros a kv Hkv. destruct (decode_FileIR_ok zeroFileIR kv Hkv) as [f ->]. eauto.
Qed.

(** The entry a key gets is the one decoded from its last member. *)
Lemma decode_Files_last (e1 e2 : list (string * json)) (k : string) (v : json)
    (m m' : gmap string FileIR) :
  k ∉ e2.*1 →
  decode_Files m (JObject (e1 ++ (k, v) :: e2)) = Ok m' →
  ∃ f, decode_FileIR zeroFileIR v = Ok f ∧ m' !! k = Some f.
Proof.
  intros Hk. cbn [decode_Files]. rewrite decode_members_app.
  destruct (decode_members _ m e1) as [m1|]; [|done].
  cbn [decode_members fst snd].
  destruct (decode_FileIR zeroFileIR v) as [f|]; [|done].
  intros Hrest. exists f. split; [done|].
  eapply (decode_members_inv _ (λ x : gmap string FileIR, x !! k = Some f)); [| |exact Hrest].
  - intros a kv a' Hin. cbn beta. destruct (decode_FileIR zeroFileIR kv.2); [|done].
    intros [= <-] Ha. rewrite lookup_insert_ne; [done|].
    intros Heq. apply Hk. apply list_elem_of_fmap. exists kv. by split.
  - by rewrite lookup_insert_eq.
Qed.

Lemma list_field_omitted (name : string) (cur f : FileIR) (members : list (string * json)) :
  name ∈ list_fields → omits name members →
  decode_members decode_FileIR_member cur members = Ok f →
  list_field name f = list_field name cur.
Proof.
  intros Hname Hom Hdec. unfold omits in Hom. rewrite Forall_forall in Hom.
  destruct (decode_FileIR_omitted cur f members Hdec) as (Hi & Hf & Hc & He).
  unfold list_fields in Hname. rewrite !elem_of_cons in Hname.
  destruct Hname as [->|[->|[->|[->|Hnil%elem_of_nil]]]]; [..|done]; unfold list_field;
    repeat (rewrite decide_True by done || rewrite decide_False by done); auto.
Qed.

Lemma decode_IR_member_version (ir : IR) (v : json) :
  decode_IR_member ir ("version", v)
  = match decode_int (Version ir) v with
    | Ok z => Ok {| Version := z; RootHash := RootHash ir; Files := Files ir |}
    | Err e => Err e
    end.
Proof. reflexivity. Qed.

Lemma decode_IR_member_root_hash (ir : IR) (v : json) :
  decode_IR_member ir ("root_hash", v)
  = match decode_string (RootHash ir) v with
    | Ok h => Ok {| Version := Version ir; RootHash := h; Files := Files ir |}
    | Err e => Err e
    end.
Proof. reflexivity. Qed.

Lemma decode_IR_member_files (ir : IR) (v : json) :
  decode_IR_member ir ("files", v)
  = match decode_Files (Files ir) v with
    | Ok m => Ok {| Version := Version ir; RootHash := RootHash ir; Files := m |}
    | Err e => Err e
    end.
Proof. reflexivity. Qed.

Lemma Load_persisted (version : Z) (root_hash : string) (entries : list (string * json)) :
  (int_min ≤ version ≤ int_max)%Z →
  Load (Ok (Some (persisted version root_hash entries)))
  = match decode_Files ∅ (JObject entries) with
    | Ok m => Ok {| Version := version; RootHash := root_hash; Files := m |}
    | Err e => Err ("failed to unmarshal IR: " +:+ e)
    end.
Proof.
  intros [Hlo Hhi]. unfold Load, UnmarshalJSON, Unmarshal_aux, persisted.
  cbn [decode_members]. rewrite decode_IR_member_version. cbn [decode_int].
  assert (((int_min <=? version) && (version <=? int_max))%Z = true) as ->.
  { apply andb_true_iff. split; by apply Z.leb_le. }
  rewrite decode_IR_member_root_hash. cbn [decode_string].
  rewrite decode_IR_member_files. cbn [RootHash Version Files zeroIR].
  by destruct (decode_Files ∅ (JObject entries)).
Qed.

(** C9, as the code has it.  A persisted representation whose entries
    are well typed is loaded without an error, whatever fields its
    entries omit.  A list field that the (last) entry of a path omits is
    the nil slice in the loaded File Entry: its length is 0, but it is
    not the empty non-nil slice that [Parse] makes, and serializing it
    again writes [null]. *)
Theorem Load_omitted_list_field (version : Z) (root_hash : string)
    (e1 e2 : list (string * json)) (k : string) (members : list (string * json))
    (name : string) :
  (int_min ≤ version ≤ int_max)%Z →
  forallb entry_ok (e1 ++ (k, JObject members) :: e2) = true →
  k ∉ e2.*1 →
  name ∈ list_fields →
  omits name members →
  ∃ ir f, Load (Ok (Some (persisted version root_hash (e1 ++ (k, JObject members) :: e2)))) = Ok ir
          ∧ Files ir !! k = Some f
          ∧ list_field name f = NilSlice
          ∧ len (list_field name f) = 0
          ∧ list_field name f ≠ Slice []
          ∧ slice_json (list_field name f) = JNull.
Proof.
  intros Hv Hok Hk Hname Hom. rewrite (Load_persisted _ _ _ Hv).
  destruct (decode_Files_entries_ok _ ∅ Hok) as [m Hm]. rewrite Hm.
  destruct (decode_Files_last e1 e2 k (JObject members) ∅ m Hk Hm) as (f & Hf & Hlook).
  exists {| Version := version; RootHash := root_hash; Files := m |}, f.
  cbn [decode_FileIR] in Hf.
  pose proof (list_field_omitted name zeroFileIR f members Hname Hom Hf) as Hnil.
  assert (Hz : list_field name zeroFileIR = NilSlice).
  { unfold list_field. by repeat case_decide. }
  rewrite Hz in Hnil. rewrite Hnil. by split_and!.
Qed.

(** C9, counterexample.  The entry of [hash_only_doc] has a hash and
    omits the four lists.  [Load] succeeds, and the lists of the loaded
    entry are nil slices, not empty ones. *)
Lemma Load_omitted_fields_are_nil :
  ∃ ir, Load (Ok (Some hash_only_doc)) = Ok ir
        ∧ Files ir !! "a.ts"
          = Some {| Hash := "h"; Imports := NilSlice; Functions := NilSlice;
                    Classes := NilSlice; Exports := NilSlice |}
        ∧ ¬ (∃ f, Files ir !! "a.ts" = Some f ∧ Imports f = Slice []).
Proof.
  eexists. split; [vm_compute; reflexivity|]. split; [vm_compute; reflexivity|].
  intros (f & Hf & Hi). vm_compute in Hf. injection Hf as <-. discriminate Hi.
Qed.

Lemma Load_omitted_list_field_witness :
  ∃ ir f, Load (Ok (Some (persisted 1 "" ([] ++ ("a.ts", JObject [("hash", JString "h")]) :: []))))
          = Ok ir
          ∧ Files ir !! "a.ts" = Some f
          ∧ list_field "exports" f = NilSlice
          ∧ len (list_field "exports" f) = 0
          ∧ list_field "exports" f ≠ Slice []
          ∧ slice_json (list_field "exports" f) = JNull.
Proof.
  apply (Load_omitted_list_field 1 "" [] [] "a.ts" [("hash", JString "h")] "exports").
  - vm_compute. split; discriminate.
  - vm_compute. reflexivity.
  - refine (bool_decide_unpack _ _). vm_compute. exact I.
  - refine (bool_decide_unpack _ _). vm_compute. exact I.
  - refine (bool_decide_unpack _ _). vm_compute. exact I.
Defined.

(** ** filepath.Walk *)

Lemma node_ind_nested (P : node → Prop) :
  (∀ c, P (File c)) → P Symlink → P Gone → P (Dir None) →
  (∀ es, Forall (λ e, P e.2) es → P (Dir (Some es))) →
  ∀ n, P n.
Proof.
  intros Hf Hs Hg Hdn Hd. fix IH 1.
  intros [c| |[es|]|]; [apply Hf|apply Hs| |apply Hdn|apply Hg].
  apply Hd. induction es as [|[name child] es IHes]; constructor; [apply IH|apply IHes].
Qed.

Lemma walk_dir {S} (walkFn : path → visit → S → S * walk_ret) (p : path)
    (es : list (string * node)) (st : S) :
  walk walkFn p (Dir (Some es)) st
  = let r := walkFn p (Visit {| IsDir := true; IsSymlink := false |}) st in
    match r.2 with
    | RetNil => walk_names walkFn p es r.1
    | _ => r
    end.
Proof. reflexivity. Qed.

Lemma walk_names_cons {S} (walkFn : path → visit → S → S * walk_ret) (p : path)
    (name : string) (child : node) (rest : list (string * node)) (st : S) :
  child ≠ Gone →
  walk_names walkFn p ((name, child) :: rest) st
  = let r := walk walkFn (p ++ [name]) child st in
    match r.2 with
    | RetNil => walk_names walkFn p rest r.1
    | SkipDir => if IsDir (info_of child) then walk_names walkFn p rest r.1 else r
    | RetErr e => r
    end.
Proof. by destruct child. Qed.

Lemma walk_names_gone {S} (walkFn : path → visit → S → S * walk_ret) (p : path)
    (name : string) (rest : list (string * node)) (st : S) :
  walk_names walkFn p ((name, Gone) :: rest) st
  = let r := walkFn (p ++ [name]) (Failed None "lstat") st in
    match r.2 with
    | RetErr e => r
    | _ => walk_names walkFn p rest r.1
    end.
Proof. reflexivity. Qed.

Lemma leaves_dir (skip : path → bool) (p : path) (es : list (string * node)) :
  leaves skip p (Dir (Some es)) = if skip p then [] else leaves_entries skip p es.
Proof. reflexivity. Qed.

Lemma leaves_entries_cons (skip : path → bool) (p : path) (name : string) (child : node)
    (rest : list (string * node)) :
  leaves_entries skip p ((name, child) :: rest)
  = leaves skip (p ++ [name]) child ++ leaves_entries skip p rest.
Proof. reflexivity. Qed.

Section WalkFold.
Context {S : Type}.
Variable walkFn : path → visit → S → S * walk_ret.
Variable skip : path → bool.

(** At a directory that can be listed the function leaves the state
    alone and answers [SkipDir] or nil; elsewhere it answers nil. *)
Hypothesis walkFn_dir : ∀ p st,
  walkFn p (Visit {| IsDir := true; IsSymlink := false |}) st
  = (st, if skip p then SkipDir else RetNil).
Hypothesis walkFn_leaf : ∀ p c st, (walkFn p (Visit (info_of (File c))) st).2 = RetNil.
Hypothesis walkFn_symlink : ∀ p st, (walkFn p (Visit (info_of Symlink)) st).2 = RetNil.
Hypothesis walkFn_failed : ∀ p i e st, (walkFn p (Failed i e) st).2 = RetNil.

Lemma walk_names_fold (p : path) (es : list (string * node)) :
  Forall (λ e, ∀ p st, e.2 ≠ Gone →
            ∃ r, walk walkFn p e.2 st = (foldl (visit_leaf walkFn) st (leaves skip p e.2), r)
                 ∧ (r = RetNil ∨ (r = SkipDir ∧ IsDir (info_of e.2) = true))) es →
  ∀ st, walk_names walkFn p es st = (foldl (visit_leaf walkFn) st (leaves_entries skip p es), RetNil).
Proof.
  induction 1 as [|[name child] es Hchild _ IHes]; intros st; [done|].
  cbn [snd] in Hchild. rewrite leaves_entries_cons, foldl_app.
  destruct child as [c| |l|].
  4: { rewrite walk_names_gone. cbv zeta.
       pose proof (walkFn_failed (p ++ [name]) None "lstat" st) as Hr.
       cbn [leaves foldl]. unfold visit_leaf at 2. cbn [fst snd visit_of].
       destruct (walkFn (p ++ [name]) (Failed None "lstat") st) as [st1 r1].
       cbn [snd] in Hr. subst r1. cbn [fst snd]. apply IHes. }
  all: rewrite walk_names_cons by done; cbv zeta;
    destruct (Hchild (p ++ [name]) st ltac:(done)) as (r & -> & Hr); cbn [fst snd];
    destruct Hr as [->|[-> Hd]]; [apply IHes|rewrite Hd; apply IHes].
Qed.

(** A walk is the fold of [walkFn] over the leaves. *)
Lemma walk_fold (n : node) (p : path) (st : S) :
  n ≠ Gone →
  ∃ r, walk walkFn p n st = (foldl (visit_leaf walkFn) st (leaves skip p n), r)
       ∧ (r = RetNil ∨ (r = SkipDir ∧ IsDir (info_of n) = true)).
Proof.
  revert p st. induction n as [c| | | |es IH] using node_ind_nested; intros p st Hne; try done.
  - exists RetNil. split; [|by left]. cbn [walk leaves foldl]. unfold visit_leaf. cbn [fst snd visit_of].
    rewrite <- (walkFn_leaf p c st). by destruct (walkFn _ _ _).
  - exists RetNil. split; [|by left]. cbn [walk leaves foldl]. unfold visit_leaf. cbn [fst snd visit_of].
    rewrite <- (walkFn_symlink p st). by destruct (walkFn _ _ _).
  - exists RetNil. split; [|by left]. cbn [walk leaves foldl info_of]. unfold visit_leaf.
    cbn [fst snd visit_of info_of].
    rewrite <- (walkFn_failed p (Some {| IsDir := true; IsSymlink := false |}) "readdirnames" st).
    by destruct (walkFn _ _ _).
  - rewrite walk_dir, leaves_dir, walkFn_dir. cbn [fst snd].
    destruct (skip p); [exists SkipDir; split; [done|by right]|].
    exists RetNil. split; [|by left]. by apply walk_names_fold.
Qed.
End WalkFold.

(** ** The file system *)

Lemma well_formed_dir (es : list (string * node)) :
  well_formed (Dir (Some es)) = true
  ↔ StronglySorted str_lt es.*1 ∧ Forall (λ e, well_formed e.2 = true) es.
Proof.
  cbn [well_formed]. rewrite andb_true_iff, bool_decide_eq_true.
  apply and_iff_compat_l.
  induction es as [|[name child] es IH]; [by split; [constructor|]|].
  rewrite andb_true_iff, Forall_cons, IH. done.
Qed.

Lemma str_lt_irrefl (x : string) : ¬ str_lt x x.
Proof. intros [H1 H2]. by apply H2. Qed.

Lemma StronglySorted_lt_NoDup (l : list string) : StronglySorted str_lt l → NoDup l.
Proof. intros H. by apply StronglySorted_lt_le in H as [_ ?]. Qed.

Lemma assoc_elem_of (name : string) (child : node) (es : list (string * node)) :
  NoDup es.*1 → (name, child) ∈ es → assoc name es = Some child.
Proof.
  induction es as [|[n x] es IH]; cbn [assoc fmap list_fmap fst]; [by intros _ ?%elem_of_nil|].
  intros [Hn Hnd]%NoDup_cons [[= -> ->]|Hin]%elem_of_cons.
  - by rewrite decide_True.
  - rewrite decide_False; [by apply IH|].
    intros ->. apply Hn. apply list_elem_of_fmap. by exists (name, child).
Qed.

Lemma lookup_path_snoc (root : node) (p : path) (name : string) :
  lookup_path root (p ++ [name])
  = match lookup_path root p with
    | Some (Dir (Some es)) => assoc name es
    | _ => None
    end.
Proof.
  revert root. induction p as [|c p IH]; intros root; cbn [lookup_path app].
  - destruct root as [| |[es|]|]; try done. by destruct (assoc name es).
  - destruct root as [| |[es|]|]; try done. destruct (assoc c es); [apply IH|done].
Qed.

Lemma elem_of_leaves_entries (skip : path → bool) (p : path) (es : list (string * node))
    (l : path * node) :
  l ∈ leaves_entries skip p es
  ↔ ∃ name child, (name, child) ∈ es ∧ l ∈ leaves skip (p ++ [name]) child.
Proof.
  induction es as [|[name child] es IH].
  - split; [by intros ?%elem_of_nil|by intros (? & ? & ?%elem_of_nil & _)].
  - rewrite leaves_entries_cons, elem_of_app, IH. split.
    + intros [H|(n & c & Hin & H)]; [exists name, child|exists n, c];
        (split; [rewrite elem_of_cons; auto|done]).
    + intros (n & c & [[= -> ->]|Hin]%elem_of_cons & H); [by left|right; eauto].
Qed.

(** Every leaf of a walk is the entry found at its path. *)
Lemma leaves_lookup (skip : path → bool) (root : node) (n : node) (p : path) (l : path * node) :
  well_formed n = true → lookup_path root p = Some n →
  l ∈ leaves skip p n →
  lookup_path root l.1 = Some l.2 ∧ ∀ es, l.2 ≠ Dir (Some es).
Proof.
  revert p. induction n as [c| | | |es IH] using node_ind_nested; intros p Hwf Hp;
    try (cbn [leaves]; intros ->%list_elem_of_singleton; by split).
  rewrite leaves_dir. destruct (skip p); [by intros ?%elem_of_nil|].
  apply well_formed_dir in Hwf as [Hs Hwf].
  rewrite elem_of_leaves_entries. intros (name & child & Hin & Hl).
  rewrite Forall_forall in IH, Hwf.
  apply (IH (name, child) Hin (p ++ [name])); [by apply (Hwf (name, child))| |done].
  rewrite lookup_path_snoc, Hp. apply assoc_elem_of; [|done].
  by apply StronglySorted_lt_NoDup.
Qed.

Lemma lookup_path_well_formed (root : node) (p : path) (n : node) :
  well_formed root = true → lookup_path root p = Some n → well_formed n = true.
Proof.
  revert root. induction p as [|c p IH]; intros root Hwf; cbn [lookup_path].
  - by intros [= <-].
  - destruct root as [| |[es|]|]; try done.
    destruct (assoc c es) as [child|] eqn:E; [|done].
    apply IH. apply well_formed_dir in Hwf as [_ Hwf]. rewrite Forall_forall in Hwf.
    assert (Hin : (c, child) ∈ es).
    { clear -E. induction es as [|[n x] es IHes]; cbn [assoc] in E; [done|].
      rewrite elem_of_cons. case_decide; [left; congruence|right; auto]. }
    by apply (Hwf (c, child)).
Qed.

Lemma foldl_ext_in {A B} (f g : A → B → A) (l : list B) (a : A) :
  (∀ a x, x ∈ l → f a x = g a x) → foldl f a l = foldl g a l.
Proof.
  revert a. induction l as [|x l IH]; intros a Hfg; cbn [foldl]; [done|].
  rewrite Hfg by (rewrite elem_of_cons; auto). apply IH.
  intros. apply Hfg. rewrite elem_of_cons. auto.
Qed.

(** Inserting along a list: a key holds the value of its last
    occurrence. *)
Lemma foldl_insert_last {A V} (kf : A → string) (vf : A → V) (l : list A)
    (m0 : gmap string V) (k : string) :
  foldl (λ (m : gmap string V) x, <[kf x := vf x]> m) m0 l !! k
  = match last_with (λ x, bool_decide (kf x = k)) l with
    | Some x => Some (vf x)
    | None => m0 !! k
    end.
Proof.
  revert m0. induction l as [|x l IH]; intros m0; cbn [foldl last_with]; [done|].
  rewrite IH. destruct (last_with _ l); [done|].
  case_bool_decide as Hk.
  - subst k. by rewrite lookup_insert_eq.
  - by rewrite lookup_insert_ne.
Qed.

(** ** Generate and Update as folds over the walk *)

Section Generation.
Variable Separator : ascii.
Variable NFC : string → string.
Variable g : Generator.
Variable w : world.
Variable absRoot : path.

Local Abbreviation skip := (skip_dir Separator g).
Local Abbreviation key := (key_of Separator NFC absRoot).

Lemma eligible_leaves (n : node) (p : path) :
  eligible Separator g p n = omap eligible_leaf (leaves skip p n).
Proof.
  revert p. induction n as [c| | | |es IH] using node_ind_nested; intros p; try done.
  - cbn [eligible leaves omap list_omap]. unfold eligible_leaf. cbn [fst snd].
    destruct c; [|done]. by destruct (SupportsExtension _).
  - rewrite leaves_dir. cbn [eligible]. unfold skip_dir.
    destruct (is_ignored g _); [done|].
    induction IH as [|[name child] es Hchild _ IHes]; [done|].
    rewrite leaves_entries_cons, omap_app, <- IHes, <- Hchild. done.
Qed.

Lemma parseFile_readable (p : path) (content : string) :
  lookup_path (fs w) p = Some (File (Some content)) →
  parseFile w p = Ok (entry_of content).
Proof.
  intros Hp. unfold parseFile, HashFile, os_ReadFile. rewrite Hp.
  unfold entry_of, Parse. reflexivity.
Qed.

Lemma parseFile_unreadable (p : path) :
  lookup_path (fs w) p = Some (File None) → ∃ e, parseFile w p = Err e.
Proof. intros Hp. unfold parseFile, os_ReadFile. rewrite Hp. eauto. Qed.

Lemma filepath_Rel_ok (p : path) : ∃ rel, filepath_Rel Separator absRoot p = Ok rel.
Proof.
  unfold filepath_Rel. destruct (rel_components absRoot p) as [b t].
  destruct (((λ _, "..") <$> b) ++ t); eauto.
Qed.

Lemma key_of_Rel (p : path) (rel : string) :
  filepath_Rel Separator absRoot p = Ok rel → key p = normalizePath Separator NFC rel.
Proof. intros H. unfold key_of. by rewrite H. Qed.

(** *** Generate *)

Lemma gen_state_eta (st : gen_state) : {| g_files := g_files st; g_log := g_log st |} = st.
Proof. by destruct st. Qed.

Lemma generate_visit_leaf (st : gen_state) (l : path * node) :
  lookup_path (fs w) l.1 = Some l.2 → (∀ es, l.2 ≠ Dir (Some es)) →
  visit_leaf (generate_visit Separator NFC g w absRoot) st l
  = gen_leaf Separator NFC absRoot st l.
Proof.
  destruct l as [p n]. cbn [fst snd]. intros Hp Hleaf.
  unfold visit_leaf, gen_leaf, eligible_leaf, leaf_warning, gen_insert. cbn [fst snd].
  destruct n as [[c|]| |[es|]|]; cbn [visit_of generate_visit info_of IsSymlink IsDir].
  - destruct (SupportsExtension (filepath_Ext p)); cbn [negb fst option_list].
    + rewrite (parseFile_readable p c Hp).
      destruct (filepath_Rel_ok p) as [rel Hrel]. rewrite Hrel, (key_of_Rel p rel Hrel).
      cbn [fst]. by rewrite app_nil_r.
    + by rewrite app_nil_r, gen_state_eta.
  - destruct (SupportsExtension (filepath_Ext p)); cbn [negb fst option_list].
    + destruct (parseFile_unreadable p Hp) as [e ->]. done.
    + by rewrite app_nil_r, gen_state_eta.
  - cbn [fst option_list]. by rewrite app_nil_r, gen_state_eta.
  - by destruct (Hleaf es).
  - done.
  - done.
Qed.

Lemma foldl_gen_leaf (ls : list (path * node)) (st : gen_state) :
  foldl (gen_leaf Separator NFC absRoot) st ls
  = {| g_files := foldl (gen_insert Separator NFC absRoot) (g_files st) (omap eligible_leaf ls);
       g_log := g_log st ++ omap (leaf_warning WarnParse) ls |}.
Proof.
  revert st. induction ls as [|l ls IH]; intros st; cbn [foldl omap list_omap].
  - by rewrite app_nil_r, gen_state_eta.
  - rewrite IH. unfold gen_leaf at 1 2. cbn [g_files g_log].
    destruct (eligible_leaf l); destruct (leaf_warning WarnParse l);
      cbn [foldl option_list]; by rewrite <- ?app_assoc, ?app_nil_r.
Qed.

Lemma generate_visit_dir (p : path) (st : gen_state) :
  generate_visit Separator NFC g w absRoot p (Visit {| IsDir := true; IsSymlink := false |}) st
  = (st, if skip p then SkipDir else RetNil).
Proof. cbn [generate_visit IsSymlink IsDir]. unfold skip_dir. by destruct (is_ignored g _). Qed.

Lemma generate_visit_nil (p : path) (v : visit) (st : gen_state) :
  (∀ i, v = Visit i → IsDir i = false) →
  (generate_visit Separator NFC g w absRoot p v st).2 = RetNil.
Proof.
  intros Hv. destruct v as [i|i e]; [|done]. cbn [generate_visit].
  rewrite (Hv i eq_refl). destruct (IsSymlink i); [done|].
  destruct (negb _); [done|]. destruct (parseFile w p); [|done].
  by destruct (filepath_Rel _ _ _).
Qed.

(** The walk of [Generate] from an entry that exists. *)
Lemma walk_generate (n : node) (st : gen_state) :
  well_formed n = true → lookup_path (fs w) absRoot = Some n → n ≠ Gone →
  ∃ r, walk (generate_visit Separator NFC g w absRoot) absRoot n st
       = ({| g_files := foldl (gen_insert Separator NFC absRoot) (g_files st)
                              (eligible Separator g absRoot n);
             g_log := g_log st ++ omap (leaf_warning WarnParse) (leaves skip absRoot n) |}, r)
       ∧ (r = RetNil ∨ r = SkipDir).
Proof.
  intros Hwf Hp Hne.
  destruct (walk_fold (generate_visit Separator NFC g w absRoot) skip
              generate_visit_dir
              (λ p c st, generate_visit_nil p (Visit (info_of (File c))) st
                           (λ i Hi, ltac:(by injection Hi as <-)))
              (λ p st, generate_visit_nil p (Visit (info_of Symlink)) st
                         (λ i Hi, ltac:(by injection Hi as <-)))
              (λ p i e st, generate_visit_nil p (Failed i e) st (λ i' Hi, ltac:(done)))
              n absRoot st Hne) as (r & Hw & Hr).
  exists r. split; [|destruct Hr as [?|[? _]]; auto].
  rewrite Hw. f_equal.
  rewrite (foldl_ext_in _ (gen_leaf Separator NFC absRoot)).
  - by rewrite foldl_gen_leaf, eligible_leaves.
  - intros a l Hl. destruct (leaves_lookup skip (fs w) n absRoot l Hwf Hp Hl).
    by apply generate_visit_leaf.
Qed.
End Generation.

Lemma last_with_none {A} (P : A → bool) (l : list A) :
  Forall (λ x, P x = false) l → last_with P l = None.
Proof. induction 1 as [|x l Hx _ IH]; cbn [last_with]; [done|]. by rewrite IH, Hx. Qed.

Lemma last_with_app_cons {A} (P : A → bool) (l l' : list A) (y : A) :
  P y = true → last_with P l' = None → last_with P (l ++ y :: l') = Some y.
Proof.
  intros Hy Hl'. induction l as [|x l IH]; cbn [app last_with].
  - by rewrite Hl', Hy.
  - by rewrite IH.
Qed.

Lemma ComputeRootHash_empty (O : MapOrder) : ComputeRootHash O ∅ = HashBytes "".
Proof. unfold ComputeRootHash. rewrite map_size_empty. reflexivity. Qed.

Section GenerateResults.
Variable Separator : ascii.
Variable NFC : string → string.
Variable O : MapOrder.
Variable g : Generator.
Variable w : world.

(** [Generate] fails when the root cannot be made absolute. *)
Lemma Generate_unresolved (rootPath e : string) :
  filepath_Abs Separator w rootPath = Err e →
  Generate Separator NFC O g w rootPath
  = (Err ("failed to resolve absolute path: " +:+ e), []).
Proof. intros H. unfold Generate. by rewrite H. Qed.

(** A root that [Lstat] does not find is a warning, and the result is
    the empty representation. *)
Lemma Generate_missing_root (rootPath : string) (absRoot : path) (e : string) :
  filepath_Abs Separator w rootPath = Ok absRoot →
  os_Lstat w absRoot = Err e →
  Generate Separator NFC O g w rootPath
  = (Ok {| Version := 1; RootHash := HashBytes ""; Files := ∅ |}, [WarnAccess absRoot]).
Proof.
  intros Habs Hstat. unfold Generate, Walk. rewrite Habs, Hstat.
  cbn. by rewrite ComputeRootHash_empty.
Qed.

(** [Generate] on a root that exists: the entries of the eligible
    files, inserted in the order of the walk. *)
Lemma Generate_walk (rootPath : string) (absRoot : path) (n : node) :
  well_formed (fs w) = true →
  filepath_Abs Separator w rootPath = Ok absRoot →
  lookup_path (fs w) absRoot = Some n → n ≠ Gone →
  let files := foldl (gen_insert Separator NFC absRoot) ∅ (eligible Separator g absRoot n) in
  Generate Separator NFC O g w rootPath
  = (Ok {| Version := 1; RootHash := ComputeRootHash O files; Files := files |},
     omap (leaf_warning WarnParse) (leaves (skip_dir Separator g) absRoot n)).
Proof.
  intros Hwf Habs Hp Hne files. unfold Generate, Walk, os_Lstat. rewrite Habs, Hp.
  pose proof (lookup_path_well_formed _ _ _ Hwf Hp) as Hwfn.
  destruct (walk_generate Separator NFC g w absRoot n {| g_files := ∅; g_log := [] |}
              Hwfn Hp Hne) as (r & Hw & Hr).
  assert (Hn : (match n with Gone => Err "no such file or directory" | _ => Ok n end) = Ok n).
  { by destruct n. }
  rewrite Hn, Hw. cbn [fst snd g_files g_log app].
  by destruct Hr as [->| ->].
Qed.
End GenerateResults.

(** C1 (the code does not do what the claim says).  For the root path
    [/nonexistent] on a machine whose root directory is empty,
    [Generate] returns a nil error and the empty representation
    (version 1, no files, the hash of no bytes) after a warning on
    standard error.  The only root paths [Generate] fails on are the
    relative ones when the working directory is unknown. *)
Theorem Generate_nonexistent_root_succeeds :
  Generate "/" nfc_cafe order_fwd default_generator empty_world "/nonexistent"
  = (Ok {| Version := 1;
           RootHash := "e3b0c44298fc1c149afbf4c8996fb92427ae41e4649b934ca495991b7852b855";
           Files := ∅ |},
     [WarnAccess ["nonexistent"]])
  ∧ os_Lstat empty_world ["nonexistent"] = Err "no such file or directory".
Proof. split; vm_compute; reflexivity. Qed.

(** C10.  When two files of a walk get the same key, the earlier at
    [p1] and the later at [p2], and no file after them gets it,
    [Generate] returns a nil error and the map holds, at that key, the
    entry of the later file.  Standard error has the lines of the
    entries that could not be read and nothing about the two files. *)
Theorem Generate_collision_last_wins (Separator : ascii) (NFC : string → string) (O : MapOrder)
    (g : Generator) (w : world) (rootPath : string) (absRoot : path) (n : node)
    (l1 l2 l3 : list (path * string)) (p1 p2 : path) (c1 c2 : string) (k : string) :
  well_formed (fs w) = true →
  filepath_Abs Separator w rootPath = Ok absRoot →
  lookup_path (fs w) absRoot = Some n → n ≠ Gone →
  eligible Separator g absRoot n = l1 ++ (p1, c1) :: l2 ++ (p2, c2) :: l3 →
  key_of Separator NFC absRoot p1 = k →
  key_of Separator NFC absRoot p2 = k →
  Forall (λ pc, key_of Separator NFC absRoot pc.1 ≠ k) l3 →
  ∃ ir, Generate Separator NFC O g w rootPath
        = (Ok ir, omap (leaf_warning WarnParse) (leaves (skip_dir Separator g) absRoot n))
        ∧ Files ir !! k = Some (entry_of c2)
        ∧ (WarnParse p1 ∉ omap (leaf_warning WarnParse) (leaves (skip_dir Separator g) absRoot n))
        ∧ (WarnParse p2 ∉ omap (leaf_warning WarnParse) (leaves (skip_dir Separator g) absRoot n)).
Proof.
  intros Hwf Habs Hp Hne Hel Hk1 Hk2 Hl3.
  rewrite (Generate_walk Separator NFC O g w rootPath absRoot n Hwf Habs Hp Hne).
  cbv zeta. eexists. split; [reflexivity|]. cbn [Files].
  assert (Hnowarn : ∀ p c, (p, c) ∈ eligible Separator g absRoot n →
            WarnParse p ∉ omap (leaf_warning WarnParse) (leaves (skip_dir Separator g) absRoot n)).
  { intros p c Hin Hwarn. rewrite eligible_leaves in Hin.
    apply list_elem_of_omap in Hin as ([q x] & Hq & Hx).
    apply list_elem_of_omap in Hwarn as ([q' x'] & Hq' & Hx').
    pose proof (lookup_path_well_formed _ _ _ Hwf Hp) as Hwfn.
    destruct (leaves_lookup _ (fs w) n absRoot _ Hwfn Hp Hq) as [Hl _].
    destruct (leaves_lookup _ (fs w) n absRoot _ Hwfn Hp Hq') as [Hl' _].
    cbn [fst snd] in *. unfold eligible_leaf in Hx. unfold leaf_warning in Hx'. cbn [fst snd] in *.
    destruct x as [[c0|]| | |]; try done. destruct (SupportsExtension _); [|done].
    injection Hx as -> ->.
    destruct x' as [[c0|]| |[es|]|]; try done. destruct (SupportsExtension _); [|done].
    injection Hx' as ->. congruence. }
  split_and!.
  - unfold gen_insert. rewrite foldl_insert_last, Hel.
    change (l1 ++ (p1, c1) :: l2 ++ (p2, c2) :: l3) with (l1 ++ ((p1, c1) :: l2) ++ (p2, c2) :: l3).
    rewrite app_assoc, last_with_app_cons; [done| |].
    + cbn [fst]. by apply bool_decide_eq_true_2.
    + apply last_with_none. eapply Forall_impl; [exact Hl3|].
      intros x Hx. by apply bool_decide_eq_false_2.
  - apply (Hnowarn p1 c1). rewrite Hel, elem_of_app, elem_of_cons. auto.
  - apply (Hnowarn p2 c2). rewrite Hel, elem_of_app, elem_of_cons, elem_of_app, elem_of_cons. auto.
Qed.

Lemma Generate_collision_last_wins_witness :
  ∃ ir, Generate "/" nfc_cafe order_fwd default_generator cafe_world "/proj"
        = (Ok ir, omap (leaf_warning WarnParse)
                    (leaves (skip_dir "/" default_generator) ["proj"]
                       (Dir (Some [(cafe_nfd, File (Some "function one() {}"));
                                   (cafe_nfc, File (Some "function two() {}"))]))))
        ∧ Files ir !! cafe_nfc = Some (entry_of "function two() {}")
        ∧ (WarnParse ["proj"; cafe_nfd]
             ∉ omap (leaf_warning WarnParse)
                 (leaves (skip_dir "/" default_generator) ["proj"]
                    (Dir (Some [(cafe_nfd, File (Some "function one() {}"));
                                (cafe_nfc, File (Some "function two() {}"))]))))
        ∧ (WarnParse ["proj"; cafe_nfc]
             ∉ omap (leaf_warning WarnParse)
                 (leaves (skip_dir "/" default_generator) ["proj"]
                    (Dir (Some [(cafe_nfd, File (Some "function one() {}"));
                                (cafe_nfc, File (Some "function two() {}"))])))).
Proof.
  apply (Generate_collision_last_wins "/" nfc_cafe order_fwd default_generator cafe_world
           "/proj" ["proj"] _ [] [] [] ["proj"; cafe_nfd] ["proj"; cafe_nfc]
           "function one() {}" "function two() {}" cafe_nfc).
  - vm_compute. reflexivity.
  - vm_compute. reflexivity.
  - vm_compute. reflexivity.
  - discriminate.
  - vm_compute. reflexivity.
  - vm_compute. reflexivity.
  - vm_compute. reflexivity.
  - constructor.
Defined.

(** *** Update *)

Section Updating.
Variable Separator : ascii.
Variable NFC : string → string.
Variable g : Generator.
Variable existingIR : IR.
Variable w : world.
Variable absRoot : path.

Local Abbreviation skip := (skip_dir Separator g).

Lemma upd_state_eta (st : upd_state) :
  {| u_files := u_files st; u_seen := u_seen st; u_log := u_log st |} = st.
Proof. by destruct st. Qed.

Lemma HashFile_readable (p : path) (content : string) :
  lookup_path (fs w) p = Some (File (Some content)) → HashFile w p = Ok (HashBytes content).
Proof. intros Hp. unfold HashFile, os_ReadFile. by rewrite Hp. Qed.

Lemma HashFile_unreadable (p : path) :
  lookup_path (fs w) p = Some (File None) → ∃ e, HashFile w p = Err e.
Proof. intros Hp. unfold HashFile, os_ReadFile. rewrite Hp. eauto. Qed.

Lemma update_visit_leaf (st : upd_state) (l : path * node) :
  lookup_path (fs w) l.1 = Some l.2 → (∀ es, l.2 ≠ Dir (Some es)) →
  visit_leaf (update_visit Separator NFC g existingIR w absRoot) st l
  = upd_leaf Separator NFC absRoot existingIR st l.
Proof.
  destruct l as [p n]. cbn [fst snd]. intros Hp Hleaf.
  unfold visit_leaf, upd_leaf, eligible_leaf, leaf_warning, upd_insert, updated_entry.
  cbn [fst snd].
  destruct n as [[c|]| |[es|]|]; cbn [visit_of update_visit info_of IsSymlink IsDir].
  - destruct (SupportsExtension (filepath_Ext p)); cbn [negb fst option_list].
    + destruct (filepath_Rel_ok Separator absRoot p) as [rel Hrel].
      rewrite Hrel, (key_of_Rel Separator NFC absRoot p rel Hrel).
      rewrite (HashFile_readable p c Hp). cbn [u_files u_seen u_log].
      rewrite (parseFile_readable w p c Hp), app_nil_r. cbn [fst snd].
      destruct (Files existingIR !! normalizePath Separator NFC rel) as [e|]; [|done].
      by destruct (decide (Hash e = HashBytes c)).
    + by rewrite app_nil_r, upd_state_eta.
  - destruct (SupportsExtension (filepath_Ext p)); cbn [negb fst option_list].
    + destruct (filepath_Rel_ok Separator absRoot p) as [rel Hrel].
      rewrite Hrel, (key_of_Rel Separator NFC absRoot p rel Hrel).
      destruct (HashFile_unreadable p Hp) as [e ->]. done.
    + by rewrite app_nil_r, upd_state_eta.
  - cbn [fst option_list]. by rewrite app_nil_r, upd_state_eta.
  - by destruct (Hleaf es).
  - done.
  - done.
Qed.

Lemma foldl_upd_leaf_files (ls : list (path * node)) (st : upd_state) :
  u_files (foldl (upd_leaf Separator NFC absRoot existingIR) st ls)
  = foldl (upd_insert Separator NFC absRoot existingIR) (u_files st) (omap eligible_leaf ls)
  ∧ u_log (foldl (upd_leaf Separator NFC absRoot existingIR) st ls)
    = u_log st ++ omap (leaf_warning WarnHash) ls.
Proof.
  revert st. induction ls as [|l ls IH]; intros st; cbn [foldl omap list_omap].
  - by rewrite app_nil_r.
  - destruct (IH (upd_leaf Separator NFC absRoot existingIR st l)) as [-> ->].
    unfold upd_leaf. cbn [u_files u_log].
    destruct (eligible_leaf l); destruct (leaf_warning WarnHash l);
      cbn [foldl option_list]; by rewrite <- ?app_assoc, ?app_nil_r.
Qed.

Lemma update_visit_dir (p : path) (st : upd_state) :
  update_visit Separator NFC g existingIR w absRoot p
    (Visit {| IsDir := true; IsSymlink := false |}) st
  = (st, if skip p then SkipDir else RetNil).
Proof. cbn [update_visit IsSymlink IsDir]. unfold skip_dir. by destruct (is_ignored g _). Qed.

Lemma update_visit_nil (p : path) (v : visit) (st : upd_state) :
  (∀ i, v = Visit i → IsDir i = false) →
  (update_visit Separator NFC g existingIR w absRoot p v st).2 = RetNil.
Proof.
  intros Hv. destruct v as [i|i e]; [|done]. cbn [update_visit].
  rewrite (Hv i eq_refl). destruct (IsSymlink i); [done|].
  destruct (negb _); [done|]. destruct (filepath_Rel _ _ _); [|done].
  destruct (HashFile w p); [|done].
  destruct (Files existingIR !! _) as [e|]; [destruct (decide _); [done|]|];
    by destruct (parseFile w p).
Qed.

(** The walk of [Update] from an entry that exists. *)
Lemma walk_update (n : node) (st : upd_state) :
  well_formed n = true → lookup_path (fs w) absRoot = Some n → n ≠ Gone →
  ∃ st' r, walk (update_visit Separator NFC g existingIR w absRoot) absRoot n st = (st', r)
           ∧ u_files st' = foldl (upd_insert Separator NFC absRoot existingIR) (u_files st)
                                 (eligible Separator g absRoot n)
           ∧ u_log st' = u_log st ++ omap (leaf_warning WarnHash) (leaves skip absRoot n)
           ∧ (r = RetNil ∨ r = SkipDir).
Proof.
  intros Hwf Hp Hne.
  destruct (walk_fold (update_visit Separator NFC g existingIR w absRoot) skip
              update_visit_dir
              (λ p c st, update_visit_nil p (Visit (info_of (File c))) st
                           (λ i Hi, ltac:(by injection Hi as <-)))
              (λ p st, update_visit_nil p (Visit (info_of Symlink)) st
                         (λ i Hi, ltac:(by injection Hi as <-)))
              (λ p i e st, update_visit_nil p (Failed i e) st (λ i' Hi, ltac:(done)))
              n absRoot st Hne) as (r & Hw & Hr).
  eexists _, r. split; [exact Hw|].
  rewrite (foldl_ext_in _ (upd_leaf Separator NFC absRoot existingIR)).
  - destruct (foldl_upd_leaf_files (leaves skip absRoot n) st) as [-> ->].
    rewrite eligible_leaves. split_and!; try done. destruct Hr as [?|[? _]]; auto.
  - intros a l Hl. destruct (leaves_lookup skip (fs w) n absRoot l Hwf Hp Hl).
    by apply update_visit_leaf.
Qed.
End Updating.

(** [Update] on a root that exists. *)
Lemma Update_walk (Separator : ascii) (NFC : string → string) (O : MapOrder) (g : Generator)
    (existingIR : IR) (w : world) (rootPath : string) (absRoot : path) (n : node) :
  well_formed (fs w) = true →
  filepath_Abs Separator w rootPath = Ok absRoot →
  lookup_path (fs w) absRoot = Some n → n ≠ Gone →
  let files := foldl (upd_insert Separator NFC absRoot existingIR) ∅
                     (eligible Separator g absRoot n) in
  Update Separator NFC O g existingIR w rootPath
  = (Ok {| Version := 1; RootHash := ComputeRootHash O files; Files := files |},
     omap (leaf_warning WarnHash) (leaves (skip_dir Separator g) absRoot n)).
Proof.
  intros Hwf Habs Hp Hne files. unfold Update, Walk, os_Lstat. rewrite Habs, Hp.
  pose proof (lookup_path_well_formed _ _ _ Hwf Hp) as Hwfn.
  destruct (walk_update Separator NFC g existingIR w absRoot n
              {| u_files := ∅; u_seen := ∅; u_log := [] |} Hwfn Hp Hne)
    as (st' & r & Hw & Hfiles & Hlog & Hr).
  assert (Hn : (match n with Gone => Err "no such file or directory" | _ => Ok n end) = Ok n).
  { by destruct n. }
  rewrite Hn, Hw. cbn [u_files u_log app] in Hfiles, Hlog.
  destruct Hr as [->| ->]; cbn [fst snd]; by rewrite Hfiles, Hlog.
Qed.

(** C4.  [Update] walks like [Generate].  For an eligible file at [p]
    whose key no later file of the walk shares: when the prior
    representation has an entry at the key whose hash is the hash of
    the file's content, the result holds that very entry; otherwise it
    holds the entry [parseFile] builds from the content.  A key that no
    eligible file has is absent from the result, whatever the prior
    representation holds there.  The root hash is computed from the
    entries of the result. *)
Theorem Update_reuses_unchanged (Separator : ascii) (NFC : string → string) (O : MapOrder)
    (g : Generator) (existingIR : IR) (w : world) (rootPath : string) (absRoot : path)
    (n : node) :
  well_formed (fs w) = true →
  filepath_Abs Separator w rootPath = Ok absRoot →
  lookup_path (fs w) absRoot = Some n → n ≠ Gone →
  ∃ ir log,
    Update Separator NFC O g existingIR w rootPath = (Ok ir, log)
    ∧ Version ir = 1%Z
    ∧ RootHash ir = ComputeRootHash O (Files ir)
    ∧ (∀ l1 p content l2,
         eligible Separator g absRoot n = l1 ++ (p, content) :: l2 →
         Forall (λ pc, key_of Separator NFC absRoot pc.1 ≠ key_of Separator NFC absRoot p) l2 →
         parseFile w p = Ok (entry_of content)
         ∧ (∀ e, Files existingIR !! key_of Separator NFC absRoot p = Some e →
                 Hash e = HashBytes content →
                 Files ir !! key_of Separator NFC absRoot p = Some e)
         ∧ ((∀ e, Files existingIR !! key_of Separator NFC absRoot p = Some e →
                  Hash e ≠ HashBytes content) →
            Files ir !! key_of Separator NFC absRoot p = Some (entry_of content)))
    ∧ (∀ k, Forall (λ pc, key_of Separator NFC absRoot pc.1 ≠ k) (eligible Separator g absRoot n) →
            Files ir !! k = None).
Proof.
  intros Hwf Habs Hp Hne.
  rewrite (Update_walk Separator NFC O g existingIR w rootPath absRoot n Hwf Habs Hp Hne).
  cbv zeta. eexists _, _. split; [reflexivity|]. cbn [Version RootHash Files].
  split_and!; try done.
  - intros l1 p content l2 Hel Hl2.
    assert (Hlook : foldl (upd_insert Separator NFC absRoot existingIR) ∅
                      (eligible Separator g absRoot n) !! key_of Separator NFC absRoot p
                    = Some (updated_entry existingIR (key_of Separator NFC absRoot p) content)).
    { unfold upd_insert. cbv zeta.
      rewrite (foldl_insert_last (λ pc : path * string, key_of Separator NFC absRoot pc.1)
                 (λ pc, updated_entry existingIR (key_of Separator NFC absRoot pc.1) pc.2)).
      rewrite Hel, last_with_app_cons; [done| |].
      - cbn [fst]. by apply bool_decide_eq_true_2.
      - apply last_with_none. eapply Forall_impl; [exact Hl2|].
        intros x Hx. by apply bool_decide_eq_false_2. }
    split_and!.
    + apply parseFile_readable.
      assert (Hin : (p, content) ∈ eligible Separator g absRoot n).
      { rewrite Hel, elem_of_app, elem_of_cons. auto. }
      rewrite eligible_leaves in Hin. apply list_elem_of_omap in Hin as ([q x] & Hq & Hx).
      pose proof (lookup_path_well_formed _ _ _ Hwf Hp) as Hwfn.
      destruct (leaves_lookup _ (fs w) n absRoot _ Hwfn Hp Hq) as [Hl _].
      unfold eligible_leaf in Hx. cbn [fst snd] in *.
      destruct x as [[c0|]| | |]; try done. destruct (SupportsExtension _); [|done].
      by injection Hx as -> ->.
    + intros e He Hh. rewrite Hlook. unfold updated_entry. rewrite He.
      by rewrite decide_True.
    + intros Hdiff. rewrite Hlook. unfold updated_entry.
      destruct (Files existingIR !! _) as [e|] eqn:He; [|done].
      rewrite decide_False; [done|]. by apply Hdiff.
  - intros k Hk. unfold upd_insert. cbv zeta.
    rewrite (foldl_insert_last (λ pc : path * string, key_of Separator NFC absRoot pc.1)
               (λ pc, updated_entry existingIR (key_of Separator NFC absRoot pc.1) pc.2)).
    rewrite last_with_none; [done|].
    eapply Forall_impl; [exact Hk|]. intros x Hx. by apply bool_decide_eq_false_2.
Qed.

Lemma Update_reuses_unchanged_witness :
  ∃ ir log,
    Update "/" nfc_cafe order_fwd default_generator prior_IR update_world "." = (Ok ir, log)
    ∧ Version ir = 1%Z
    ∧ RootHash ir = ComputeRootHash order_fwd (Files ir)
    ∧ (∀ l1 p content l2,
         eligible "/" default_generator ["proj"]
           (Dir (Some [("changed.js", File (Some "function new() {}"));
                       ("unchanged.js", File (Some "function unchanged() {}"))]))
         = l1 ++ (p, content) :: l2 →
         Forall (λ pc, key_of "/" nfc_cafe ["proj"] pc.1 ≠ key_of "/" nfc_cafe ["proj"] p) l2 →
         parseFile update_world p = Ok (entry_of content)
         ∧ (∀ e, Files prior_IR !! key_of "/" nfc_cafe ["proj"] p = Some e →
                 Hash e = HashBytes content →
                 Files ir !! key_of "/" nfc_cafe ["proj"] p = Some e)
         ∧ ((∀ e, Files prior_IR !! key_of "/" nfc_cafe ["proj"] p = Some e →
                  Hash e ≠ HashBytes content) →
            Files ir !! key_of "/" nfc_cafe ["proj"] p = Some (entry_of content)))
    ∧ (∀ k, Forall (λ pc, key_of "/" nfc_cafe ["proj"] pc.1 ≠ k)
              (eligible "/" default_generator ["proj"]
                 (Dir (Some [("changed.js", File (Some "function new() {}"));
                             ("unchanged.js", File (Some "function unchanged() {}"))]))) →
            Files ir !! k = None).
Proof.
  apply (Update_reuses_unchanged "/" nfc_cafe order_fwd default_generator prior_IR
           update_world "." ["proj"]).
  - vm_compute. reflexivity.
  - vm_compute. reflexivity.
  - vm_compute. reflexivity.
  - discriminate.
Defined.

(** The incremental-update scenario of the tests, run: the untouched
    file keeps its prior entry as it was, the modified file is parsed
    again, the file that is gone has no entry. *)
Example Update_example :
  ∃ ir, Update "/" nfc_cafe order_fwd default_generator prior_IR update_world "." = (Ok ir, [])
        ∧ Files ir !! "unchanged.js" = Some prior_unchanged
        ∧ Files ir !! "changed.js"
          = Some {| Hash := HashBytes "function new() {}"; Imports := Slice [];
                    Functions := Slice ["new"]; Classes := Slice []; Exports := Slice [] |}
        ∧ Files ir !! "gone.js" = None
        ∧ Files prior_IR !! "gone.js" ≠ None.
Proof.
  eexists. split; [vm_compute; reflexivity|].
  split_and!; [vm_compute; reflexivity..|]. vm_compute. discriminate.
Qed.

(** ** normalizePath *)

Lemma replace_separator_slash (s : string) : replace_separator "/" s = s.
Proof.
  induction s as [|c s IH]; cbn [replace_separator]; [done|].
  rewrite IH. by case_decide; subst.
Qed.

Lemma ToSlash_replace (Separator : ascii) (s : string) :
  filepath_ToSlash Separator s = replace_separator Separator s.
Proof.
  unfold filepath_ToSlash. case_decide as H; [|done]. subst. by rewrite replace_separator_slash.
Qed.

Lemma strip_dot_slash_other (a b : ascii) (r : string) :
  a ≠ "."%char ∨ b ≠ "/"%char → strip_dot_slash (String a (String b r)) = String a (String b r).
Proof.
  intros H. unfold strip_dot_slash.
  destruct a as [[] [] [] [] [] [] [] []]; try reflexivity.
  destruct b as [[] [] [] [] [] [] [] []]; try reflexivity.
  by destruct H as [H|H].
Qed.

Lemma prefix_cons (a b : ascii) (p s : string) :
  String.prefix (String a p) (String b s) = if decide (a = b) then String.prefix p s else false.
Proof. cbn [String.prefix]. destruct (ascii_dec a b); by case_decide. Qed.

Lemma TrimPrefix_dot_slash (s : string) : strings_TrimPrefix s "./" = strip_dot_slash s.
Proof.
  unfold strings_TrimPrefix.
  destruct s as [|a [|b r]].
  - done.
  - rewrite prefix_cons. case_decide as Ha; [subst a; reflexivity|].
    destruct a as [[] [] [] [] [] [] [] []]; reflexivity.
  - rewrite !prefix_cons.
    case_decide as Ha; [case_decide as Hb|].
    + subst. by destruct r.
    + by rewrite strip_dot_slash_other by auto.
    + by rewrite strip_dot_slash_other by auto.
Qed.

Lemma replace_separator_get (Separator : ascii) (s : string) (i : nat) :
  String.get i (replace_separator Separator s)
  = (λ c, if decide (c = Separator) then "/"%char else c) <$> String.get i s.
Proof.
  revert i. induction s as [|c s IH]; intros i; cbn [replace_separator String.get]; [done|].
  destruct i; [done|]. apply IH.
Qed.

Lemma replace_separator_length (Separator : ascii) (s : string) :
  String.length (replace_separator Separator s) = String.length s.
Proof. induction s as [|c s IH]; cbn; [done|]. by rewrite IH. Qed.

(** C7.  [normalizePath] is the normalization of the specification:
    every byte that is the platform separator becomes a forward slash
    and no other byte changes; then one leading [./] is dropped, and
    only one; then NFC is applied to all of what is left.  So two
    relative paths that are canonically equivalent after the first two
    steps, such as a composed and a decomposed spelling of a file name,
    get the same canonical string. *)
Theorem normalizePath_spec (Separator : ascii) (NFC : string → string) (relPath : string) :
  let slashed := filepath_ToSlash Separator relPath in
  normalizePath Separator NFC relPath = normalize_spec Separator NFC relPath
  ∧ String.length slashed = String.length relPath
  ∧ (∀ i, String.get i slashed
          = (λ c, if decide (c = Separator) then "/"%char else c) <$> String.get i relPath)
  ∧ (∀ rest, slashed = "./" +:+ rest → normalizePath Separator NFC relPath = NFC rest)
  ∧ (String.prefix "./" slashed = false → normalizePath Separator NFC relPath = NFC slashed)
  ∧ (∀ other,
       NFC (strip_dot_slash (filepath_ToSlash Separator other)) = NFC (strip_dot_slash slashed) →
       normalizePath Separator NFC other = normalizePath Separator NFC relPath).
Proof.
  intros slashed. unfold normalizePath, normalize_spec. cbv zeta. fold slashed.
  split_and!.
  - unfold slashed. by rewrite TrimPrefix_dot_slash, ToSlash_replace.
  - unfold slashed. by rewrite ToSlash_replace, replace_separator_length.
  - intros i. unfold slashed. by rewrite ToSlash_replace, replace_separator_get.
  - intros rest ->. by rewrite TrimPrefix_dot_slash.
  - intros Hno. unfold strings_TrimPrefix. by rewrite Hno.
  - intros other Heq. by rewrite !TrimPrefix_dot_slash.
Qed.

(** The two spellings of [café.ts] get one key, under a normalizer that
    composes the name. *)
Example normalizePath_cafe :
  cafe_nfd ≠ cafe_nfc
  ∧ normalizePath "/" nfc_cafe cafe_nfd = normalizePath "/" nfc_cafe cafe_nfc
  ∧ normalizePath "\" nfc_cafe ".\.\a\b.js" = "./a/b.js".
Proof. split_and!; [discriminate|vm_compute; reflexivity..]. Qed.

(** * More properties of the code *)

(** ** NewGenerator *)

Lemma foldl_insert_true (l : list string) (k : string) :
  foldl (λ (m : gmap string bool) p, <[p := true]> m) ∅ l !! k
  = if decide (k ∈ l) then Some true else None.
Proof. by rewrite (foldl_insert_lookup (λ _, true)), lookup_empty. Qed.

(** X1.  A generator made from a configuration that names directories
    ignores exactly those: the defaults are not added to them.  Made
    from a configuration that names none, it ignores exactly
    [node_modules], [dist], [.git], [.cursor] and [.vscode]. *)
Theorem NewGenerator_ignored (config : GeneratorConfig) (dirName : string) :
  is_ignored (NewGenerator config) dirName = true
  ↔ match IgnoredPaths config with
    | [] => dirName ∈ default_ignored
    | _ => dirName ∈ IgnoredPaths config
    end.
Proof.
  unfold NewGenerator, is_ignored. cbn [ignoredPaths].
  destruct (IgnoredPaths config) as [|p l] eqn:E.
  - cbn [foldl]. rewrite map_size_empty. cbn [Nat.eqb].
    unfold default_ignored. rewrite !elem_of_cons, elem_of_nil.
    destruct (decide (dirName = ".vscode")) as [->|?]; [rewrite lookup_insert_eq; naive_solver|].
    rewrite lookup_insert_ne by done.
    destruct (decide (dirName = ".cursor")) as [->|?]; [rewrite lookup_insert_eq; naive_solver|].
    rewrite lookup_insert_ne by done.
    destruct (decide (dirName = ".git")) as [->|?]; [rewrite lookup_insert_eq; naive_solver|].
    rewrite lookup_insert_ne by done.
    destruct (decide (dirName = "dist")) as [->|?]; [rewrite lookup_insert_eq; naive_solver|].
    rewrite lookup_insert_ne by done.
    destruct (decide (dirName = "node_modules")) as [->|?]; [rewrite lookup_insert_eq; naive_solver|].
    rewrite lookup_insert_ne, lookup_empty by done. naive_solver.
  - assert (Hsize : Nat.eqb (size (foldl (λ (m : gmap string bool) path, <[path := true]> m)
                                      ∅ (p :: l))) 0 = false).
    { apply Nat.eqb_neq. intros Hz%map_size_empty_iff.
      pose proof (foldl_insert_true (p :: l) p) as Hp. rewrite Hz, lookup_empty in Hp.
      rewrite decide_True in Hp by (rewrite elem_of_cons; auto). done. }
    rewrite Hsize, foldl_insert_true.
    destruct (decide (dirName ∈ p :: l)); cbn; naive_solver.
Qed.

(** ** Generate and Update: errors *)

Lemma filepath_Abs_fails (Separator : ascii) (w : world) (rootPath : string) :
  is_ok (filepath_Abs Separator w rootPath) = false
  ↔ is_relative Separator rootPath = true ∧ cwd w = None.
Proof.
  unfold filepath_Abs, is_relative. destruct rootPath as [|c r].
  - destruct (cwd w); cbn; naive_solver.
  - case_decide; [rewrite bool_decide_eq_true_2 by done; cbn; naive_solver|].
    rewrite bool_decide_eq_false_2 by done. destruct (cwd w); cbn; naive_solver.
Qed.

Lemma Walk_generate_nil (Separator : ascii) (NFC : string → string) (g : Generator) (w : world)
    (absRoot : path) (st : gen_state) :
  (Walk (generate_visit Separator NFC g w absRoot) w absRoot st).2 = None.
Proof.
  unfold Walk. destruct (os_Lstat w absRoot) as [n|e] eqn:E.
  - assert (Hne : n ≠ Gone).
    { unfold os_Lstat in E. destruct (lookup_path (fs w) absRoot) as [[]|]; by simplify_eq. }
    destruct (walk_fold (generate_visit Separator NFC g w absRoot) (skip_dir Separator g)
                (generate_visit_dir Separator NFC g w absRoot)
                (λ p c st, generate_visit_nil Separator NFC g w absRoot p
                             (Visit (info_of (File c))) st
                             (λ i Hi, ltac:(by injection Hi as <-)))
                (λ p st, generate_visit_nil Separator NFC g w absRoot p
                           (Visit (info_of Symlink)) st
                           (λ i Hi, ltac:(by injection Hi as <-)))
                (λ p i e st, generate_visit_nil Separator NFC g w absRoot p (Failed i e) st
                               (λ i' Hi, ltac:(done)))
                n absRoot st Hne) as (r & -> & [->|[-> _]]); done.
  - by rewrite (generate_visit_nil Separator NFC g w absRoot absRoot (Failed None e) st).
Qed.

Lemma Walk_update_nil (Separator : ascii) (NFC : string → string) (g : Generator)
    (existingIR : IR) (w : world) (absRoot : path) (st : upd_state) :
  (Walk (update_visit Separator NFC g existingIR w absRoot) w absRoot st).2 = None.
Proof.
  unfold Walk. destruct (os_Lstat w absRoot) as [n|e] eqn:E.
  - assert (Hne : n ≠ Gone).
    { unfold os_Lstat in E. destruct (lookup_path (fs w) absRoot) as [[]|]; by simplify_eq. }
    destruct (walk_fold (update_visit Separator NFC g existingIR w absRoot) (skip_dir Separator g)
                (update_visit_dir Separator NFC g existingIR w absRoot)
                (λ p c st, update_visit_nil Separator NFC g existingIR w absRoot p
                             (Visit (info_of (File c))) st
                             (λ i Hi, ltac:(by injection Hi as <-)))
                (λ p st, update_visit_nil Separator NFC g existingIR w absRoot p
                           (Visit (info_of Symlink)) st
                           (λ i Hi, ltac:(by injection Hi as <-)))
                (λ p i e st, update_visit_nil Separator NFC g existingIR w absRoot p (Failed i e) st
                               (λ i' Hi, ltac:(done)))
                n absRoot st Hne) as (r & -> & [->|[-> _]]); done.
  - by rewrite (update_visit_nil Separator NFC g existingIR w absRoot absRoot (Failed None e) st).
Qed.

(** X2.  Whatever the file system holds, [Generate] and [Update] return
    an error in one case only: the root path is relative and the
    working directory cannot be determined.  Files that cannot be read,
    directories that cannot be listed, entries that vanish and a root
    that does not exist never make them fail. *)
Theorem Generate_Update_fail_iff (Separator : ascii) (NFC : string → string) (O : MapOrder)
    (g : Generator) (existingIR : IR) (w : world) (rootPath : string) :
  (is_ok (Generate Separator NFC O g w rootPath).1 = false
   ↔ is_relative Separator rootPath = true ∧ cwd w = None)
  ∧ (is_ok (Update Separator NFC O g existingIR w rootPath).1 = false
     ↔ is_relative Separator rootPath = true ∧ cwd w = None).
Proof.
  rewrite <- filepath_Abs_fails. unfold Generate, Update.
  destruct (filepath_Abs Separator w rootPath) as [absRoot|e]; [|by split].
  split.
  - pose proof (Walk_generate_nil Separator NFC g w absRoot {| g_files := ∅; g_log := [] |}) as H.
    destruct (Walk _ w absRoot _) as [st err]. cbn [snd] in H. by subst err.
  - pose proof (Walk_update_nil Separator NFC g existingIR w absRoot
                  {| u_files := ∅; u_seen := ∅; u_log := [] |}) as H.
    destruct (Walk _ w absRoot _) as [st err]. cbn [snd] in H. by subst err.
Qed.

(** ** Generate: results *)

Lemma ComputeRootHash_order (O O' : MapOrder) (files : gmap string FileIR) :
  ComputeRootHash O files = ComputeRootHash O' files.
Proof.
  unfold ComputeRootHash. destruct (Nat.eqb (size files) 0); [done|].
  cbv zeta. by rewrite !sorted_range_keys.
Qed.

(** X3.  The order in which Go iterates a map has no part in the result
    of [Generate] and [Update], nor in the bytes [MarshalJSON] writes
    for it: two runs on the same tree give the same representation and
    the same serialized text. *)
Theorem Generate_deterministic (Separator : ascii) (NFC : string → string)
    (quote : string → string) (O O' O1 O2 O1' O2' : MapOrder)
    (g : Generator) (existingIR : IR) (w : world) (rootPath : string) :
  Generate Separator NFC O g w rootPath = Generate Separator NFC O' g w rootPath
  ∧ Update Separator NFC O g existingIR w rootPath
    = Update Separator NFC O' g existingIR w rootPath
  ∧ ∀ ir ir' log log',
      Generate Separator NFC O g w rootPath = (Ok ir, log) →
      Generate Separator NFC O' g w rootPath = (Ok ir', log') →
      MarshalJSON quote O1 O2 ir = MarshalJSON quote O1' O2' ir'.
Proof.
  assert (HG : Generate Separator NFC O g w rootPath = Generate Separator NFC O' g w rootPath).
  { unfold Generate. destruct (filepath_Abs Separator w rootPath); [|done].
    destruct (Walk _ w _ _) as [st [e|]]; [done|].
    by rewrite (ComputeRootHash_order O O'). }
  split_and!; [done| |].
  - unfold Update. destruct (filepath_Abs Separator w rootPath); [|done].
    destruct (Walk _ w _ _) as [st [e|]]; [done|].
    by rewrite (ComputeRootHash_order O O').
  - intros ir ir' log log' H1 H2. rewrite HG, H2 in H1. injection H1 as <- _.
    unfold MarshalJSON. by rewrite !MarshalJSON_tree_eq.
Qed.

(** X4.  When the walk reaches no eligible file, for instance in an
    empty directory, in one with other kinds of files only, or when the
    root directory itself has an ignored name, [Generate] returns the
    empty representation: version 1, no files, and the hash of no bytes
    as root hash. *)
Theorem Generate_nothing_eligible (Separator : ascii) (NFC : string → string) (O : MapOrder)
    (g : Generator) (w : world) (rootPath : string) (absRoot : path) (n : node) :
  well_formed (fs w) = true →
  filepath_Abs Separator w rootPath = Ok absRoot →
  lookup_path (fs w) absRoot = Some n → n ≠ Gone →
  eligible Separator g absRoot n = [] →
  (Generate Separator NFC O g w rootPath).1
  = Ok {| Version := 1; RootHash := HashBytes ""; Files := ∅ |}.
Proof.
  intros Hwf Habs Hp Hne Hel.
  rewrite (Generate_walk Separator NFC O g w rootPath absRoot n Hwf Habs Hp Hne).
  cbv zeta. rewrite Hel. cbn [fst foldl]. by rewrite ComputeRootHash_empty.
Qed.

Lemma Generate_nothing_eligible_witness :
  (Generate "/" nfc_cafe order_fwd default_generator ignored_root_world "/node_modules").1
  = Ok {| Version := 1; RootHash := HashBytes ""; Files := ∅ |}.
Proof.
  apply (Generate_nothing_eligible "/" nfc_cafe order_fwd default_generator ignored_root_world
           "/node_modules" ["node_modules"]
           (Dir (Some [("x.js", File (Some "function x() {}"))]))).
  - vm_compute. reflexivity.
  - vm_compute. reflexivity.
  - vm_compute. reflexivity.
  - discriminate.
  - vm_compute. reflexivity.
Defined.

Lemma last_with_Some {A} (P : A → bool) (l : list A) (x : A) :
  last_with P l = Some x → x ∈ l ∧ P x = true.
Proof.
  induction l as [|y l IH]; cbn [last_with]; [done|].
  destruct (last_with P l) as [z|].
  - intros [= ->]. destruct (IH eq_refl). split; [rewrite elem_of_cons; auto|done].
  - destruct (P y) eqn:E; [|done]. intros [= ->]. split; [rewrite elem_of_cons; auto|done].
Qed.

Lemma leaves_extend (skip : path → bool) (n : node) (p : path) (l : path * node) :
  l ∈ leaves skip p n → ∃ rel, l.1 = p ++ rel.
Proof.
  revert p. induction n as [c| | | |es IH] using node_ind_nested; intros p;
    try (cbn [leaves]; intros ->%list_elem_of_singleton; exists []; by rewrite app_nil_r).
  rewrite leaves_dir. destruct (skip p); [by intros ?%elem_of_nil|].
  rewrite elem_of_leaves_entries. intros (name & child & Hin & Hl).
  rewrite Forall_forall in IH.
  destruct (IH (name, child) Hin (p ++ [name]) Hl) as [rel ->].
  exists (name :: rel). by rewrite <- app_assoc.
Qed.

(** The eligible files are regular files that can be read, below the
    root, with a supported extension. *)
Lemma eligible_files (Separator : ascii) (g : Generator) (w : world) (absRoot : path) (n : node)
    (p : path) (content : string) :
  well_formed n = true → lookup_path (fs w) absRoot = Some n →
  (p, content) ∈ eligible Separator g absRoot n →
  lookup_path (fs w) p = Some (File (Some content))
  ∧ SupportsExtension (filepath_Ext p) = true
  ∧ ∃ rel, p = absRoot ++ rel.
Proof.
  intros Hwf Hp Hin. rewrite eligible_leaves in Hin.
  apply list_elem_of_omap in Hin as ([q x] & Hq & Hx).
  destruct (leaves_lookup _ (fs w) n absRoot _ Hwf Hp Hq) as [Hl _].
  destruct (leaves_extend _ n absRoot _ Hq) as [rel Hrel].
  unfold eligible_leaf in Hx. cbn [fst snd] in *.
  destruct x as [[c0|]| | |]; try done.
  destruct (SupportsExtension (filepath_Ext q)) eqn:E; [|done].
  injection Hx as -> ->. eauto.
Qed.

Lemma sort_Strings_sorted_id (l : list string) : Sorted String.le l → sort_Strings l = l.
Proof.
  intros Hs. apply (Sorted_unique String.le); [apply sort_Strings_Sorted|done|].
  apply sort_Strings_perm.
Qed.

Lemma sort_slice_sorted_set (s : slice string) : sorted_set s → sort_slice s = s.
Proof.
  intros (Hnil & Hs & _). destruct s as [|l]; [done|]. cbn [sort_slice elems] in *.
  by rewrite sort_Strings_sorted_id.
Qed.

(** The entry of a file: the hash of its bytes and the lists of [Parse]. *)
Lemma entry_of_Parse (content : string) :
  ∃ structure, Parse content = Ok structure
    ∧ entry_of content
      = {| Hash := HashBytes content;
           Imports := fs_Imports structure; Functions := fs_Functions structure;
           Classes := fs_Classes structure; Exports := fs_Exports structure |}.
Proof.
  eexists. split; [reflexivity|]. unfold entry_of, Parse.
  cbn [fs_Imports fs_Functions fs_Classes fs_Exports].
  set (src := removeComments content).
  rewrite (sort_slice_sorted_set (deduplicate (sort_slice (extractImports src))))
    by apply dedup_sort_sorted_set, extractImports_not_nil.
  rewrite (sort_slice_sorted_set (deduplicate (sort_slice (extractFunctions src))))
    by apply dedup_sort_sorted_set, extractFunctions_not_nil.
  rewrite (sort_slice_sorted_set (deduplicate (sort_slice (extractClasses src))))
    by apply dedup_sort_sorted_set, extractClasses_not_nil.
  rewrite (sort_slice_sorted_set (deduplicate (sort_slice (extractExports src))))
    by apply dedup_sort_sorted_set, extractExports_not_nil.
  reflexivity.
Qed.

Lemma entry_of_Hash (content : string) : Hash (entry_of content) = HashBytes content.
Proof. reflexivity. Qed.

Lemma entry_of_sorted (content : string) :
  sorted_set (Imports (entry_of content)) ∧ sorted_set (Functions (entry_of content))
  ∧ sorted_set (Classes (entry_of content)) ∧ sorted_set (Exports (entry_of content)).
Proof.
  destruct (entry_of_Parse content) as (structure & Hparse & ->).
  cbn [Imports Functions Classes Exports].
  injection Hparse as <-. cbn [fs_Imports fs_Functions fs_Classes fs_Exports].
  split_and!; apply dedup_sort_sorted_set;
    [apply extractImports_not_nil|apply extractFunctions_not_nil
    |apply extractClasses_not_nil|apply extractExports_not_nil].
Qed.

(** X5.  For a root that exists, [Generate] returns a representation of
    version 1 whose root hash is the hash of its own entries, and every
    entry in it comes from a file of the tree: a regular file below the
    root that can be read and whose extension is supported, stored
    under the normalized path of that file relative to the root.  The
    entry has the hash of the file's bytes, and its four lists are
    non-nil, ascending and free of duplicates. *)
Theorem Generate_entries (Separator : ascii) (NFC : string → string) (O : MapOrder)
    (g : Generator) (w : world) (rootPath : string) (absRoot : path) (n : node) :
  well_formed (fs w) = true →
  filepath_Abs Separator w rootPath = Ok absRoot →
  lookup_path (fs w) absRoot = Some n → n ≠ Gone →
  ∃ ir log,
    Generate Separator NFC O g w rootPath = (Ok ir, log)
    ∧ Version ir = 1%Z
    ∧ RootHash ir = ComputeRootHash O (Files ir)
    ∧ ∀ k f, Files ir !! k = Some f →
        ∃ rel content relPath,
          lookup_path (fs w) (absRoot ++ rel) = Some (File (Some content))
          ∧ SupportsExtension (filepath_Ext (absRoot ++ rel)) = true
          ∧ filepath_Rel Separator absRoot (absRoot ++ rel) = Ok relPath
          ∧ k = normalizePath Separator NFC relPath
          ∧ Hash f = HashBytes content
          ∧ sorted_set (Imports f) ∧ sorted_set (Functions f)
          ∧ sorted_set (Classes f) ∧ sorted_set (Exports f).
Proof.
  intros Hwf Habs Hp Hne.
  rewrite (Generate_walk Separator NFC O g w rootPath absRoot n Hwf Habs Hp Hne).
  cbv zeta. eexists _, _. split; [reflexivity|]. cbn [Version RootHash Files].
  split_and!; try done.
  intros k f. unfold gen_insert. rewrite foldl_insert_last.
  destruct (last_with _ _) as [[p c]|] eqn:E; [|by rewrite lookup_empty].
  intros [= <-]. apply last_with_Some in E as [Hin Hk].
  apply bool_decide_eq_true in Hk. cbn [fst snd] in *.
  pose proof (lookup_path_well_formed _ _ _ Hwf Hp) as Hwfn.
  destruct (eligible_files Separator g w absRoot n p c Hwfn Hp Hin) as (Hl & Hext & rel & ->).
  destruct (filepath_Rel_ok Separator absRoot (absRoot ++ rel)) as [relPath Hrel].
  exists rel, c, relPath. rewrite <- Hk, (key_of_Rel Separator NFC absRoot _ relPath Hrel).
  pose proof (entry_of_sorted c) as (? & ? & ? & ?).
  by split_and!.
Qed.

Lemma Generate_entries_witness :
  ∃ ir log,
    Generate "/" nfc_cafe order_fwd default_generator one_file_world "proj" = (Ok ir, log)
    ∧ Version ir = 1%Z
    ∧ RootHash ir = ComputeRootHash order_fwd (Files ir)
    ∧ ∀ k f, Files ir !! k = Some f →
        ∃ rel content relPath,
          lookup_path (fs one_file_world) (["proj"] ++ rel) = Some (File (Some content))
          ∧ SupportsExtension (filepath_Ext (["proj"] ++ rel)) = true
          ∧ filepath_Rel "/" ["proj"] (["proj"] ++ rel) = Ok relPath
          ∧ k = normalizePath "/" nfc_cafe relPath
          ∧ Hash f = HashBytes content
          ∧ sorted_set (Imports f) ∧ sorted_set (Functions f)
          ∧ sorted_set (Classes f) ∧ sorted_set (Exports f).
Proof.
  apply (Generate_entries "/" nfc_cafe order_fwd default_generator one_file_world "proj"
           ["proj"] (Dir (Some [("a.js", File (Some "class A {}"))]))).
  - vm_compute. reflexivity.
  - vm_compute. reflexivity.
  - vm_compute. reflexivity.
  - discriminate.
Defined.

(** X6.  An update right after a generation changes nothing: on the
    tree [Generate] has just read, [Update] from its result returns the
    same representation, whatever the iteration orders of the two
    runs. *)
Theorem Update_after_Generate (Separator : ascii) (NFC : string → string) (O O' : MapOrder)
    (g : Generator) (w : world) (rootPath : string) (absRoot : path) (n : node)
    (ir : IR) (log : list warning) :
  well_formed (fs w) = true →
  filepath_Abs Separator w rootPath = Ok absRoot →
  lookup_path (fs w) absRoot = Some n → n ≠ Gone →
  Generate Separator NFC O g w rootPath = (Ok ir, log) →
  (Update Separator NFC O' g ir w rootPath).1 = Ok ir.
Proof.
  intros Hwf Habs Hp Hne.
  rewrite (Generate_walk Separator NFC O g w rootPath absRoot n Hwf Habs Hp Hne).
  cbv zeta. intros [= <- _].
  rewrite (Update_walk Separator NFC O' g _ w rootPath absRoot n Hwf Habs Hp Hne).
  cbv zeta. cbn [fst].
  set (files := foldl (gen_insert Separator NFC absRoot) ∅ (eligible Separator g absRoot n)).
  assert (Heq : foldl (upd_insert Separator NFC absRoot
                         {| Version := 1; RootHash := ComputeRootHash O files; Files := files |})
                  ∅ (eligible Separator g absRoot n) = files).
  { apply map_eq. intros k. unfold files, upd_insert, gen_insert. cbv zeta.
    rewrite (foldl_insert_last (λ pc : path * string, key_of Separator NFC absRoot pc.1)
               (λ pc, updated_entry _ (key_of Separator NFC absRoot pc.1) pc.2)).
    rewrite (foldl_insert_last (λ pc : path * string, key_of Separator NFC absRoot pc.1)
               (λ pc, entry_of pc.2)).
    destruct (last_with _ _) as [[p c]|] eqn:E; [|done].
    pose proof (last_with_Some _ _ _ E) as [_ Hk]. apply bool_decide_eq_true in Hk.
    cbn [fst snd] in *. f_equal. unfold updated_entry. cbn [Files]. rewrite Hk.
    rewrite (foldl_insert_last (λ pc : path * string, key_of Separator NFC absRoot pc.1)
               (λ pc, entry_of pc.2)), E.
    cbn [snd]. by rewrite decide_True by apply entry_of_Hash. }
  rewrite Heq. by rewrite (ComputeRootHash_order O' O).
Qed.

Lemma Update_after_Generate_witness :
  (Update "/" nfc_cafe order_rev default_generator
     {| Version := 1;
        RootHash := ComputeRootHash order_fwd
                      (foldl (gen_insert "/" nfc_cafe ["proj"]) ∅
                         (eligible "/" default_generator ["proj"]
                            (Dir (Some [("a.js", File (Some "class A {}"))]))));
        Files := foldl (gen_insert "/" nfc_cafe ["proj"]) ∅
                   (eligible "/" default_generator ["proj"]
                      (Dir (Some [("a.js", File (Some "class A {}"))]))) |}
     one_file_world "proj").1
  = Ok {| Version := 1;
          RootHash := ComputeRootHash order_fwd
                        (foldl (gen_insert "/" nfc_cafe ["proj"]) ∅
                           (eligible "/" default_generator ["proj"]
                              (Dir (Some [("a.js", File (Some "class A {}"))]))));
          Files := foldl (gen_insert "/" nfc_cafe ["proj"]) ∅
                     (eligible "/" default_generator ["proj"]
                        (Dir (Some [("a.js", File (Some "class A {}"))]))) |}.
Proof.
  apply (Update_after_Generate "/" nfc_cafe order_fwd order_rev default_generator one_file_world
           "proj" ["proj"] (Dir (Some [("a.js", File (Some "class A {}"))])) _ []).
  - vm_compute. reflexivity.
  - vm_compute. reflexivity.
  - vm_compute. reflexivity.
  - discriminate.
  - vm_compute. reflexivity.
Defined.

(** ** parseFile, HashFile and paths *)

(** X7.  For a file that can be read, [HashFile] is [HashBytes] of its
    content and [parseFile] returns the entry with that hash and the
    four lists exactly as [Parse] returns them: sorting them again
    changes nothing.  For anything that is not a readable regular file
    both fail, and [parseFile] builds no entry. *)
Theorem parseFile_entry (w : world) (p : path) :
  match lookup_path (fs w) p with
  | Some (File (Some content)) =>
      HashFile w p = Ok (HashBytes content)
      ∧ ∃ structure, Parse content = Ok structure
          ∧ parseFile w p
            = Ok {| Hash := HashBytes content;
                    Imports := fs_Imports structure; Functions := fs_Functions structure;
                    Classes := fs_Classes structure; Exports := fs_Exports structure |}
  | _ => is_ok (HashFile w p) = false ∧ is_ok (parseFile w p) = false
  end.
Proof.
  destruct (lookup_path (fs w) p) as [[[content|]| |l|]|] eqn:Hp;
    try (unfold HashFile, parseFile, os_ReadFile; rewrite Hp; by split).
  split; [by apply HashFile_readable|].
  destruct (entry_of_Parse content) as (structure & Hparse & Hentry).
  exists structure. split; [done|]. by rewrite (parseFile_readable w p content Hp), Hentry.
Qed.

Lemma rel_components_app (base rel : path) : rel_components base (base ++ rel) = ([], rel).
Proof.
  induction base as [|b base IH]; cbn [rel_components app]; [by destruct rel|].
  by rewrite decide_True.
Qed.

(** X8.  The key of a file [rel] below the root is the normalization of
    the components of [rel] joined by the separator; the key of the
    root itself is the normalization of [.]. *)
Theorem key_of_below_root (Separator : ascii) (NFC : string → string) (absRoot rel : path) :
  key_of Separator NFC absRoot (absRoot ++ rel)
  = normalizePath Separator NFC
      (match rel with
       | [] => "."
       | _ => strings_Join rel (String Separator "")
       end).
Proof.
  unfold key_of, filepath_Rel. rewrite rel_components_app. cbn [fmap list_fmap app].
  by destruct rel.
Qed.

(** X9.  When the root path names a file with a supported extension
    rather than a directory, [Generate] returns one entry, that of the
    file, under the normalization of [.]. *)
Theorem Generate_root_file (Separator : ascii) (NFC : string → string) (O : MapOrder)
    (g : Generator) (w : world) (rootPath : string) (absRoot : path) (content : string) :
  well_formed (fs w) = true →
  filepath_Abs Separator w rootPath = Ok absRoot →
  lookup_path (fs w) absRoot = Some (File (Some content)) →
  SupportsExtension (filepath_Ext absRoot) = true →
  ∃ ir, (Generate Separator NFC O g w rootPath).1 = Ok ir
        ∧ Files ir = {[ normalizePath Separator NFC "." := entry_of content ]}.
Proof.
  intros Hwf Habs Hp Hext.
  rewrite (Generate_walk Separator NFC O g w rootPath absRoot _ Hwf Habs Hp) by done.
  cbv zeta. cbn [fst eligible]. rewrite Hext. cbn [foldl]. unfold gen_insert. cbn [fst snd].
  eexists. split; [reflexivity|]. cbn [Files].
  assert (Hk : key_of Separator NFC absRoot absRoot = normalizePath Separator NFC ".").
  { pose proof (rel_components_app absRoot []) as Hr. rewrite app_nil_r in Hr.
    unfold key_of, filepath_Rel. by rewrite Hr. }
  rewrite Hk. done.
Qed.

Lemma Generate_root_file_witness :
  ∃ ir, (Generate "/" nfc_cafe order_fwd default_generator one_file_world "/proj/a.js").1 = Ok ir
        ∧ Files ir = {[ normalizePath "/" nfc_cafe "." := entry_of "class A {}" ]}.
Proof.
  apply (Generate_root_file "/" nfc_cafe order_fwd default_generator one_file_world
           "/proj/a.js" ["proj"; "a.js"] "class A {}").
  - vm_compute. reflexivity.
  - vm_compute. reflexivity.
  - vm_compute. reflexivity.
  - vm_compute. reflexivity.
Defined.

(** The extension of a name that ends in a dot and a dot-free suffix is
    that dot and suffix, whatever comes before. *)
Lemma name_ext_no_dot (s : string) :
  "."%char ∉ String.list_ascii_of_string s → name_ext s = "".
Proof.
  induction s as [|c s IH]; cbn [name_ext String.list_ascii_of_string]; [done|].
  intros Hnot. rewrite IH by (intros ?; apply Hnot; rewrite elem_of_cons; auto).
  rewrite decide_False; [done|]. intros ->. apply Hnot. rewrite elem_of_cons. auto.
Qed.

(** X10.  [filepath.Ext] of a file name is what follows its last dot,
    with the dot: a name [stem.e] with no dot in [e] has extension [.e]
    whatever dots [stem] has, and a name without a dot has none.  So
    [a.test.js] is a supported file and [a.js.bak] is not. *)
Theorem name_ext_last_dot (stem e : string) :
  "."%char ∉ String.list_ascii_of_string e →
  name_ext (stem +:+ "." +:+ e) = "." +:+ e
  ∧ name_ext e = ""
  ∧ SupportsExtension (name_ext (stem +:+ "." +:+ e))
    = bool_decide (e = "js") || bool_decide (e = "ts") || bool_decide (e = "gs").
Proof.
  intros He.
  assert (H1 : name_ext (stem +:+ "." +:+ e) = "." +:+ e).
  { induction stem as [|c stem IH].
    - rewrite str_app_nil_l. change ("." +:+ e) with (String "." e).
      cbn [name_ext]. by rewrite (name_ext_no_dot e He), decide_True.
    - rewrite str_app_cons. cbn [name_ext]. rewrite IH.
      change ("." +:+ e) with (String "." e). done. }
  split_and!; [done|by apply name_ext_no_dot|].
  rewrite H1. unfold SupportsExtension. change ("." +:+ e) with (String "." e).
  f_equal; [f_equal|]; apply bool_decide_ext; split; intros H; by simplify_eq.
Qed.

Lemma name_ext_last_dot_witness :
  name_ext ("a.test" +:+ "." +:+ "js") = "." +:+ "js"
  ∧ name_ext "js" = ""
  ∧ SupportsExtension (name_ext ("a.test" +:+ "." +:+ "js"))
    = bool_decide ("js" = "js") || bool_decide ("js" = "ts") || bool_decide ("js" = "gs").
Proof.
  apply (name_ext_last_dot "a.test" "js").
  refine (bool_decide_unpack _ _). vm_compute. exact I.
Defined.

(** ** Load and MarshalJSON *)

Lemma decode_members_is_ok {A} (step : A → string * json → result A) (ok : string * json → bool)
    (members : list (string * json)) (a : A) :
  (∀ a kv, is_ok (step a kv) = ok kv) →
  is_ok (decode_members step a members) = forallb ok members.
Proof.
  intros Hstep. revert a. induction members as [|kv members IH]; intros a; cbn; [done|].
  rewrite <- (Hstep a kv). destruct (step a kv); cbn; [apply IH|done].
Qed.

Lemma decode_string_is_ok (cur : string) (v : json) :
  is_ok (decode_string cur v) = string_value v.
Proof. by destruct v. Qed.

Lemma decode_elements_is_ok (items : list json) :
  is_ok (decode_elements items) = forallb string_value items.
Proof.
  induction items as [|x items IH]; cbn [decode_elements forallb]; [done|].
  rewrite <- IH, <- (decode_string_is_ok "" x).
  destruct (decode_string "" x); destruct (decode_elements items); done.
Qed.

Lemma decode_strings_is_ok (v : json) : is_ok (decode_strings v) = strings_value v.
Proof.
  destruct v; try done. cbn [decode_strings strings_value].
  rewrite <- decode_elements_is_ok. by destruct (decode_elements items).
Qed.

Lemma decode_int_is_ok (cur : Z) (v : json) : is_ok (decode_int cur v) = int_value v.
Proof. destruct v; try done. cbn. by destruct (_ && _). Qed.

Lemma decode_FileIR_member_is_ok (f : FileIR) (kv : string * json) :
  is_ok (decode_FileIR_member f kv) = member_ok kv.
Proof.
  unfold decode_FileIR_member, member_ok.
  destruct (find_field FileIR_fields kv.1) as [name|]; [|done].
  repeat case_decide;
    try (rewrite <- (decode_string_is_ok (Hash f)); by destruct (decode_string _ _));
    rewrite <- decode_strings_is_ok; by destruct (decode_strings _).
Qed.

Lemma decode_FileIR_is_ok (cur : FileIR) (kv : string * json) :
  is_ok (decode_FileIR cur kv.2) = entry_ok kv.
Proof.
  unfold decode_FileIR, entry_ok. destruct kv.2; try done.
  apply decode_members_is_ok, decode_FileIR_member_is_ok.
Qed.

Lemma decode_Files_is_ok (cur : gmap string FileIR) (v : json) :
  is_ok (decode_Files cur v) = files_value v.
Proof.
  destruct v; try done. cbn [decode_Files files_value].
  apply decode_members_is_ok. intros a kv.
  rewrite <- (decode_FileIR_is_ok zeroFileIR kv). by destruct (decode_FileIR _ _).
Qed.

Lemma decode_IR_member_is_ok (ir : IR) (kv : string * json) :
  is_ok (decode_IR_member ir kv) = ir_member_ok kv.
Proof.
  unfold decode_IR_member, ir_member_ok.
  destruct (find_field IR_fields kv.1) as [name|]; [|done].
  repeat case_decide.
  - rewrite <- (decode_int_is_ok (Version ir)). by destruct (decode_int _ _).
  - rewrite <- (decode_string_is_ok (RootHash ir)). by destruct (decode_string _ _).
  - rewrite <- (decode_Files_is_ok (Files ir)). by destruct (decode_Files _ _).
Qed.

(** X11.  [Load] succeeds exactly when the file can be read and holds
    JSON text that is either [null] or an object in which every member
    that selects a field has a value the field accepts.  It checks
    nothing else: members may be missing, and an empty object and
    [null] load as the zero representation, version 0 included. *)
Theorem Load_ok_iff (file : result (option json)) :
  (is_ok (Load file) = true ↔ ∃ data, file = Ok data ∧ document_ok data = true)
  ∧ Load (Ok (Some (JObject []))) = Ok {| Version := 0; RootHash := ""; Files := ∅ |}
  ∧ Load (Ok (Some JNull)) = Ok {| Version := 0; RootHash := ""; Files := ∅ |}
  ∧ is_ok (Load (Ok None)) = false.
Proof.
  split_and!; try reflexivity.
  destruct file as [data|e]; [|split; [done|by intros (? & ? & _)]].
  assert (H : is_ok (Load (Ok data)) = document_ok data).
  { unfold Load, UnmarshalJSON, Unmarshal_aux, document_ok.
    destruct data as [[| | | | | |members]|]; try reflexivity.
    rewrite <- (decode_members_is_ok decode_IR_member ir_member_ok members zeroIR
                  decode_IR_member_is_ok).
    by destruct (decode_members _ _ _). }
  rewrite H. split; [eauto|]. by intros (? & [= <-] & ?).
Qed.












(** ** deduplicate on any slice *)

Lemma dedup_from_sublist (prev : string) (rest : list string) :
  dedup_from prev rest `sublist_of` rest.
Proof.
  revert prev. induction rest as [|y rest IH]; intros prev; cbn [dedup_from]; [done|].
  destruct (decide (y = prev)); [apply sublist_cons|apply sublist_skip]; apply IH.
Qed.

(** No two neighbours of [prev :: dedup_from prev rest] are equal. *)
Lemma dedup_from_neighbours (prev : string) (rest : list string) (i : nat) (x y : string) :
  (prev :: dedup_from prev rest) !! i = Some x →
  (prev :: dedup_from prev rest) !! S i = Some y →
  x ≠ y.
Proof.
  revert prev i. induction rest as [|z rest IH]; intros prev i; cbn [dedup_from].
  - destruct i; done.
  - destruct (decide (z = prev)) as [->|Hne]; [apply IH|].
    destruct i as [|i]; [|apply IH].
    cbn. intros [= <-] [= <-]. done.
Qed.

Lemma dedup_from_fixed (prev : string) (rest : list string) :
  dedup_from prev (dedup_from prev rest) = dedup_from prev rest.
Proof.
  revert prev. induction rest as [|z rest IH]; intros prev; cbn [dedup_from]; [done|].
  destruct (decide (z = prev)) as [->|Hne]; [apply IH|].
  cbn [dedup_from]. rewrite decide_False by done. by rewrite IH.
Qed.

(** X14.  [deduplicate] on any slice, sorted or not: an empty or nil
    slice is returned as it is; otherwise the result keeps the first
    element and the order of the input, holds the same strings, has no
    two equal neighbours, and is left unchanged by a second pass. *)
Theorem deduplicate_neighbours (s : slice string) :
  (elems s = [] → deduplicate s = s)
  ∧ is_nil (deduplicate s) = is_nil s
  ∧ head (elems (deduplicate s)) = head (elems s)
  ∧ elems (deduplicate s) `sublist_of` elems s
  ∧ (∀ x, x ∈ elems (deduplicate s) ↔ x ∈ elems s)
  ∧ (∀ i x y, elems (deduplicate s) !! i = Some x →
              elems (deduplicate s) !! S i = Some y → x ≠ y)
  ∧ deduplicate (deduplicate s) = deduplicate s.
Proof.
  split_and!.
  - unfold deduplicate. by intros ->.
  - apply deduplicate_is_nil.
  - unfold deduplicate. by destruct (elems s) eqn:E; [rewrite E|].
  - unfold deduplicate. destruct (elems s) as [|x l] eqn:E; [by rewrite E|].
    cbn [elems]. apply sublist_skip, dedup_from_sublist.
  - apply deduplicate_elem_of.
  - unfold deduplicate. destruct (elems s) as [|x l] eqn:E; [by rewrite E|].
    cbn [elems]. apply dedup_from_neighbours.
  - unfold deduplicate at 2 3. destruct (elems s) as [|x l] eqn:E.
    + unfold deduplicate. by rewrite E.
    + unfold deduplicate. cbn [elems]. by rewrite dedup_from_fixed.
Qed.

(** ** removeComments *)

Lemma prefix_nil_r (a : ascii) (s1 : string) : String.prefix (String a s1) "" = false.
Proof. done. Qed.

Lemma prefix_nil_l (s : string) : String.prefix "" s = true.
Proof. by destruct s. Qed.

Lemma Index_cons (c : ascii) (s sub : string) :
  strings_Index (String c s) sub
  = if String.prefix sub (String c s) then Some 0 else S <$> strings_Index s sub.
Proof. done. Qed.

Lemma Index_cons_None (c : ascii) (s sub : string) :
  strings_Index (String c s) sub = None
  ↔ String.prefix sub (String c s) = false ∧ strings_Index s sub = None.
Proof.
  rewrite Index_cons. destruct (String.prefix sub (String c s)); [naive_solver|].
  destruct (strings_Index s sub); naive_solver.
Qed.

Lemma prefix_str_take (sub : string) (n : nat) (s : string) :
  String.prefix sub (str_take n s) = true → String.prefix sub s = true.
Proof.
  revert n s. induction sub as [|a sub IH]; intros n s; [by rewrite !prefix_nil_l|].
  destruct n as [|n], s as [|b s]; cbn [str_take]; try done.
  rewrite !prefix_cons. destruct (decide (a = b)); [apply IH|done].
Qed.

(** The text left of the first occurrence holds none. *)
Lemma Index_str_take (s sub : string) (i : nat) :
  sub ≠ "" → strings_Index s sub = Some i → strings_Index (str_take i s) sub = None.
Proof.
  intros Hsub. revert i. induction s as [|c s IH]; intros i.
  - destruct sub; [done|]. done.
  - rewrite Index_cons. destruct (String.prefix sub (String c s)) eqn:Hp.
    + intros [= <-]. destruct sub; done.
    + destruct (strings_Index s sub) as [j|] eqn:Hj; [|done].
      intros [= <-]. cbn [str_take]. apply Index_cons_None. split; [|by apply IH].
      destruct (String.prefix sub (String c (str_take j s))) eqn:Hp'; [|done].
      apply (prefix_str_take sub (S j) (String c s)) in Hp'. congruence.
Qed.

Lemma cut_line_comment_clean (line : string) :
  strings_Index (cut_line_comment line) "//" = None.
Proof.
  unfold cut_line_comment. destruct (strings_Index line "//") as [i|] eqn:E; [|done].
  by apply Index_str_take.
Qed.

Lemma Index_app_line (a b : string) :
  strings_Index a "//" = None → strings_Index b "//" = None →
  strings_Index (a +:+ String "010" b) "//" = None.
Proof.
  intros Ha Hb. induction a as [|c a IH].
  - rewrite str_app_nil_l. apply Index_cons_None. split; [|done].
    rewrite prefix_cons. by rewrite decide_False.
  - apply Index_cons_None in Ha as [Hp Ha]. rewrite str_app_cons.
    apply Index_cons_None. split; [|by apply IH].
    rewrite prefix_cons in *. destruct (decide ("/"%char = c)); [|done].
    destruct a as [|d a].
    + rewrite str_app_nil_l, prefix_cons. by destruct (decide ("/"%char = "010"%char)).
    + rewrite str_app_cons. rewrite prefix_cons in Hp |- *.
      by rewrite prefix_nil_l in Hp |- *.
Qed.

Lemma concat_cons2 (sep x y : string) (l : list string) :
  String.concat sep (x :: y :: l) = x +:+ sep +:+ String.concat sep (y :: l).
Proof. done. Qed.

Lemma Index_Join_lines (ls : list string) :
  Forall (λ l, strings_Index l "//" = None) ls →
  strings_Index (strings_Join ls (String "010" "")) "//" = None.
Proof.
  unfold strings_Join. induction 1 as [|x ls Hx Hls IH]; [done|].
  destruct ls as [|y ls]; [done|].
  rewrite concat_cons2, str_app_cons, str_app_nil_l. by apply Index_app_line.
Qed.

Lemma elems_cleaned (acc : slice string) (lines : list string) :
  elems (foldl (λ cleaned line, append cleaned (cut_line_comment line)) acc lines)
  = elems acc ++ (cut_line_comment <$> lines).
Proof.
  revert acc. induction lines as [|l lines IH]; intros acc; cbn [foldl fmap list_fmap].
  - by rewrite app_nil_r.
  - rewrite IH. destruct acc; cbn [append elems]; [done|]. by rewrite <- app_assoc.
Qed.

(** X15.  The text [removeComments] returns holds no [//]. *)
Theorem removeComments_no_line_comment (source : string) :
  strings_Index (removeComments source) "//" = None.
Proof.
  unfold removeComments. cbv zeta. rewrite elems_cleaned. cbn [elems app].
  apply Index_Join_lines, Forall_fmap, Forall_forall. intros l _. apply cut_line_comment_clean.
Qed.

Lemma run_multiLine_no_open (bot : bool) (s : string) :
  String.prefix "/*" s = false → run multiLineRegex bot s = [].
Proof. intros H. unfold multiLineRegex. cbn [cat run]. by rewrite H. Qed.

Lemma scan_no_open (s : string) (bot : bool) :
  strings_Index s "/*" = None →
  scan multiLineRegex bot 0 false s = inr <$> String.list_ascii_of_string s.
Proof.
  revert bot. induction s as [|c s IH]; intros bot H; cbn [scan].
  - unfold exec. by rewrite run_multiLine_no_open.
  - apply Index_cons_None in H as [Hp H]. unfold exec. rewrite run_multiLine_no_open by done.
    cbn [String.list_ascii_of_string fmap list_fmap]. by rewrite IH.
Qed.

Lemma ReplaceAll_no_open (s : string) :
  strings_Index s "/*" = None → ReplaceAllString_empty multiLineRegex s = s.
Proof.
  intros H. unfold ReplaceAllString_empty. rewrite scan_no_open by done.
  assert (omap (λ x : list string + ascii, match x with inl _ => None | inr c => Some c end)
               (inr <$> String.list_ascii_of_string s) = String.list_ascii_of_string s) as ->.
  { induction (String.list_ascii_of_string s) as [|c l IH]; [done|].
    cbn [fmap list_fmap omap list_omap]. cbn [fmap list_fmap] in IH. by rewrite IH. }
  apply String.string_of_list_ascii_of_string.
Qed.

Lemma Split_not_nil (s : string) (sep : ascii) : strings_Split s sep ≠ [].
Proof.
  destruct s as [|c s]; cbn [strings_Split]; [done|].
  destruct (decide (c = sep)); [done|]. by destruct (strings_Split s sep).
Qed.

(** [strings.Join] undoes [strings.Split]. *)
Lemma Join_Split (s : string) (sep : ascii) :
  strings_Join (strings_Split s sep) (String sep "") = s.
Proof.
  unfold strings_Join. induction s as [|c s IH]; cbn [strings_Split]; [done|].
  pose proof (Split_not_nil s sep) as Hne.
  destruct (decide (c = sep)) as [->|Hc].
  - destruct (strings_Split s sep) as [|p rest]; [done|].
    rewrite concat_cons2, IH. done.
  - destruct (strings_Split s sep) as [|p rest]; [done|].
    destruct rest as [|q rest].
    + cbn [String.concat] in *. by rewrite IH.
    + rewrite concat_cons2 in *. rewrite str_app_cons. by rewrite IH.
Qed.

(** The first piece of a split starts as the text does. *)
Lemma Split_head_prefix (s : string) (sep : ascii) (piece : string) (rest : list string) :
  strings_Split s sep = piece :: rest →
  String.prefix (String "/" "") piece = true → String.prefix (String "/" "") s = true.
Proof.
  destruct s as [|c s]; cbn [strings_Split].
  - by intros [= <- <-].
  - destruct (decide (c = sep)); [by intros [= <- <-]|].
    destruct (strings_Split s sep); intros [= <- <-]; by rewrite !prefix_cons, !prefix_nil_l.
Qed.

Lemma Split_lines_clean (s : string) :
  strings_Index s "//" = None →
  Forall (λ l, strings_Index l "//" = None) (strings_Split s "010").
Proof.
  induction s as [|c s IH]; intros H; cbn [strings_Split]; [by repeat constructor|].
  apply Index_cons_None in H as [Hp H]. specialize (IH H).
  destruct (decide (c = "010"%char)); [by constructor|].
  destruct (strings_Split s "010") as [|p rest] eqn:E; [by apply Split_not_nil in E|].
  apply Forall_cons in IH as [Hp' Hrest]. constructor; [|done].
  apply Index_cons_None. split; [|done].
  rewrite prefix_cons in *. destruct (decide ("/"%char = c)); [|done].
  destruct (String.prefix "/" p) eqn:Hpp; [|done].
  by rewrite (Split_head_prefix s "010" p rest E Hpp) in Hp.
Qed.

(** X16.  A text with no [/*] and no [//] passes [removeComments]
    unchanged. *)
Theorem removeComments_unchanged (source : string) :
  strings_Index source "/*" = None →
  strings_Index source "//" = None →
  removeComments source = source.
Proof.
  intros Hopen Hline. unfold removeComments. cbv zeta.
  rewrite ReplaceAll_no_open, elems_cleaned by done. cbn [elems app].
  assert (cut_line_comment <$> strings_Split source "010" = strings_Split source "010") as ->.
  { pose proof (Split_lines_clean source Hline) as Hl.
    induction Hl as [|l ls Hl _ IH]; [done|].
    cbn [fmap list_fmap]. cbn [fmap list_fmap] in IH. rewrite IH.
    unfold cut_line_comment. by rewrite Hl. }
  apply Join_Split.
Qed.

Lemma removeComments_unchanged_witness :
  removeComments rename_src = rename_src.
Proof. apply removeComments_unchanged; vm_compute; reflexivity. Defined.

(** ** The names Parse returns *)

Lemma length_str_drop (k : nat) (s : string) :
  String.length (str_drop k s) = String.length s - k.
Proof.
  revert k. induction s as [|c s IH]; intros [|k]; cbn [str_drop String.length]; try done.
Qed.

Lemma span_le (p : ascii → bool) (s : string) : (span p s ≤ String.length s)%nat.
Proof.
  induction s as [|c s IH]; cbn [span String.length]; [done|]. destruct (p c); lia.
Qed.

Lemma str_take_span (p : ascii → bool) (k : nat) (s : string) :
  (1 ≤ k ≤ span p s)%nat → in_class p (str_take k s) = true.
Proof.
  unfold in_class. intros Hk.
  assert (H : ∀ k s, (k ≤ span p s)%nat → forallb p (String.list_ascii_of_string (str_take k s)) = true).
  { clear. intros k. induction k as [|k IH]; intros [|c s]; cbn [span str_take]; try done.
    destruct (p c) eqn:Hc; [|lia]. intros Hk.
    cbn [String.list_ascii_of_string forallb]. rewrite Hc, IH; [done|lia]. }
  rewrite H by lia. destruct k as [|k]; [lia|].
  destruct s as [|c s]; cbn [span] in Hk; [lia|]. done.
Qed.

Lemma run_captures (p : ascii → bool) (r : regex) (bot : bool) (s rest c : string) :
  captures p r → (rest, Some c) ∈ run r bot s → in_class p c = true.
Proof.
  revert bot s rest c.
  induction r as [l| |q|q|q|q|r1 IH1 r2 IH2|r1 IH1 r2 IH2|r1 IH1|r1 IH1];
    intros bot s rest c Hc; cbn [run captures] in *.
  - case_match; [|by intros ?%elem_of_nil]. by intros [=]%list_elem_of_singleton.
  - case_match; [|by intros ?%elem_of_nil]. by intros [=]%list_elem_of_singleton.
  - destruct s as [|a s]; [by intros ?%elem_of_nil|].
    case_match; [|by intros ?%elem_of_nil]. by intros [=]%list_elem_of_singleton.
  - by intros (k & [=] & _)%list_elem_of_fmap.
  - by intros (k & [=] & _)%list_elem_of_fmap.
  - by intros (k & [=] & _)%list_elem_of_fmap.
  - destruct Hc as [Hc1 Hc2].
    intros (m1 & (m2 & Hm%list_elem_of_singleton & Hm2)%list_elem_of_bind & Hm1)%list_elem_of_bind.
    destruct m1 as [rest1 cap1], m2 as [rest2 cap2]. cbn [fst snd] in *.
    injection Hm as -> Hcap. destruct cap2 as [c2|]; cbn in Hcap.
    + injection Hcap as ->. by eapply IH2.
    + subst cap1. by eapply IH1.
  - destruct Hc as [Hc1 Hc2]. rewrite elem_of_app. intros [H|H]; [by eapply IH1|by eapply IH2].
  - rewrite elem_of_app. intros [H|[=]%list_elem_of_singleton]. by eapply IH1.
  - subst r1. intros (m & Hm%list_elem_of_singleton & Hin)%list_elem_of_bind.
    injection Hm as -> ->. cbn [run] in Hin.
    apply list_elem_of_fmap in Hin as (k & -> & Hk). cbn [fst].
    rewrite elem_of_reverse, elem_of_seq in Hk.
    pose proof (span_le p s). rewrite length_str_drop.
    replace (String.length s - (String.length s - k)) with k by lia.
    apply str_take_span. lia.
Qed.

Lemma run_must_capture (r : regex) (bot : bool) (s rest : string) :
  must_capture r = true → (rest, None) ∉ run r bot s.
Proof.
  revert bot s rest.
  induction r as [l| |q|q|q|q|r1 IH1 r2 IH2|r1 IH1 r2 IH2|r1 IH1|r1 IH1];
    intros bot s rest; cbn [run must_capture]; try done.
  - intros Hm (m1 & (m2 & Hm'%list_elem_of_singleton & Hm2)%list_elem_of_bind & Hm1)%list_elem_of_bind.
    destruct m1 as [rest1 cap1], m2 as [rest2 cap2]. cbn [fst snd] in *.
    injection Hm' as -> Hcap. destruct cap2 as [c2|]; cbn in Hcap; [done|]. subst cap1.
    apply orb_true_iff in Hm as [Hm|Hm]; [by eapply IH1|by eapply IH2].
  - intros [H1 H2]%andb_true_iff. rewrite elem_of_app. intros [H|H]; [by eapply IH1|by eapply IH2].
  - intros _ (m & Hm%list_elem_of_singleton & Hin)%list_elem_of_bind. done.
Qed.

Lemma exec_group (p : ascii → bool) (r : regex) (bot : bool) (s : string) (n : nat)
    (m : list string) :
  captures p r → must_capture r = true →
  exec r bot s = Some (n, m) → in_class p (nth 1 m "") = true.
Proof.
  intros Hc Hm. unfold exec. destruct (run r bot s) as [|[rest cap] l] eqn:E; [done|].
  intros [= _ <-]. cbn [nth].
  assert (Hin : (rest, cap) ∈ run r bot s) by (rewrite E, elem_of_cons; by left).
  destruct cap as [c|]; [by eapply run_captures|]. by apply run_must_capture in Hin.
Qed.

Lemma scan_exec (r : regex) (s : string) (bot : bool) (skip : nat) (adj : bool)
    (m : list string) :
  inl m ∈ scan r bot skip adj s → ∃ bot' s' n, exec r bot' s' = Some (n, m).
Proof.
  revert bot skip adj. induction s as [|c s IH]; intros bot skip adj; cbn [scan].
  - destruct skip; [|by intros ?%elem_of_nil].
    destruct (exec r bot "") as [[[|k] m']|] eqn:E.
    + destruct adj; rewrite app_nil_r; [by intros ?%elem_of_nil|].
      intros [= ->]%list_elem_of_singleton. eauto.
    + intros [= ->]%list_elem_of_singleton. eauto.
    + by intros ?%elem_of_nil.
  - destruct skip; [|by apply IH].
    destruct (exec r bot (String c s)) as [[[|k] m']|] eqn:E.
    + rewrite elem_of_app, elem_of_cons. intros [Hm|[?|Hm]]; [|done|by eapply IH].
      destruct adj; [by apply elem_of_nil in Hm|].
      apply list_elem_of_singleton in Hm as [= ->]. eauto.
    + rewrite elem_of_cons. intros [[= ->]|Hm]; [eauto|by eapply IH].
    + rewrite elem_of_cons. intros [?|Hm]; [done|by eapply IH].
Qed.

(** The group of every match of such a pattern is in the class. *)
Lemma FindAll_group (p : ascii → bool) (r : regex) (s : string) :
  captures p r → must_capture r = true →
  Forall (λ x, in_class p x = true) (group1 (FindAllStringSubmatch r s)).
Proof.
  intros Hc Hm. unfold group1. apply Forall_fmap, Forall_forall. intros m.
  unfold FindAllStringSubmatch. rewrite list_elem_of_omap.
  intros [[m'|c] [Hin [= ->]]]. apply scan_exec in Hin as (bot' & s' & n & He).
  by eapply exec_group.
Qed.

Lemma in_class_identifier (s : string) : in_class cls_w s = is_identifier s.
Proof. done. Qed.

Lemma export_entry_nonempty (entry n : string) : export_entry entry = Some n → n ≠ "".
Proof. unfold export_entry. cbv zeta. case_decide; [done|]. by intros [= <-]. Qed.

Ltac group_solver :=
  apply FindAll_group; [cbn; repeat split; reflexivity|reflexivity].

(** X17.  Whatever the text, every function name and every class
    name [Parse] returns is an identifier (letters, digits and
    underscores, at least one), every import is a non-empty string
    without a quote character, and no export is the empty string. *)
Theorem Parse_names (source : string) :
  ∃ fs, Parse source = Ok fs
        ∧ Forall (λ x, is_identifier x = true) (elems (fs_Functions fs))
        ∧ Forall (λ x, is_identifier x = true) (elems (fs_Classes fs))
        ∧ Forall (λ x, in_class (cls_not cls_quote) x = true) (elems (fs_Imports fs))
        ∧ Forall (λ x, x ≠ "") (elems (fs_Exports fs)).
Proof.
  eexists. split; [reflexivity|]. cbn [fs_Functions fs_Classes fs_Imports fs_Exports].
  generalize (removeComments source). intros src. split_and!.
  - apply Forall_forall. intros x. rewrite dedup_sort_elem_of. revert x. apply Forall_forall.
    unfold extractFunctions. cbv zeta.
    rewrite !elems_append_submatches by apply FindAll_Forall_length.
    cbn [elems app]. rewrite !Forall_app. split_and!; group_solver.
  - apply Forall_forall. intros x. rewrite dedup_sort_elem_of. revert x. apply Forall_forall.
    unfold extractClasses.
    rewrite !elems_append_submatches by apply FindAll_Forall_length.
    cbn [elems app]. group_solver.
  - apply Forall_forall. intros x. rewrite dedup_sort_elem_of. revert x. apply Forall_forall.
    unfold extractImports. cbv zeta.
    rewrite !elems_append_submatches by apply FindAll_Forall_length.
    cbn [elems app]. rewrite !Forall_app. split_and!; group_solver.
  - apply Forall_forall. intros x. rewrite dedup_sort_elem_of, elems_extractExports.
    rewrite !elem_of_app, list_elem_of_omap.
    assert (Hid : ∀ y, in_class cls_w y = true → y ≠ "") by (by intros y Hy ->).
    intros [(e & _ & He)|[Hx|Hx]].
    + by eapply export_entry_nonempty.
    + apply Hid. revert x Hx. apply Forall_forall. group_solver.
    + apply Hid. revert x Hx. apply Forall_forall. group_solver.
Qed.

(** ** Generate and Update side by side *)

(** No directory above a leaf is one the walk skips. *)
Lemma leaves_outside (skip : path → bool) (n : node) (p : path) (l : path * node) :
  l ∈ leaves skip p n →
  ∃ rel, l.1 = p ++ rel ∧ ∀ pre suf, rel = pre ++ suf → suf ≠ [] → skip (p ++ pre) = false.
Proof.
  revert p. induction n as [c| | | |es IH] using node_ind_nested; intros p;
    try (cbn [leaves]; intros ->%list_elem_of_singleton; exists []; rewrite app_nil_r;
         split; [done|]; by intros [|??] [|??] ?).
  rewrite leaves_dir. destruct (skip p) eqn:Hskip; [by intros ?%elem_of_nil|].
  rewrite elem_of_leaves_entries. intros (name & child & Hin & Hl).
  rewrite Forall_forall in IH.
  destruct (IH (name, child) Hin (p ++ [name]) Hl) as (rel & -> & Hrel).
  exists (name :: rel). split; [by rewrite <- app_assoc|].
  intros [|x pre] suf Heq Hsuf.
  - by rewrite app_nil_r.
  - injection Heq as <- ->. specialize (Hrel pre suf eq_refl Hsuf).
    by rewrite <- app_assoc in Hrel.
Qed.

Lemma eligible_outside (Separator : ascii) (g : Generator) (w : world) (absRoot : path) (n : node)
    (p : path) (content : string) :
  well_formed n = true → lookup_path (fs w) absRoot = Some n →
  (p, content) ∈ eligible Separator g absRoot n →
  ∃ rel, p = absRoot ++ rel
         ∧ lookup_path (fs w) (absRoot ++ rel) = Some (File (Some content))
         ∧ ∀ pre suf, rel = pre ++ suf → suf ≠ [] →
                      is_ignored g (filepath_Base Separator (absRoot ++ pre)) = false.
Proof.
  intros Hwf Hp Hin. rewrite eligible_leaves in Hin.
  apply list_elem_of_omap in Hin as ([q x] & Hq & Hx).
  destruct (leaves_lookup _ (fs w) n absRoot _ Hwf Hp Hq) as [Hl _].
  destruct (leaves_outside _ n absRoot _ Hq) as (rel & Hrel & Hout).
  unfold eligible_leaf in Hx. cbn [fst snd] in *.
  destruct x as [[c0|]| | |]; try done.
  destruct (SupportsExtension (filepath_Ext q)) eqn:E; [|done].
  injection Hx as -> ->. exists rel. by rewrite <- Hrel.
Qed.

(** X18.  Every entry [Generate] returns is the entry of a readable
    file below the root none of whose enclosing directories, the root
    included, has an ignored name: what lies under an ignored directory
    is never read, however deep. *)
Theorem Generate_outside_ignored (Separator : ascii) (NFC : string → string) (O : MapOrder)
    (g : Generator) (w : world) (rootPath : string) (absRoot : path) (n : node) :
  well_formed (fs w) = true →
  filepath_Abs Separator w rootPath = Ok absRoot →
  lookup_path (fs w) absRoot = Some n → n ≠ Gone →
  ∃ ir, (Generate Separator NFC O g w rootPath).1 = Ok ir
    ∧ ∀ k f, Files ir !! k = Some f →
        ∃ rel content,
          lookup_path (fs w) (absRoot ++ rel) = Some (File (Some content))
          ∧ k = key_of Separator NFC absRoot (absRoot ++ rel)
          ∧ f = entry_of content
          ∧ ∀ pre suf, rel = pre ++ suf → suf ≠ [] →
                       is_ignored g (filepath_Base Separator (absRoot ++ pre)) = false.
Proof.
  intros Hwf Habs Hp Hne.
  rewrite (Generate_walk Separator NFC O g w rootPath absRoot n Hwf Habs Hp Hne).
  cbv zeta. eexists. split; [reflexivity|]. cbn [Files].
  intros k f. unfold gen_insert. rewrite foldl_insert_last.
  destruct (last_with _ _) as [[p c]|] eqn:E; [|by rewrite lookup_empty].
  intros [= <-]. apply last_with_Some in E as [Hin Hk].
  apply bool_decide_eq_true in Hk. cbn [fst snd] in *.
  pose proof (lookup_path_well_formed _ _ _ Hwf Hp) as Hwfn.
  destruct (eligible_outside Separator g w absRoot n p c Hwfn Hp Hin) as (rel & -> & Hl & Hout).
  exists rel, c. by split_and!.
Qed.

Lemma Generate_outside_ignored_witness :
  ∃ ir, (Generate "/" nfc_cafe order_fwd default_generator mixed_world "/proj").1 = Ok ir
    ∧ ∀ k f, Files ir !! k = Some f →
        ∃ rel content,
          lookup_path (fs mixed_world) (["proj"] ++ rel) = Some (File (Some content))
          ∧ k = key_of "/" nfc_cafe ["proj"] (["proj"] ++ rel)
          ∧ f = entry_of content
          ∧ ∀ pre suf, rel = pre ++ suf → suf ≠ [] →
                       is_ignored default_generator (filepath_Base "/" (["proj"] ++ pre)) = false.
Proof.
  refine (Generate_outside_ignored "/" nfc_cafe order_fwd default_generator mixed_world "/proj"
            ["proj"] _ _ _ _ _).
  - vm_compute. reflexivity.
  - vm_compute. reflexivity.
  - vm_compute. reflexivity.
  - discriminate.
Defined.

Lemma ComputeRootHash_text (O : MapOrder) (files : gmap string FileIR) :
  ComputeRootHash O files
  = HashBytes (fingerprint_text ((λ p, (p, default "" ((Hash <$> files) !! p)))
                                 <$> sort_Strings (map_to_list (Hash <$> files)).*1)).
Proof.
  rewrite (sort_Strings_unique _ _ (keys_fmap Hash files)).
  unfold ComputeRootHash. destruct (Nat.eqb_spec (size files) 0) as [Hz|Hnz].
  - apply map_size_empty_iff in Hz. subst files. by rewrite map_to_list_empty.
  - cbv zeta. rewrite sorted_range_keys, root_builder_text. do 2 f_equal.
    apply list_fmap_ext. intros _ p _. by rewrite map_index_fmap_Hash.
Qed.

(** The root hash sees the paths and the content hashes only. *)
Lemma ComputeRootHash_hashes (O O' : MapOrder) (m m' : gmap string FileIR) :
  Hash <$> m = Hash <$> m' → ComputeRootHash O m = ComputeRootHash O' m'.
Proof. intros H. by rewrite !ComputeRootHash_text, H. Qed.

Lemma updated_entry_Hash (existingIR : IR) (k content : string) :
  Hash (updated_entry existingIR k content) = HashBytes content.
Proof.
  unfold updated_entry. destruct (Files existingIR !! k) as [e|]; [|done].
  by case_decide.
Qed.

(** X19.  Whatever the earlier representation holds, [Update] returns
    the paths of a fresh [Generate] with the same content hashes, hence
    the same root hash; only the symbol lists of reused entries can
    differ. *)
Theorem Update_hashes_as_Generate (Separator : ascii) (NFC : string → string) (O O' : MapOrder)
    (g : Generator) (existingIR : IR) (w : world) (rootPath : string) (absRoot : path)
    (n : node) :
  well_formed (fs w) = true →
  filepath_Abs Separator w rootPath = Ok absRoot →
  lookup_path (fs w) absRoot = Some n → n ≠ Gone →
  ∃ fresh updated,
    (Generate Separator NFC O g w rootPath).1 = Ok fresh
    ∧ (Update Separator NFC O' g existingIR w rootPath).1 = Ok updated
    ∧ Hash <$> Files updated = Hash <$> Files fresh
    ∧ RootHash updated = RootHash fresh.
Proof.
  intros Hwf Habs Hp Hne.
  rewrite (Generate_walk Separator NFC O g w rootPath absRoot n Hwf Habs Hp Hne).
  rewrite (Update_walk Separator NFC O' g existingIR w rootPath absRoot n Hwf Habs Hp Hne).
  cbv zeta. eexists _, _. split; [reflexivity|]. split; [reflexivity|].
  cbn [Files RootHash].
  assert (Heq : Hash <$> foldl (upd_insert Separator NFC absRoot existingIR) ∅
                           (eligible Separator g absRoot n)
                = Hash <$> foldl (gen_insert Separator NFC absRoot) ∅
                             (eligible Separator g absRoot n)).
  { apply map_eq. intros k. rewrite !lookup_fmap. unfold upd_insert, gen_insert. cbv zeta.
    rewrite (foldl_insert_last (λ pc : path * string, key_of Separator NFC absRoot pc.1)
               (λ pc, updated_entry existingIR (key_of Separator NFC absRoot pc.1) pc.2)).
    rewrite (foldl_insert_last (λ pc : path * string, key_of Separator NFC absRoot pc.1)
               (λ pc, entry_of pc.2)).
    destruct (last_with _ _) as [[p c]|]; [|done].
    cbn [fmap option_fmap option_map fst snd]. by rewrite updated_entry_Hash. }
  split; [done|]. by apply ComputeRootHash_hashes.
Qed.

Lemma Update_hashes_as_Generate_witness :
  ∃ fresh updated,
    (Generate "/" nfc_cafe order_fwd default_generator update_world ".").1 = Ok fresh
    ∧ (Update "/" nfc_cafe order_rev default_generator prior_IR update_world ".").1 = Ok updated
    ∧ Hash <$> Files updated = Hash <$> Files fresh
    ∧ RootHash updated = RootHash fresh.
Proof.
  refine (Update_hashes_as_Generate "/" nfc_cafe order_fwd order_rev default_generator prior_IR
            update_world "." ["proj"] _ _ _ _ _).
  - vm_compute. reflexivity.
  - vm_compute. reflexivity.
  - vm_compute. reflexivity.
  - discriminate.
Defined.

(** X20.  When no entry of the earlier representation carries the hash
    of a readable file of the tree, nothing is reused and [Update]
    returns what [Generate] returns; so it does from an empty
    representation. *)
Theorem Update_stale_is_Generate (Separator : ascii) (NFC : string → string) (O : MapOrder)
    (g : Generator) (existingIR : IR) (w : world) (rootPath : string) (absRoot : path)
    (n : node) :
  well_formed (fs w) = true →
  filepath_Abs Separator w rootPath = Ok absRoot →
  lookup_path (fs w) absRoot = Some n → n ≠ Gone →
  (∀ k e p content,
     Files existingIR !! k = Some e →
     lookup_path (fs w) p = Some (File (Some content)) →
     Hash e ≠ HashBytes content) →
  (Update Separator NFC O g existingIR w rootPath).1
  = (Generate Separator NFC O g w rootPath).1.
Proof.
  intros Hwf Habs Hp Hne Hstale.
  rewrite (Generate_walk Separator NFC O g w rootPath absRoot n Hwf Habs Hp Hne).
  rewrite (Update_walk Separator NFC O g existingIR w rootPath absRoot n Hwf Habs Hp Hne).
  cbv zeta. cbn [fst].
  assert (Heq : foldl (upd_insert Separator NFC absRoot existingIR) ∅
                  (eligible Separator g absRoot n)
                = foldl (gen_insert Separator NFC absRoot) ∅ (eligible Separator g absRoot n)).
  { apply foldl_ext_in. intros files [p c] Hin. unfold upd_insert, gen_insert. cbv zeta.
    cbn [fst snd]. f_equal. unfold updated_entry.
    destruct (Files existingIR !! key_of Separator NFC absRoot p) as [e|] eqn:E; [|done].
    pose proof (lookup_path_well_formed _ _ _ Hwf Hp) as Hwfn.
    destruct (eligible_files Separator g w absRoot n p c Hwfn Hp Hin) as (Hl & _).
    rewrite decide_False; [done|]. by eapply Hstale. }
  by rewrite Heq.
Qed.

(** Follow a path through a tree that is written out. *)
Ltac split_lookup H :=
  repeat (first
    [ discriminate H
    | match type of H with
      | context [decide ?P] => destruct (decide P); cbn [lookup_path assoc] in H
      end
    | match type of H with
      | lookup_path _ ?p = _ => is_var p; destruct p; cbn [lookup_path assoc] in H
      end ]).

Lemma Update_stale_is_Generate_witness :
  (Update "/" nfc_cafe order_fwd default_generator stale_IR mixed_world "/proj").1
  = (Generate "/" nfc_cafe order_fwd default_generator mixed_world "/proj").1.
Proof.
  refine (Update_stale_is_Generate "/" nfc_cafe order_fwd default_generator stale_IR
            mixed_world "/proj" ["proj"] _ _ _ _ _ _).
  - vm_compute. reflexivity.
  - vm_compute. reflexivity.
  - vm_compute. reflexivity.
  - discriminate.
  - intros k e p content Hk Hp.
    assert (He : e = entry_of "class Old {}").
    { unfold stale_IR in Hk. cbn [Files] in Hk.
      apply lookup_singleton_Some in Hk as [_ <-]. done. }
    subst e. rewrite entry_of_Hash.
    unfold mixed_world in Hp. cbn [fs] in Hp. split_lookup Hp;
      injection Hp as <-; vm_compute; discriminate.
Defined.

Lemma leaf_warning_update (l : path * node) :
  leaf_warning WarnHash l = as_update_warning <$> leaf_warning WarnParse l.
Proof.
  unfold leaf_warning. destruct l as [p [[c|]| |[es|]|]]; cbn [snd fst]; try done.
  by destruct (SupportsExtension _).
Qed.

(** X21.  [Generate] and [Update] warn about the same paths in the
    same order: [Update] writes [failed to hash] where [Generate] writes
    [failed to parse], and the same line otherwise.  A warning names
    either a directory that cannot be listed or an entry that cannot be
    examined ([failed to access]), or a file with a supported extension
    that cannot be read. *)
Theorem Update_warnings (Separator : ascii) (NFC : string → string) (O O' : MapOrder)
    (g : Generator) (existingIR : IR) (w : world) (rootPath : string) (absRoot : path)
    (n : node) :
  well_formed (fs w) = true →
  filepath_Abs Separator w rootPath = Ok absRoot →
  lookup_path (fs w) absRoot = Some n → n ≠ Gone →
  (Update Separator NFC O' g existingIR w rootPath).2
  = as_update_warning <$> (Generate Separator NFC O g w rootPath).2
  ∧ ∀ wn, wn ∈ (Generate Separator NFC O g w rootPath).2 →
      match wn with
      | WarnAccess p =>
          lookup_path (fs w) p = Some (Dir None) ∨ lookup_path (fs w) p = Some Gone
      | WarnParse p =>
          lookup_path (fs w) p = Some (File None) ∧ SupportsExtension (filepath_Ext p) = true
      | _ => False
      end.
Proof.
  intros Hwf Habs Hp Hne.
  rewrite (Generate_walk Separator NFC O g w rootPath absRoot n Hwf Habs Hp Hne).
  rewrite (Update_walk Separator NFC O' g existingIR w rootPath absRoot n Hwf Habs Hp Hne).
  cbv zeta. cbn [snd]. split.
  - induction (leaves (skip_dir Separator g) absRoot n) as [|l ls IH]; [done|].
    cbn [omap list_omap]. rewrite leaf_warning_update, IH.
    by destruct (leaf_warning WarnParse l).
  - intros wn. rewrite list_elem_of_omap. intros ([p x] & Hin & Hwn).
    pose proof (lookup_path_well_formed _ _ _ Hwf Hp) as Hwfn.
    destruct (leaves_lookup _ (fs w) n absRoot _ Hwfn Hp Hin) as [Hl Hdir].
    unfold leaf_warning in Hwn. cbn [fst snd] in *.
    destruct x as [[c|]| |[es|]|]; try done.
    + destruct (SupportsExtension (filepath_Ext p)) eqn:E; [|done]. injection Hwn as <-. by split.
    + by destruct (Hdir es).
    + injection Hwn as <-. by left.
    + injection Hwn as <-. by right.
Qed.

Lemma Update_warnings_witness :
  (Update "/" nfc_cafe order_rev default_generator stale_IR mixed_world "/proj").2
  = as_update_warning <$> (Generate "/" nfc_cafe order_fwd default_generator mixed_world "/proj").2
  ∧ ∀ wn, wn ∈ (Generate "/" nfc_cafe order_fwd default_generator mixed_world "/proj").2 →
      match wn with
      | WarnAccess p =>
          lookup_path (fs mixed_world) p = Some (Dir None)
          ∨ lookup_path (fs mixed_world) p = Some Gone
      | WarnParse p =>
          lookup_path (fs mixed_world) p = Some (File None)
          ∧ SupportsExtension (filepath_Ext p) = true
      | _ => False
      end.
Proof.
  refine (Update_warnings "/" nfc_cafe order_fwd order_rev default_generator stale_IR
            mixed_world "/proj" ["proj"] _ _ _ _ _).
  - vm_compute. reflexivity.
  - vm_compute. reflexivity.
  - vm_compute. reflexivity.
  - discriminate.
Defined.

(** ** Spellings of the root path *)

Lemma Split_app_sep (s : string) (sep : ascii) :
  strings_Split (s +:+ String sep "") sep = strings_Split s sep ++ [""].
Proof.
  induction s as [|c s IH].
  - rewrite str_app_nil_l. cbn [strings_Split]. by rewrite decide_True.
  - rewrite str_app_cons. cbn [strings_Split]. rewrite IH.
    destruct (decide (c = sep)); [done|].
    pose proof (Split_not_nil s sep). by destruct (strings_Split s sep).
Qed.

Lemma clean_components_app_empty (stack comps : list string) :
  clean_components stack (comps ++ [""]) = clean_components stack comps.
Proof.
  revert stack. induction comps as [|c comps IH]; intros stack; cbn [app clean_components].
  - by rewrite decide_True.
  - by repeat case_decide.
Qed.

Lemma filepath_Abs_trailing (Separator : ascii) (w : world) (rootPath : string) :
  rootPath ≠ "" →
  filepath_Abs Separator w (rootPath +:+ String Separator "") = filepath_Abs Separator w rootPath.
Proof.
  intros Hne. destruct rootPath as [|c s]; [done|].
  assert (Hs : strings_Split (String c (s +:+ String Separator "")) Separator
               = strings_Split (String c s) Separator ++ [""]).
  { rewrite <- str_app_cons. apply Split_app_sep. }
  rewrite str_app_cons. unfold filepath_Abs. rewrite Hs.
  destruct (cwd w); by rewrite !clean_components_app_empty.
Qed.

Lemma filepath_Abs_dot (Separator : ascii) (w : world) (rootPath : string) :
  Separator ≠ "."%char → is_relative Separator rootPath = true →
  filepath_Abs Separator w (String "." (String Separator rootPath))
  = filepath_Abs Separator w rootPath.
Proof.
  intros Hsep Hrel. unfold filepath_Abs. rewrite decide_False by done.
  destruct (cwd w) as [wd|]; [|by destruct rootPath as [|c s]; [|rewrite decide_False
    by (intros ->; cbn in Hrel; by rewrite bool_decide_eq_true_2 in Hrel)]].
  assert (Hs : strings_Split (String "." (String Separator rootPath)) Separator
               = "." :: strings_Split rootPath Separator).
  { cbn [strings_Split]. rewrite decide_False by done. by rewrite decide_True. }
  rewrite Hs. cbn [clean_components]. rewrite decide_False, decide_True by done.
  destruct rootPath as [|c s].
  - cbn [strings_Split clean_components]. by rewrite decide_True, reverse_involutive.
  - rewrite decide_False; [done|].
    intros ->. cbn in Hrel. by rewrite bool_decide_eq_true_2 in Hrel.
Qed.

(** X22.  The spelling of the root path does not matter: a separator
    at the end of a non-empty root path, or [.] and a separator before a
    relative one, change nothing in what [Generate] and [Update] return
    and write, since both keep only the cleaned absolute path. *)
Theorem Generate_root_spelling (Separator : ascii) (NFC : string → string) (O : MapOrder)
    (g : Generator) (existingIR : IR) (w : world) (rootPath : string) :
  Separator ≠ "."%char →
  (rootPath ≠ "" →
   Generate Separator NFC O g w (rootPath +:+ String Separator "")
   = Generate Separator NFC O g w rootPath
   ∧ Update Separator NFC O g existingIR w (rootPath +:+ String Separator "")
     = Update Separator NFC O g existingIR w rootPath)
  ∧ (is_relative Separator rootPath = true →
     Generate Separator NFC O g w (String "." (String Separator rootPath))
     = Generate Separator NFC O g w rootPath
     ∧ Update Separator NFC O g existingIR w (String "." (String Separator rootPath))
       = Update Separator NFC O g existingIR w rootPath).
Proof.
  intros Hsep. split.
  - intros Hne. unfold Generate, Update. by rewrite filepath_Abs_trailing.
  - intros Hrel. unfold Generate, Update. by rewrite filepath_Abs_dot.
Qed.

Lemma Generate_root_spelling_witness :
  ("proj" ≠ "" →
   Generate "/" nfc_cafe order_fwd default_generator mixed_world ("proj" +:+ "/")
   = Generate "/" nfc_cafe order_fwd default_generator mixed_world "proj"
   ∧ Update "/" nfc_cafe order_fwd default_generator stale_IR mixed_world ("proj" +:+ "/")
     = Update "/" nfc_cafe order_fwd default_generator stale_IR mixed_world "proj")
  ∧ (is_relative "/" "proj" = true →
     Generate "/" nfc_cafe order_fwd default_generator mixed_world "./proj"
     = Generate "/" nfc_cafe order_fwd default_generator mixed_world "proj"
     ∧ Update "/" nfc_cafe order_fwd default_generator stale_IR mixed_world "./proj"
       = Update "/" nfc_cafe order_fwd default_generator stale_IR mixed_world "proj").
Proof.
  apply (Generate_root_spelling "/" nfc_cafe order_fwd default_generator stale_IR mixed_world
           "proj").
  discriminate.
Defined.

(** ** The helpers of the tests *)

Lemma equalStringSlices_spec (a b : slice string) :
  equalStringSlices a b = true ↔ elems a = elems b.
Proof.
  unfold equalStringSlices. split.
  - destruct (Nat.eqb_spec (length (elems a)) (length (elems b))) as [Hlen|]; [|done].
    cbn [negb]. rewrite forallb_forall. intros H.
    apply (nth_ext _ _ "" ""); [done|]. intros i Hi.
    specialize (H i). rewrite bool_decide_eq_true in H. apply H.
    apply in_seq. lia.
  - intros ->. rewrite Nat.eqb_refl. cbn [negb]. apply forallb_forall.
    intros i _. by apply bool_decide_eq_true.
Qed.

Lemma equalFileIR_spec (a b : FileIR) : equalFileIR a b = true ↔ same_entry a b.
Proof.
  unfold equalFileIR, same_entry.
  rewrite !andb_true_iff, bool_decide_eq_true, !equalStringSlices_spec. tauto.
Qed.

Lemma range_keys_elem_of (O : MapOrder) {V} (m : gmap string V) (k : string) :
  k ∈ range_keys O m ↔ is_Some (m !! k).
Proof. by rewrite range_keys_perm, keys_elem_of. Qed.

(** X23.  The comparison the determinism tests use: [equalIR] holds
    exactly when the two representations have the same version, the
    same root hash and the same paths, and at every path entries with
    the same hash and the same strings in each list.  It does not tell
    a nil list from an empty one. *)
Theorem equalIR_spec (O : MapOrder) (a b : IR) :
  equalIR O a b = true
  ↔ Version a = Version b ∧ RootHash a = RootHash b
    ∧ ∀ k, match Files a !! k, Files b !! k with
           | Some fa, Some fb => same_entry fa fb
           | None, None => True
           | _, _ => False
           end.
Proof.
  unfold equalIR. split.
  - destruct (Z.eqb_spec (Version a) (Version b)) as [Hv|]; [|done].
    case_bool_decide as Hr; [|done].
    destruct (Nat.eqb_spec (size (Files a)) (size (Files b))) as [Hs|]; [|done].
    cbn [negb]. rewrite forallb_forall. intros H. split_and!; [done..|].
    assert (Hsub : ∀ k fa, Files a !! k = Some fa →
                     ∃ fb, Files b !! k = Some fb ∧ same_entry fa fb).
    { intros k fa Hk. specialize (H k). destruct (Files b !! k) as [fb|].
      - exists fb. split; [done|]. apply equalFileIR_spec.
        unfold map_index in H. rewrite Hk in H. apply H.
        apply list_elem_of_In, range_keys_elem_of. by rewrite Hk.
      - discriminate H. apply list_elem_of_In, range_keys_elem_of. by rewrite Hk. }
    assert (Hdom : dom (Files a) = dom (Files b)).
    { apply set_subseteq_size_eq.
      - intros k. rewrite !elem_of_dom. intros [fa Hk].
        destruct (Hsub k fa Hk) as (fb & -> & _). done.
      - rewrite !size_dom. lia. }
    intros k. destruct (Files a !! k) as [fa|] eqn:Ha.
    + by destruct (Hsub k fa Ha) as (fb & -> & ?).
    + destruct (Files b !! k) as [fb|] eqn:Hb; [|done].
      assert (k ∈ dom (Files a)) as [fa Hfa]%elem_of_dom; [|congruence].
      rewrite Hdom. apply elem_of_dom. by rewrite Hb.
  - intros (-> & -> & H). rewrite Z.eqb_refl, bool_decide_eq_true_2 by done. cbn [negb].
    assert (Hdom : dom (Files a) = dom (Files b)).
    { apply set_eq. intros k. rewrite !elem_of_dom. specialize (H k).
      destruct (Files a !! k), (Files b !! k); try done; split; intros [? ?]; done. }
    rewrite <- !size_dom, Hdom, Nat.eqb_refl. cbn [negb].
    apply forallb_forall. intros k Hk%list_elem_of_In%range_keys_elem_of.
    specialize (H k). destruct Hk as [fa Hk]. unfold map_index. rewrite Hk in *.
    destruct (Files b !! k) as [fb|]; [|done]. by apply equalFileIR_spec.
Qed.

Lemma substring_drop (i n : nat) (s : string) :
  (i ≤ String.length s)%nat → String.substring i n s = String.substring 0 n (str_drop i s).
Proof.
  revert s. induction i as [|i IH]; intros s Hi; [by destruct s|].
  destruct s as [|c s]; cbn [String.length] in Hi; [lia|].
  cbn [String.substring str_drop]. apply IH. lia.
Qed.

Lemma Index_short (s substr : string) :
  (String.length s < String.length substr)%nat → strings_Index s substr = None.
Proof.
  assert (Hp : ∀ t, (String.length t < String.length substr)%nat → String.prefix substr t = false).
  { intros t Ht. destruct (String.prefix substr t) eqn:E; [|done].
    apply String.prefix_correct in E.
    assert (String.length (String.substring 0 (String.length substr) t)
            = String.length substr) as Hl by (by rewrite E).
    clear E. exfalso. revert t Ht Hl. generalize (String.length substr).
    intros n t. revert n. induction t as [|c t IH]; intros [|n]; cbn; try lia.
    intros Ht [= Hl]. apply (IH n); [lia|done]. }
  induction s as [|c s IH]; intros Hl.
  - cbn [strings_Index]. by rewrite Hp.
  - rewrite Index_cons, Hp by done. rewrite IH; [done|]. cbn [String.length] in Hl. lia.
Qed.

Lemma str_drop_S (i : nat) (s : string) :
  (i < String.length s)%nat → ∃ c, str_drop i s = String c (str_drop (S i) s).
Proof.
  revert s. induction i as [|i IH]; intros [|c s]; cbn [String.length str_drop]; try lia.
  - eauto.
  - intros Hi. apply IH. lia.
Qed.

Lemma indexOf_loop_Index (fuel i : nat) (s substr : string) :
  (i ≤ String.length s)%nat → (String.length s < i + fuel)%nat →
  indexOf_loop fuel i s substr
  = match strings_Index (str_drop i s) substr with
    | Some j => Z.of_nat (i + j)
    | None => (-1)%Z
    end.
Proof.
  revert i. induction fuel as [|fuel IH]; intros i Hi Hf; [lia|].
  cbn [indexOf_loop]. pose proof (length_str_drop i s) as Hd.
  destruct (Z.leb_spec (Z.of_nat i)
              (Z.of_nat (String.length s) - Z.of_nat (String.length substr))) as [Hb|Hb].
  - rewrite substring_drop by done.
    destruct (decide (String.substring 0 (String.length substr) (str_drop i s) = substr))
      as [Heq|Hne].
    + apply String.prefix_correct in Heq.
      destruct (str_drop i s) as [|c t]; cbn [strings_Index]; rewrite Heq; f_equal; lia.
    + assert (Hp : String.prefix substr (str_drop i s) = false).
      { destruct (String.prefix substr (str_drop i s)) eqn:E; [|done].
        by apply String.prefix_correct in E. }
      assert (Hsub : (0 < String.length substr)%nat).
      { destruct substr; [|cbn; lia]. by rewrite prefix_nil_l in Hp. }
      destruct (str_drop_S i s) as [c Hc]; [lia|].
      rewrite IH by lia. rewrite Hc in *. rewrite Index_cons, Hp.
      destruct (strings_Index (str_drop (S i) s) substr) as [j|]; [|done].
      cbn [fmap option_fmap option_map]. f_equal. lia.
  - rewrite Index_short; [done|]. lia.
Qed.

(** X24.  [indexOf], the search the ordering test relies on, is
    [strings.Index]: the byte offset of the first occurrence, -1 when
    there is none, 0 for the empty string. *)
Theorem indexOf_Index (s substr : string) :
  indexOf s substr
  = match strings_Index s substr with
    | Some j => Z.of_nat j
    | None => (-1)%Z
    end.
Proof.
  unfold indexOf. rewrite indexOf_loop_Index by lia. cbn [str_drop].
  by destruct s.
Qed.
